(** * poly-solver: the expression normaliser, the algebra bridge, the sampler
      and the page

    A shallow embedding of [src/maths.js] and of the later revision of the
    same script ([src/unnamed/part_000]), which adds a theme switch and
    lets [runSympyCommand] return a raw value beside the text.  Line
    numbers are those of [src/maths.js].

    - JavaScript strings are sequences of UTF-16 code units; a code unit is
      an [N].  The regular expressions of [parseExpression] have no [u]
      flag, so they work on code units, and so does this model.
    - A global replacement is given twice: folded into a recursion over the
      subject ([replaceAll]), and as the loop the JavaScript engine runs,
      one iteration for each match ([Operational.replaceGlobal]).
    - Numbers are IEEE binary64 values, taken from [SpecFloat].
    - The algebra engine (Pyodide running SymPy and NumPy) is a collaborator
      of the script, not part of it: what [sympify], the SymPy actions and
      [lambdify] answer is a parameter of the model ([Engine]).  The Python
      programs the script assembles are embedded statement by statement over
      that parameter; [numpy.linspace], [json.dumps] and [JSON.parse] are
      modelled as their libraries define them.  General statements hold for
      all engines; runs on concrete inputs use the small engines [Stub] and
      [Demo].
    - The page is the elements the script looks up, each of which may be
      missing, with the alerts, the console errors and the callbacks it
      schedules; when Plotly arrives and whether it draws is a parameter
      ([Browser]). *)

From Stdlib Require Import String Ascii Bool Arith NArith ZArith Lia List.
From Stdlib Require Import SpecFloat.
Import ListNotations.

Set Implicit Arguments.

(* ================================================================== *)
(** * JavaScript strings *)
(* ================================================================== *)

Module JsString.

Local Open Scope N_scope.

(** A UTF-16 code unit. *)
Definition char := N.

Definition jsstring := list char.

(** The code units of a literal of this file (all of them ASCII). *)
Definition js (s : string) : jsstring :=
  List.map N_of_ascii (list_ascii_of_string s).

Definition caret  : char := 94.   (* ^ *)
Definition star   : char := 42.   (* * *)
Definition lparen : char := 40.   (* ( *)
Definition rparen : char := 41.   (* ) *)
Definition equals : char := 61.   (* = *)
Definition minus  : char := 45.   (* - *)
Definition space  : char := 32.
Definition dquote : char := 34.   (* the double quote *)
Definition backslash : char := 92.

Definition between (lo hi c : char) : bool := (lo <=? c) && (c <=? hi).

(** [\d] without the [u] or [i] flag: the ten ASCII digits. *)
Definition isDigit (c : char) : bool := between 48 57 c.

(** [[a-zA-Z]]. *)
Definition isLetter (c : char) : bool := between 97 122 c || between 65 90 c.

(** [[a-zA-Z0-9]]. *)
Definition isAlnum (c : char) : bool := isLetter c || isDigit c.

(** [\s], which is also what [String.prototype.trim] strips: ECMAScript's
    WhiteSpace (TAB, VT, FF, SP, NBSP, ZWNBSP and the Unicode space
    separators) and LineTerminator (LF, CR, LS, PS). *)
Definition isWs (c : char) : bool :=
  between 9 13 c                      (* TAB LF VT FF CR *)
  || (c =? 32) || (c =? 160)          (* SP NBSP *)
  || (c =? 5760)                      (* U+1680 *)
  || between 8192 8202 c              (* U+2000 .. U+200A *)
  || (c =? 8232) || (c =? 8233)       (* LS PS *)
  || (c =? 8239) || (c =? 8287)       (* U+202F U+205F *)
  || (c =? 12288) || (c =? 65279).    (* U+3000 U+FEFF *)

(** The longest run of white space at the head of a string, and what
    follows it: how a greedy [\s*] splits the rest of the input. *)
Fixpoint takeWs (s : jsstring) : jsstring :=
  match s with
  | c :: tl => if isWs c then c :: takeWs tl else []
  | [] => []
  end.

Fixpoint dropWs (s : jsstring) : jsstring :=
  match s with
  | c :: tl => if isWs c then dropWs tl else s
  | [] => []
  end.

Definition trimStart (s : jsstring) : jsstring := dropWs s.

Fixpoint trimEnd (s : jsstring) : jsstring :=
  match s with
  | [] => []
  | c :: tl =>
      match trimEnd tl with
      | [] => if isWs c then [] else [c]
      | r => c :: r
      end
  end.

(** [String.prototype.trim]. *)
Definition trim (s : jsstring) : jsstring := trimEnd (trimStart s).

(** [String.prototype.includes] for a one-unit needle. *)
Definition includes (c : char) (s : jsstring) : bool :=
  existsb (N.eqb c) s.

(** ** Regular-expression replacement

    A pattern is given by what it does at one position of the subject: it
    either fails there, or matches a non-empty prefix of the remaining
    input, of which it reports the length, together with the expansion of
    the replacement template ([$1], [$2] filled in). *)
Definition matcher := jsstring -> option (jsstring * nat).

(** [s.replace(/re/g, template)]: the subject is scanned from the left; at
    a position where the pattern matches, the expansion is emitted and the
    scan resumes after the match ([skip] counts the units of the current
    match still to step over); elsewhere the unit is copied. *)
Fixpoint replaceAllFrom (m : matcher) (skip : nat) (s : jsstring) : jsstring :=
  match s with
  | [] => []
  | c :: tl =>
      match skip with
      | S k => replaceAllFrom m k tl
      | O =>
          match m s with
          | Some (rep, n) => rep ++ replaceAllFrom m (Nat.pred n) tl
          | None => c :: replaceAllFrom m O tl
          end
      end
  end.

Definition replaceAll (m : matcher) (s : jsstring) : jsstring :=
  replaceAllFrom m O s.

(** [s.replace(/re/, template)] without the [g] flag: only the leftmost
    match is replaced. *)
Fixpoint replaceFirst (m : matcher) (s : jsstring) : jsstring :=
  match m s with
  | Some (rep, n) => rep ++ skipn n s
  | None =>
      match s with
      | [] => []
      | c :: tl => c :: replaceFirst m tl
      end
  end.

End JsString.

Export JsString.

(* ================================================================== *)
(** * The normaliser: [parseExpression] *)
(* ================================================================== *)

Module Normalizer.

Local Open Scope N_scope.

(** [/\^/] with template ["**"]. *)
Definition reCaret : matcher := fun s =>
  match s with
  | c :: _ => if c =? caret then Some ([star; star], 1%nat) else None
  | [] => None
  end.

(** [/(\d)([a-zA-Z])/] with template ["$1*$2"]. *)
Definition reDigitLetter : matcher := fun s =>
  match s with
  | d :: l :: _ =>
      if isDigit d && isLetter l then Some ([d; star; l], 2%nat) else None
  | _ => None
  end.

(** [/(\))(\s*[a-zA-Z0-9])/] with template ["$1*$2"].  White space and
    [[a-zA-Z0-9]] are disjoint, so giving back part of the greedy [\s*]
    never helps: the pattern matches exactly when the first unit after the
    whole run of white space is a letter or a digit. *)
Definition reCloseAlnum : matcher := fun s =>
  match s with
  | c :: tl =>
      if c =? rparen then
        match dropWs tl with
        | a :: _ =>
            if isAlnum a
            then Some (rparen :: star :: takeWs tl ++ [a],
                       S (S (length (takeWs tl))))
            else None
        | [] => None
        end
      else None
  | [] => None
  end.

(** [/(\d)(\s*\()/] with template ["$1*("]: the white space of the second
    group is not copied. *)
Definition reDigitOpen : matcher := fun s =>
  match s with
  | d :: tl =>
      if isDigit d then
        match dropWs tl with
        | p :: _ =>
            if p =? lparen
            then Some ([d; star; lparen], S (S (length (takeWs tl))))
            else None
        | [] => None
        end
      else None
  | [] => None
  end.

(** [/\)\s*\(/] with template [")*("]. *)
Definition reCloseOpen : matcher := fun s =>
  match s with
  | c :: tl =>
      if c =? rparen then
        match dropWs tl with
        | p :: _ =>
            if p =? lparen
            then Some ([rparen; star; lparen], S (S (length (takeWs tl))))
            else None
        | [] => None
        end
      else None
  | [] => None
  end.

(** [/\s+/] with template [" "]. *)
Definition reSpaces : matcher := fun s =>
  match s with
  | c :: tl => if isWs c then Some ([space], S (length (takeWs tl))) else None
  | [] => None
  end.

(** [/\s*=\s*/] with template ["-("]. *)
Definition reEquals : matcher := fun s =>
  match dropWs s with
  | c :: tl =>
      if c =? equals
      then Some ([minus; lparen],
                 (length (takeWs s) + S (length (takeWs tl)))%nat)
      else None
  | [] => None
  end.

(** Lines 20 to 26 of [parseExpression]: everything before the equation
    rewrite. *)
Definition rewriteOperators (expr : jsstring) : jsstring :=
  let parsed := trim expr in
  let parsed := replaceAll reCaret parsed in
  let parsed := replaceAll reDigitLetter parsed in
  let parsed := replaceAll reCloseAlnum parsed in
  let parsed := replaceAll reDigitOpen parsed in
  let parsed := replaceAll reCloseOpen parsed in
  let parsed := replaceAll reSpaces parsed in
  parsed.

(** Line 27. *)
Definition rewriteEquation (parsed : jsstring) : jsstring :=
  if includes equals parsed
  then replaceFirst reEquals parsed ++ [rparen]
  else parsed.

(** [parseExpression] on a string argument. *)
Definition normalize (expr : jsstring) : jsstring :=
  rewriteEquation (rewriteOperators expr).

End Normalizer.

Export Normalizer.

(** [parseExpression] takes any JavaScript value. *)
Inductive JsValue :=
| JsUndefined
| JsNull
| JsBoolean (b : bool)
| JsNumber (n : spec_float)
| JsBigInt (z : Z)
| JsSymbol (id : N)
| JsString (s : jsstring)
| JsObject (ref : N).      (* objects, arrays and functions, by reference *)

(** [typeof v === "string"]. *)
Definition typeofString (v : JsValue) : bool :=
  match v with JsString _ => true | _ => false end.

Definition parseExpression (expr : JsValue) : JsValue :=
  match expr with
  | JsString s => JsString (normalize s)
  | other => other            (* if (typeof expr !== "string") return expr; *)
  end.

(* ================================================================== *)
(** * [parseExpression] as the engine runs it *)
(* ================================================================== *)

(** [String.prototype.replace] with a global pattern is a loop inside the
    JavaScript engine: it asks the pattern for its next match, from
    [lastIndex] on, until there is none, and after an empty match it moves
    [lastIndex] on by one unit.  [replaceAll] above folds that loop into a
    recursion over the subject.  Here the loop is run as the engine runs
    it, one iteration for each match, under a bound on the number of
    iterations: an evaluation that has not ended within the bound is
    [Unfinished]. *)
Module Operational.

Inductive Completion (A : Type) :=
| Normal (a : A)
| Unfinished.

Arguments Normal {A} a.
Arguments Unfinished {A}.

Definition andThen {A B} (c : Completion A) (f : A -> Completion B)
  : Completion B :=
  match c with
  | Normal a => f a
  | Unfinished => Unfinished
  end.

(** What [RegExpBuiltinExec] finds: the units before the match, the
    expansion of the template, the length of the match and the subject
    from the start of the match on. *)
Record Match := mkMatch {
  before : jsstring;
  expansion : jsstring;
  matched : nat;
  from : jsstring;
}.

(** The leftmost match in [s], tried at every index up to the end. *)
Fixpoint exec (m : matcher) (s : jsstring) : option Match :=
  match m s with
  | Some (rep, n) => Some (mkMatch [] rep n s)
  | None =>
      match s with
      | [] => None
      | c :: tl =>
          match exec m tl with
          | Some r => Some (mkMatch (c :: before r) (expansion r) (matched r) (from r))
          | None => None
          end
      end
  end.

(** The loop of [s.replace(/re/g, template)]: one iteration for each
    match. *)
Fixpoint replaceGlobal (fuel : nat) (m : matcher) (s : jsstring)
  : Completion jsstring :=
  match fuel with
  | O => Unfinished
  | S k =>
      match exec m s with
      | None => Normal s
      | Some r =>
          let rest :=
            match matched r with
            | O =>
                (* an empty match: lastIndex moves on by one unit *)
                match from r with
                | [] => Normal []
                | c :: tl => andThen (replaceGlobal k m tl) (fun out => Normal (c :: out))
                end
            | S _ => replaceGlobal k m (skipn (matched r) (from r))
            end in
          andThen rest (fun out => Normal (before r ++ expansion r ++ out))
      end
  end.

(** [s.replace(/re/, template)]: one call of [exec], no loop. *)
Definition replaceOnce (m : matcher) (s : jsstring) : jsstring :=
  match exec m s with
  | None => s
  | Some r => before r ++ expansion r ++ skipn (matched r) (from r)
  end.

(** [parseExpression(expr)], line by line. *)
Definition parseExpression (fuel : nat) (expr : JsValue) : Completion JsValue :=
  match expr with
  | JsString s =>
      let parsed := trim s in
      andThen (replaceGlobal fuel reCaret parsed) (fun parsed =>
      andThen (replaceGlobal fuel reDigitLetter parsed) (fun parsed =>
      andThen (replaceGlobal fuel reCloseAlnum parsed) (fun parsed =>
      andThen (replaceGlobal fuel reDigitOpen parsed) (fun parsed =>
      andThen (replaceGlobal fuel reCloseOpen parsed) (fun parsed =>
      andThen (replaceGlobal fuel reSpaces parsed) (fun parsed =>
      Normal (JsString
                (if includes equals parsed
                 then replaceOnce reEquals parsed ++ [rparen]
                 else parsed))))))))
  | other => Normal other     (* if (typeof expr !== "string") return expr; *)
  end.

End Operational.

(* ================================================================== *)
(** * Numbers *)
(* ================================================================== *)

Module Float.

Local Open Scope Z_scope.

(** IEEE binary64, the number type of JavaScript, of Python's [float] and
    of NumPy's [float64]. *)
Definition float := spec_float.

Definition prec := 53.
Definition emax := 1024.

Definition add : float -> float -> float := SFadd prec emax.
Definition sub : float -> float -> float := SFsub prec emax.
Definition mul : float -> float -> float := SFmul prec emax.
Definition div : float -> float -> float := SFdiv prec emax.
Definition eqb : float -> float -> bool := SFeqb.
Definition ltb : float -> float -> bool := SFltb.

(** The float nearest to an integer. *)
Definition ofZ (z : Z) : float := binary_normalize prec emax z 0 false.

Definition isNaN (x : float) : bool :=
  match x with S754_nan => true | _ => false end.

(** JavaScript's global [isFinite] on a number; Python's [math.isfinite]. *)
Definition isFinite (x : float) : bool :=
  match x with
  | S754_zero _ | S754_finite _ _ _ => true
  | S754_infinity _ | S754_nan => false
  end.

End Float.

Import Float.

(* ================================================================== *)
(** * The algebra engine *)
(* ================================================================== *)

Module Engine.

(** A Python exception: whether it is an instance of [Exception] (what an
    [except Exception] clause catches) and what [str(e)] gives. *)
Record PyExc := mkPyExc { isException : bool; excStr : jsstring }.

Inductive PyResult (A : Type) :=
| PyOk (a : A)
| PyRaise (e : PyExc).

Arguments PyOk {A} a.
Arguments PyRaise {A} e.

(** The actions of the bridge: the eight command bodies that call SymPy. *)
Inductive Action :=
| Solve | SolveNumeric | Evaluate | Factor | Diff | Integrate | Simplify | Expand.

(** One entry of the value a lambdified function returns, as the loop
    [for v in ys_raw: try: ys.append(float(v))] sees it: [float(v)] either
    gives a float or raises. *)
Inductive PyVal :=
| PyReal (y : float)
| PyNonReal.

(** What [f(xs)] is for [f = lambdify(x, expr, "numpy")] and an array [xs]. *)
Inductive Lambdified :=
| Elementwise (g : float -> PyVal)   (* one real function of x, applied entry by entry *)
| Scalar (v : PyVal)                 (* an expression without x: not an array *)
| Sequence (vs : list PyVal)         (* a tuple or list valued expression *)
| Faulty (e : PyExc).                (* the call raises, e.g. another free symbol *)

(** The engine as the script sees it.  [Raw] is what [toJs()] makes of a
    SymPy object. *)
Record Engine := mkEngine {
  Expr : Type;
  Raw : Type;
  (** [sympify(user_expr, locals={'x': x})] *)
  sympify : jsstring -> PyResult Expr;
  (** the right-hand side of [result_str = latex(...)] of an action *)
  actionLatex : Action -> Expr -> PyResult jsstring;
  (** the right-hand side of [result_raw = ...] of an action (later revision) *)
  actionRaw : Action -> Expr -> PyResult Raw;
  (** [lambdify(x, expr, "numpy")] *)
  lambdify : Expr -> Lambdified;
  (** What Python makes of the whole program when the command spliced into
      it is not plain text of a string literal (see [plainLiteral]). *)
  spliced : jsstring -> jsstring -> PyResult jsstring;
}.

End Engine.

Export Engine.

(* ================================================================== *)
(** * Shared state and outcomes of the asynchronous functions *)
(* ================================================================== *)

(** What a rejected promise carries. *)
Inductive JsError :=
| NotReady                     (* new Error("Pyodide not ready") *)
| PythonError (e : PyExc)      (* runPythonAsync rejects with the engine's exception *)
| SyntaxError.                 (* JSON.parse *)

Inductive Outcome (A : Type) :=
| Return (a : A)
| Throw (e : JsError).

Arguments Return {A} a.
Arguments Throw {A} e.

(** The global flag [pyodideReady] and the binding of [user_expr] in
    [pyodide.globals]. *)
Record State := mkState {
  pyodideReady : bool;
  user_expr : option jsstring;
}.

Definition globalsSet (v : jsstring) (st : State) : State :=
  mkState (pyodideReady st) (Some v).

(** [try { pyodide.globals.del("user_expr"); } catch (e) { }].  The proxy
    [pyodide.globals] of Pyodide v0.24.1, the version the script loads, has
    a method [delete] and none called [del]: the call throws a [TypeError],
    the empty [catch] swallows it, and the binding stays. *)
Definition globalsDel (st : State) : State := st.

(** [await pyodide.runPythonAsync(code)]. *)
Definition runPythonAsync {A} (r : PyResult A) : Outcome A :=
  match r with
  | PyOk a => Return a
  | PyRaise e => Throw (PythonError e)
  end.

(* ================================================================== *)
(** * The algebra bridge: [runSympyCommand] *)
(* ================================================================== *)

Module Bridge.

Local Open Scope N_scope.

(** [===] on two strings. *)
Fixpoint streq (a b : jsstring) : bool :=
  match a, b with
  | [], [] => true
  | x :: a', y :: b' => (x =? y) && streq a' b'
  | _, _ => false
  end.

(** The branch of the [switch (command)] that assigns [commandBody]. *)
Inductive Body :=
| BAction (a : Action)
| BGraph
| BUnknown (command : jsstring).

Definition switchBody (command : jsstring) : Body :=
  if streq command (js "solve") then BAction Solve
  else if streq command (js "solvenumeric") then BAction SolveNumeric
  else if streq command (js "evaluate") then BAction Evaluate
  else if streq command (js "factor") then BAction Factor
  else if streq command (js "diff") then BAction Diff
  else if streq command (js "integrate") then BAction Integrate
  else if streq command (js "simplify") then BAction Simplify
  else if streq command (js "expand") then BAction Expand
  else if streq command (js "graph") then BGraph
  else BUnknown command.

(** The default branch splices the command into a Python string literal,
    [result_str = "Unknown command: ${command}"].  The literal denotes the
    spliced text when that text is printable ASCII without a double quote
    or a backslash; for other commands the program is whatever Python
    reads there. *)
Definition plainLiteral (command : jsstring) : bool :=
  forallb (fun c => between 32 126 c && negb (c =? dquote) && negb (c =? backslash))
          command.

Definition nameError : PyExc :=
  mkPyExc true (js "name 'user_expr' is not defined").

Section WithEngine.

Variable eng : Engine.

(** ** [src/maths.js] *)

(** The statements of [commandBody], run with [expr] bound. *)
Definition runBody (b : Body) (expr : Expr eng) : PyResult jsstring :=
  match b with
  | BAction a => actionLatex eng a expr
  | BGraph => PyOk (js "GRAPH_COMMAND")
  | BUnknown command => PyOk (js "Unknown command: " ++ command)
  end.

(** [try: <body> except Exception as e: result_str = "Error: " + str(e)] *)
Definition tryExcept (body : PyResult jsstring) : PyResult jsstring :=
  match body with
  | PyOk s => PyOk s
  | PyRaise e =>
      if isException e then PyOk (js "Error: " ++ excStr e) else PyRaise e
  end.

(** The Python program [code]: [sympify] runs before the [try]. *)
Definition pyCode (b : Body) (st : State) : PyResult jsstring :=
  match user_expr st with
  | None => PyRaise nameError
  | Some u =>
      match sympify eng u with
      | PyRaise e => PyRaise e
      | PyOk expr => tryExcept (runBody b expr)
      end
  end.

Definition runCode (command : jsstring) (st : State) : PyResult jsstring :=
  match switchBody command with
  | BUnknown c =>
      if plainLiteral c then pyCode (BUnknown c) st
      else match user_expr st with
           | Some u => spliced eng c u
           | None => PyRaise nameError
           end
  | b => pyCode b st
  end.

(** [runSympyCommand(exprParsed, command)]: the outcome of the promise and
    the state it leaves. *)
Definition runSympyCommand (st : State) (exprParsed command : jsstring)
  : Outcome jsstring * State :=
  if negb (pyodideReady st) then (Throw NotReady, st)
  else
    let st1 := globalsSet exprParsed st in
    (* try { return await runPythonAsync(code) } finally { globals.del } *)
    (runPythonAsync (runCode command st1), globalsDel st1).

End WithEngine.

End Bridge.

Export Bridge.

(** ** The later revision of the script

    [runSympyCommand] also computes [result_raw] and returns the object
    [{ resultStr, resultRaw }]. *)
Module Revised.

Inductive RawValue (R : Type) :=
| RawText (s : jsstring)
| RawObject (r : R).

Arguments RawText {R} s.
Arguments RawObject {R} r.

Record Result (R : Type) := mkResult {
  resultStr : jsstring;
  resultRaw : RawValue R;
}.

Section WithEngine.

Variable eng : Engine.

(** What Python makes of this revision's program for a command that is not
    plain text of a literal. *)
Variable splicedRaw : jsstring -> jsstring -> PyResult (jsstring * RawValue (Raw eng)).

Definition runBody (b : Body) (expr : Expr eng)
  : PyResult (jsstring * RawValue (Raw eng)) :=
  match b with
  | BAction a =>
      match actionLatex eng a expr with
      | PyRaise e => PyRaise e
      | PyOk s =>
          match actionRaw eng a expr with
          | PyRaise e => PyRaise e
          | PyOk r => PyOk (s, RawObject r)
          end
      end
  | BGraph => PyOk (js "GRAPH_COMMAND", RawText (js "GRAPH_COMMAND"))
  | BUnknown command =>
      PyOk (js "Unknown command: " ++ command, RawText (js "Unknown command"))
  end.

Definition tryExcept (body : PyResult (jsstring * RawValue (Raw eng)))
  : PyResult (jsstring * RawValue (Raw eng)) :=
  match body with
  | PyOk r => PyOk r
  | PyRaise e =>
      if isException e
      then PyOk (js "Error: " ++ excStr e, RawText (js "Error"))
      else PyRaise e
  end.

Definition pyCode (b : Body) (st : State)
  : PyResult (jsstring * RawValue (Raw eng)) :=
  match user_expr st with
  | None => PyRaise nameError
  | Some u =>
      match sympify eng u with
      | PyRaise e => PyRaise e
      | PyOk expr => tryExcept (runBody b expr)
      end
  end.

Definition runCode (command : jsstring) (st : State)
  : PyResult (jsstring * RawValue (Raw eng)) :=
  match switchBody command with
  | BUnknown c =>
      if plainLiteral c then pyCode (BUnknown c) st
      else match user_expr st with
           | Some u => splicedRaw c u
           | None => PyRaise nameError
           end
  | b => pyCode b st
  end.

Definition runSympyCommand (st : State) (exprParsed command : jsstring)
  : Outcome (Result (Raw eng)) * State :=
  if negb (pyodideReady st) then (Throw NotReady, st)
  else
    let st1 := globalsSet exprParsed st in
    let out :=
      match runPythonAsync (runCode command st1) with
      | Return (s, r) => Return (mkResult s r)   (* let [resultStr, resultRaw] = result.toJs() *)
      | Throw e => Throw e
      end in
    (out, globalsDel st1).

End WithEngine.

End Revised.

(* ================================================================== *)
(** * The dispatcher: the routing of [doMaths] *)
(* ================================================================== *)

Module Dispatcher.

Inductive Path := SamplerPath | BridgePath.

(** [(document.getElementById("command") || {}).value || "solve"]: a
    missing element or an empty value selects [solve]. *)
Definition selectedCommand (value : option jsstring) : jsstring :=
  match value with
  | Some (c :: v) => c :: v
  | _ => js "solve"
  end.

(** [if (command === "graph") plotExpression(...) else runSympyCommand(...)] *)
Definition route (command : jsstring) : Path :=
  if streq command (js "graph") then SamplerPath else BridgePath.

(** [result.startsWith("Error:")], the test by which [doMaths] tells an
    engine error from a result to typeset. *)
Fixpoint startsWith (p s : jsstring) : bool :=
  match p, s with
  | [], _ => true
  | x :: p', y :: s' => N.eqb x y && startsWith p' s'
  | _ :: _, [] => false
  end.

End Dispatcher.

Export Dispatcher.

(* ================================================================== *)
(** * The sampler: [computeXYWithPyodide] *)
(* ================================================================== *)

Module Sampler.

Local Open Scope Z_scope.

(** ** The Python side *)

Definition valueError : PyExc :=
  mkPyExc true (js "Number of samples must be non-negative.").

Definition notIterable : PyExc :=
  mkPyExc true (js "object is not iterable").

Definition undefinedName : PyExc :=
  mkPyExc true (js "name is not defined").

(** A JavaScript number spliced into the program by [${...}] and read back
    by Python: a finite number keeps its value (minus zero prints as [0]);
    [NaN] and [Infinity] print as names that Python does not know. *)
Definition pyNumber (v : float) : PyResult float :=
  match v with
  | S754_zero _ => PyOk (S754_zero false)
  | S754_finite _ _ _ => PyOk v
  | S754_infinity _ | S754_nan => PyRaise undefinedName
  end.

(** [arange(0, num)] as floats. *)
Definition arange (num : Z) : list float :=
  List.map (fun i => ofZ (Z.of_nat i)) (seq 0 (Z.to_nat num)).

(** [y[-1] = stop] *)
Fixpoint setLast (y : list float) (stop : float) : list float :=
  match y with
  | [] => []
  | [_] => [stop]
  | v :: tl => v :: setLast tl stop
  end.

(** [numpy.linspace(start, stop, num)] with its default [endpoint=True],
    as NumPy 1.25 computes it for scalar bounds. *)
Definition linspace (start stop : float) (num : Z) : PyResult (list float) :=
  if num <? 0 then PyRaise valueError
  else
    let div := num - 1 in
    let delta := sub stop start in
    let y := arange num in
    let y :=
      if 0 <? div then
        let step := Float.div delta (ofZ div) in
        if eqb step (S754_zero false)
        then List.map (fun v => mul (Float.div v (ofZ div)) delta) y
        else List.map (fun v => mul v step) y
      else List.map (fun v => mul v delta) y in
    let y := List.map (fun v => add v start) y in
    PyOk (if 1 <? num then setLast y stop else y).

(** [ys_raw = f(xs)] and the iteration [for v in ys_raw]. *)
Definition applyLambdified (f : Lambdified) (xs : list float)
  : PyResult (list PyVal) :=
  match f with
  | Elementwise g => PyOk (List.map g xs)
  | Scalar _ => PyRaise notIterable
  | Sequence vs => PyOk vs
  | Faulty e => PyRaise e
  end.

(** [try: ys.append(float(v)) except Exception: ys.append(None)] *)
Definition floatOrNone (v : PyVal) : option float :=
  match v with
  | PyReal y => Some y
  | PyNonReal => None
  end.

(** ** The JSON text between the two sides

    [json.dumps] writes a finite float as a decimal literal that reads back
    as the same float, and writes the other floats as the barewords
    [NaN], [Infinity] and [-Infinity], which are not JSON. *)
Inductive JsonNumber :=
| Literal (v : float)
| Bareword (w : jsstring).

Inductive JsonEntry :=
| Num (n : JsonNumber)
| Null.

(** The text of [{"xs": [...], "ys": [...]}]. *)
Record JsonText := mkJsonText {
  txs : list JsonNumber;
  tys : list JsonEntry;
}.

Definition dumpsFloat (v : float) : JsonNumber :=
  match v with
  | S754_nan => Bareword (js "NaN")
  | S754_infinity false => Bareword (js "Infinity")
  | S754_infinity true => Bareword (js "-Infinity")
  | _ => Literal v
  end.

Definition dumpsEntry (v : option float) : JsonEntry :=
  match v with
  | Some y => Num (dumpsFloat y)
  | None => Null
  end.

(** [json.dumps({'xs': xs.tolist(), 'ys': ys})] *)
Definition dumps (xs : list float) (ys : list (option float)) : JsonText :=
  mkJsonText (List.map dumpsFloat xs) (List.map dumpsEntry ys).

Section WithEngine.

Variable eng : Engine.

(** The Python program [pyCode]. *)
Definition pyCode (st : State) (xMin xMax : float) (points : Z)
  : PyResult JsonText :=
  match user_expr st with
  | None => PyRaise nameError
  | Some u =>
      match sympify eng u with
      | PyRaise e => PyRaise e
      | PyOk expr =>
          let f := lambdify eng expr in
          match pyNumber xMin with
          | PyRaise e => PyRaise e
          | PyOk lo =>
              match pyNumber xMax with
              | PyRaise e => PyRaise e
              | PyOk hi =>
                  match linspace lo hi points with
                  | PyRaise e => PyRaise e
                  | PyOk xs =>
                      match applyLambdified f xs with
                      | PyRaise e => PyRaise e
                      | PyOk ys_raw =>
                          PyOk (dumps xs (List.map floatOrNone ys_raw))
                      end
                  end
              end
          end
      end
  end.

End WithEngine.

(** ** The JavaScript side *)

(** The object [JSON.parse] builds, and the one the function returns. *)
Record XY := mkXY {
  xs : list float;
  ys : list (option float);
}.

Definition parseNumber (n : JsonNumber) : option float :=
  match n with
  | Literal v => Some v
  | Bareword _ => None          (* SyntaxError *)
  end.

Definition parseEntry (e : JsonEntry) : option (option float) :=
  match e with
  | Num n => option_map Some (parseNumber n)
  | Null => Some None
  end.

(** Parsing the entries of an array; [None] when one of them is refused. *)
Fixpoint parseArray {A B} (f : A -> option B) (l : list A) : option (list B) :=
  match l with
  | [] => Some []
  | a :: tl =>
      match f a, parseArray f tl with
      | Some b, Some r => Some (b :: r)
      | _, _ => None
      end
  end.

(** [JSON.parse(jsonStr)] *)
Definition JSON_parse (t : JsonText) : option XY :=
  match parseArray parseNumber (txs t), parseArray parseEntry (tys t) with
  | Some x, Some y => Some (mkXY x y)
  | _, _ => None
  end.

(** The callback of [obj.ys.map]: [null], [NaN] and the infinities become
    [null]. *)
Definition sanitize (v : option float) : option float :=
  match v with
  | None => None
  | Some n => if negb (isFinite n) || isNaN n then None else Some n
  end.

Section WithEngine.

Variable eng : Engine.

(** [computeXYWithPyodide(exprParsed, xMin, xMax, points)], the same in
    both revisions of the script. *)
Definition computeXYWithPyodide (st : State) (exprParsed : jsstring)
    (xMin xMax : float) (points : Z) : Outcome XY * State :=
  if negb (pyodideReady st) then (Throw NotReady, st)
  else
    let st1 := globalsSet exprParsed st in
    let out :=
      match runPythonAsync (pyCode eng st1 xMin xMax points) with
      | Throw e => Throw e
      | Return jsonStr =>
          match JSON_parse jsonStr with
          | None => Throw SyntaxError
          | Some obj => Return (mkXY (xs obj) (List.map sanitize (ys obj)))
          end
      end in
    (out, globalsDel st1).

End WithEngine.

(** The arguments [plotExpression] passes, and the defaults of the
    parameters. *)
Definition plotMin : float := ofZ (-10).
Definition plotMax : float := ofZ 10.
Definition plotPoints : Z := 600.
Definition defaultPoints : Z := 400.

End Sampler.

Export Sampler.

(* ================================================================== *)
(** * A small engine to run the model on concrete inputs *)
(* ================================================================== *)

Module Stub.

Local Open Scope N_scope.

(** The nesting depth after reading [s] from depth [d]; [None] when a
    closing parenthesis has no partner. *)
Fixpoint parenDepth (s : jsstring) (d : nat) : option nat :=
  match s with
  | [] => Some d
  | c :: tl =>
      if c =? lparen then parenDepth tl (S d)
      else if c =? rparen then
        match d with
        | O => None
        | S k => parenDepth tl k
        end
      else parenDepth tl d
  end.

Definition balanced (s : jsstring) : bool :=
  match parenDepth s O with
  | Some O => true
  | _ => false
  end.

Definition sympifyError : PyExc :=
  mkPyExc true (js "Sympify of expression 'could not parse' failed").

Definition pythonSyntaxError : PyExc :=
  mkPyExc true (js "invalid syntax").

(** What NumPy computes for the expression [1/x]: the IEEE quotient, which
    at zero is an infinity. *)
Definition reciprocal (x : float) : PyVal := PyReal (Float.div (ofZ 1) x).

(** An engine that agrees with SymPy on the inputs of the examples below:
    text with unbalanced parentheses does not parse; [x] and [1/x] denote
    the identity and the reciprocal; the actions answer with the text of
    the expression. *)
Definition engine : Engine :=
  {| Expr := jsstring;
     Raw := jsstring;
     sympify := fun u => if balanced u then PyOk u else PyRaise sympifyError;
     actionLatex := fun _ e => PyOk e;
     actionRaw := fun _ e => PyOk e;
     lambdify := fun e =>
       if streq e (js "1/x") then Elementwise reciprocal
       else if streq e (js "x") then Elementwise PyReal
       else Scalar (PyReal (ofZ 0));
     spliced := fun _ _ => PyRaise pythonSyntaxError |}.

Definition splicedRaw (c u : jsstring)
  : PyResult (jsstring * Revised.RawValue jsstring) :=
  PyRaise pythonSyntaxError.

(** The engine has loaded; nothing is bound. *)
Definition ready : State := mkState true None.

(** The engine is still loading. *)
Definition loading : State := mkState false None.

End Stub.

(* ================================================================== *)
(** * Vocabulary of the properties *)
(* ================================================================== *)

(** The command enumeration as the specification spells it. *)
Definition spec_command_enumeration : list jsstring :=
  [js "solve"; js "solve-numeric"; js "evaluate"; js "factor";
   js "differentiate"; js "integrate"; js "simplify"; js "expand"; js "graph"].

(** The identifiers the [switch] of [runSympyCommand] has a [case] for. *)
Definition switch_cases : list jsstring :=
  [js "solve"; js "solvenumeric"; js "evaluate"; js "factor";
   js "diff"; js "integrate"; js "simplify"; js "expand"; js "graph"].

(** [xs] read as numbers is strictly increasing. *)
Fixpoint increasing (l : list float) : bool :=
  match l with
  | a :: (b :: _) as tl => Float.ltb a b && increasing tl
  | _ => true
  end.

(** 1 and the next double after it. *)
Definition one : float := ofZ 1.
Definition oneNext : float := S754_finite false 4503599627370497 (-52).

(** An entry of [ys] may also be [null]. *)
Definition finiteOrNull (v : option float) : bool :=
  match v with
  | Some y => isFinite y
  | None => true
  end.

(** ** Numbers on a binary grid *)

(** The double [z * 2^q]. *)
Definition dyadic (z q : Z) : float := binary_normalize prec emax z q false.

(** The number of binary digits of a mantissa. *)
Definition digits (p : positive) : Z := Zpos (digits2_pos p).

(** The normal form of the double [p * 2^q] with sign [s]: the mantissa is
    shifted to 53 digits. *)
Definition normal (s : bool) (p : positive) (q : Z) : float :=
  S754_finite s (Z.to_pos (Zpos p * 2 ^ (53 - digits p))) (q - (53 - digits p)).

(** The exponents of the grid for which the arithmetic below stays clear
    of underflow and overflow. *)
Definition gridExponent (q : Z) : Prop := (-900 <= q <= 900)%Z.

(** [n] points from [a * 2^q] to [b * 2^q] at equal distances, all of them
    on the grid of the multiples of [2^q] below [2^53 * 2^q]. *)
Definition onGrid (a b q n : Z) : Prop :=
  gridExponent q
  /\ (- 2 ^ 52 < a)%Z /\ (a < b)%Z /\ (b < 2 ^ 52)%Z
  /\ (2 <= n)%Z /\ ((n - 1) | (b - a))%Z.

(** The points themselves: [a * 2^q] and on from it in [n - 1] equal steps
    up to [b * 2^q]. *)
Definition gridSamples (a b q n : Z) : list float :=
  List.map (fun i => dyadic (a + Z.of_nat i * ((b - a) / (n - 1))) q)
           (seq 0 (Z.to_nat n)).

(** A pattern consumes at least one unit and no more than there is. *)
Definition consuming (m : matcher) : Prop :=
  forall s rep n, m s = Some (rep, n) -> (1 <= n <= length s)%nat.

(** The expansion of a match is at most twice as long as the match. *)
Definition doubling (m : matcher) : Prop :=
  forall s rep n, m s = Some (rep, n) -> (length rep <= 2 * n)%nat.

(** A selection of code units that looks at none of the units the rewrite
    steps insert or remove: white space, [*] and [^]. *)
Definition blindToMarks (keep : char -> bool) : Prop :=
  keep star = false /\ keep caret = false
  /\ forall c, isWs c = true -> keep c = false.

(** The expansion of a match selects what the match itself selects. *)
Definition respects (keep : char -> bool) (m : matcher) : Prop :=
  forall s rep n, m s = Some (rep, n) ->
    filter keep rep = filter keep (firstn n s).

(** Lines 21 to 25 of [parseExpression] in one piece. *)
Definition insertMarks (s : jsstring) : jsstring :=
  replaceAll reCloseOpen
    (replaceAll reDigitOpen
       (replaceAll reCloseAlnum
          (replaceAll reDigitLetter (replaceAll reCaret s)))).

(** How often a code unit occurs. *)
Definition occurrences (c : char) (s : jsstring) : nat :=
  length (filter (N.eqb c) s).

(* ================================================================== *)
(** * Implicit-multiplication sites *)
(* ================================================================== *)

Module Sites.

Local Open Scope N_scope.

Definition headIs (P : char -> bool) (l : jsstring) : bool :=
  match l with
  | c :: _ => P c
  | [] => false
  end.

(** The first unit after any white space. *)
Definition nextIs (P : char -> bool) (l : jsstring) : bool :=
  headIs P (dropWs l).

Definition isOpen (c : char) : bool := c =? lparen.

(** What the patterns of lines 22 to 25 look at to the right of a unit:
    whether a letter follows at once, and whether the first unit after
    optional white space is a letter or digit, or an opening parenthesis. *)
Definition context (l : jsstring) : bool * bool * bool :=
  (headIs isLetter l, nextIs isAlnum l, nextIs isOpen l).

(** The four kinds of site, one for each of lines 22 to 25. *)
Inductive Kind := DigitLetter | CloseAlnum | DigitOpen | CloseOpen.

(** A unit [c] with the text [l] to its right is the left end of a site. *)
Definition siteAt (k : Kind) (c : char) (x : bool * bool * bool) : bool :=
  let '(letter, alnum, open) := x in
  match k with
  | DigitLetter => isDigit c && letter
  | CloseAlnum => (c =? rparen) && alnum
  | DigitOpen => isDigit c && open
  | CloseOpen => (c =? rparen) && open
  end.

Fixpoint countSites (k : Kind) (s : jsstring) : nat :=
  match s with
  | [] => O
  | c :: tl => ((if siteAt k c (context tl) then 1 else 0) + countSites k tl)%nat
  end.

(** The implicit-multiplication sites of a string. *)
Definition sites (s : jsstring) : nat :=
  (countSites DigitLetter s + countSites CloseAlnum s
   + countSites DigitOpen s + countSites CloseOpen s)%nat.

End Sites.

Export Sites.

(** The kinds of site a line of [parseExpression] is there to mark. *)
Definition ownDigitLetter (k : Kind) : bool :=
  match k with DigitLetter => true | _ => false end.

Definition ownCloseAlnum (k : Kind) : bool :=
  match k with CloseAlnum => true | _ => false end.

Definition ownDigitOpen (k : Kind) : bool :=
  match k with DigitOpen => true | _ => false end.

Definition ownCloseOpen (k : Kind) : bool :=
  match k with CloseOpen => true | _ => false end.

Definition ownNone (k : Kind) : bool := false.

(* ================================================================== *)
(** * Engine-acceptable form *)
(* ================================================================== *)

Module Acceptable.

(** Every white-space unit is a single space with text on its right. *)
Fixpoint tidy (s : jsstring) : bool :=
  match s with
  | [] => true
  | c :: tl =>
      (if isWs c
       then N.eqb c space && headIs (fun d => negb (isWs d)) tl
       else true)
      && tidy tl
  end.

(** The last unit, if there is one, is not white space. *)
Fixpoint endsSolid (s : jsstring) : bool :=
  match s with
  | [] => true
  | [c] => negb (isWs c)
  | _ :: tl => endsSolid tl
  end.

(** Whether a string starts with white space, with text, or is empty. *)
Definition headWs (s : jsstring) : option bool := option_map isWs (hd_error s).

(** No redundant white space: none at either end, and between two pieces
    of text at most one space. *)
Definition singleSpaced (s : jsstring) : bool :=
  negb (headIs isWs s) && tidy s.

(** The form the engine accepts: no [^], no [=], no implicit
    multiplication, no redundant white space. *)
Definition acceptable (s : jsstring) : Prop :=
  ~ In caret s /\ ~ In equals s /\ sites s = O /\ singleSpaced s = true.

End Acceptable.

Export Acceptable.

(* ================================================================== *)
(** * The page: [ensurePlotlyLoaded], [plotExpression] and [doMaths] *)
(* ================================================================== *)

Module Page.

Local Open Scope Z_scope.

(** ** Waiting for Plotly: [ensurePlotlyLoaded]

    The callback given to [setInterval] runs at ticks.  At each tick it
    reads [window.Plotly] and then [Date.now() - start]. *)
Record Tick := mkTick {
  plotlyPresent : bool;
  elapsed : Z;
}.

(** The state of the promise once the ticks at hand have run. *)
Inductive Promise := Resolved | Rejected | Pending.

(** The interval callback, tick after tick, until it clears the interval. *)
Fixpoint poll (timeoutMs : Z) (ticks : list Tick) : Promise :=
  match ticks with
  | [] => Pending
  | t :: tl =>
      if plotlyPresent t then Resolved
      else if timeoutMs <? elapsed t then Rejected
      else poll timeoutMs tl
  end.

(** [ensurePlotlyLoaded(timeoutMs)]; [present] is [window.Plotly] at the
    call. *)
Definition ensurePlotlyLoaded (timeoutMs : Z) (present : bool)
    (ticks : list Tick) : Promise :=
  if present then Resolved else poll timeoutMs ticks.

Definition defaultTimeoutMs : Z := 7000.

(** ** What Plotly is given *)

(** The trace [{x: obj.xs, y: obj.ys, name: exprParsed, ...}] and the title
    of the layout; the other fields are constants. *)
Record Figure := mkFigure {
  traceData : XY;
  traceName : jsstring;
  layoutTitle : jsstring;
}.

(** The two configurations [Plotly.newPlot] is called with. *)
Inductive Config :=
| Toolbar            (* [config], line 235 *)
| ResponsiveOnly.    (* [{ responsive: true }], line 219 *)

(** What the browser contributes: when Plotly arrives, and whether
    [Plotly.newPlot] draws ([true]) or throws. *)
Record Browser := mkBrowser {
  plotlyAtCall : bool;
  ticks : list Tick;
  newPlot : Config -> Figure -> bool;
}.

(** ** The elements the script reads and writes *)

(** What was last assigned to [#output]. *)
Inductive Content :=
| InnerText (s : jsstring)
| InnerHTML (s : jsstring).

(** [#graph]: [style.height] and the figure inside; [plot = None] stands
    for [innerHTML = ""]. *)
Record GraphDiv := mkGraphDiv {
  height : jsstring;
  plot : option Figure;
}.

Inductive When :=
| NextFrame          (* requestAnimationFrame *)
| After (ms : Z).    (* setTimeout *)

(** The callbacks the script schedules. *)
Inductive Task :=
| ClearGraph               (* graphDiv.innerHTML = "" *)
| ExpandGraph (fig : Figure)    (* the callback of line 213 *)
| RenderGraph (fig : Figure).   (* the callback of line 217 *)

(** An element that is missing from the document is [None]. *)
Record Dom := mkDom {
  boxValue : option jsstring;       (* the value of #box *)
  commandValue : option jsstring;   (* the value of #command *)
  outputDiv : option Content;
  graphDiv : option GraphDiv;
  alerts : list jsstring;           (* the messages of alert(...) *)
  consoleErrors : list jsstring;    (* the labels of console.error(...) *)
  timers : list (When * Task);      (* callbacks scheduled and not yet run *)
}.

(** [if (outputDiv) outputDiv.innerText = ...] and the like. *)
Definition setOutput (c : Content) (d : Dom) : Dom :=
  match outputDiv d with
  | Some _ =>
      mkDom (boxValue d) (commandValue d) (Some c) (graphDiv d)
            (alerts d) (consoleErrors d) (timers d)
  | None => d
  end.

(** Assignments to [graphDiv], where it is known to exist. *)
Definition setGraph (g : GraphDiv) (d : Dom) : Dom :=
  mkDom (boxValue d) (commandValue d) (outputDiv d) (Some g)
        (alerts d) (consoleErrors d) (timers d).

Definition alert (m : jsstring) (d : Dom) : Dom :=
  mkDom (boxValue d) (commandValue d) (outputDiv d) (graphDiv d)
        (alerts d ++ [m]) (consoleErrors d) (timers d).

Definition consoleError (label : jsstring) (d : Dom) : Dom :=
  mkDom (boxValue d) (commandValue d) (outputDiv d) (graphDiv d)
        (alerts d) (consoleErrors d ++ [label]) (timers d).

Definition schedule (w : When) (t : Task) (d : Dom) : Dom :=
  mkDom (boxValue d) (commandValue d) (outputDiv d) (graphDiv d)
        (alerts d) (consoleErrors d) (timers d ++ [(w, t)]).

(** [graphDiv.style.height = "1px"; graphDiv.innerHTML = "";] *)
Definition collapsed : GraphDiv := mkGraphDiv (js "1px") None.

(** ** The messages *)

Definition msgNoContainer : jsstring := js "Plot container missing in DOM.".
Definition msgNoPlotly : jsstring := js "Plotly failed to load.".
Definition msgGenerating : jsstring := js "Generating graph - please wait...".
Definition msgCouldNotGraph : jsstring :=
  js "Could not graph the equation. Make sure that your function only contains Xs, no other variables! (all graphs automatically make y equal the function) (see console for more info)".
Definition msgNonReal : jsstring :=
  js "Function evaluates to non-real values on this range.".
Definition msgGraphDone : jsstring := js "Graph generated below.".
Definition msgRenderError : jsstring := js "A rendering error occured (see console).".
Definition msgStillLoading : jsstring :=
  js "The calculator is still loading. Please wait.".
Definition msgEnter : jsstring := js "Enter an equation!".
Definition msgComputing : jsstring := js "Computing - please wait...".
Definition msgError : jsstring :=
  js "An error occured. (see console for more details).".

(** [v !== null] *)
Definition notNull (v : option float) : bool :=
  match v with
  | Some _ => true
  | None => false
  end.

Section WithEngine.

Variable eng : Engine.
Variable br : Browser.

(** The figure built from the sample. *)
Definition figureOf (exprParsed : jsstring) (obj : XY) : Figure :=
  mkFigure obj exprParsed (js "Graph of " ++ exprParsed).

(** [plotExpression(exprParsed)]: what the promise is fulfilled with
    ([None] while [ensurePlotlyLoaded] is pending), the state of the engine
    and the page.  The object [JSON.parse] builds always has its two
    arrays, so the test of line 192 never fires. *)
Definition plotExpression (st : State) (d : Dom) (exprParsed : jsstring)
  : option bool * State * Dom :=
  match graphDiv d with
  | None =>
      (Some false, st,
       setOutput (InnerText msgNoContainer)
         (consoleError (js "Missing #graph element") d))
  | Some _ =>
      match ensurePlotlyLoaded defaultTimeoutMs (plotlyAtCall br) (ticks br) with
      | Pending => (None, st, d)
      | Rejected =>
          (Some false, st,
           setOutput (InnerText msgNoPlotly)
             (consoleError (js "Plotly not loaded:") d))
      | Resolved =>
          let d1 := setOutput (InnerText msgGenerating) d in
          match computeXYWithPyodide eng st exprParsed plotMin plotMax plotPoints with
          | (Throw _, st') =>
              (Some false, st',
               setGraph collapsed
                 (setOutput (InnerText msgCouldNotGraph)
                    (consoleError (js "computeXYWithPyodide error:") d1)))
          | (Return obj, st') =>
              let hasNumeric := existsb notNull (ys obj) in
              if negb hasNumeric
              then (Some false, st',
                    setGraph collapsed (setOutput (InnerText msgNonReal) d1))
              else
                let fig := figureOf exprParsed obj in
                let d2 := schedule NextFrame (ExpandGraph fig) (setGraph collapsed d1) in
                if newPlot br Toolbar fig
                then (Some true, st',
                      setOutput (InnerText msgGraphDone)
                        (setGraph (mkGraphDiv (js "1px") (Some fig)) d2))
                else (Some false, st',
                      setGraph (mkGraphDiv (js "400px") None)
                        (setOutput (InnerText msgRenderError)
                           (consoleError (js "Plotly.newPlot error:") d2)))
          end
      end
  end.

(** Running a scheduled callback on the page.  The callbacks close over a
    [graphDiv] that exists; an exception of [Plotly.newPlot] ends the
    callback of line 217 before it writes the message. *)
Definition fire (t : Task) (d : Dom) : Dom :=
  match graphDiv d with
  | None => d
  | Some g =>
      match t with
      | ClearGraph => setGraph (mkGraphDiv (height g) None) d
      | ExpandGraph fig =>
          schedule (After 450) (RenderGraph fig)
            (setGraph (mkGraphDiv (js "400px") (plot g)) d)
      | RenderGraph fig =>
          if newPlot br ResponsiveOnly fig
          then setOutput (InnerText msgGraphDone)
                 (setGraph (mkGraphDiv (height g) (Some fig)) d)
          else d
      end
  end.

(** [if (graphDiv && graphDiv.style.height !== "1px") {...}] *)
Definition collapseIfOpen (d : Dom) : Dom :=
  match graphDiv d with
  | Some g =>
      if streq (height g) (js "1px") then d
      else schedule (After 400) ClearGraph
             (setGraph (mkGraphDiv (js "1px") (plot g)) d)
  | None => d
  end.

(** [doMaths()]: the state of the engine and the page when the promise
    settles (or where it is suspended, while [ensurePlotlyLoaded] is
    pending).  The value of [#box] is a string, so [parseExpression] is
    [normalize] here; the typesetting by MathJax is not part of the
    page as modelled. *)
Definition doMaths (st : State) (d : Dom) : State * Dom :=
  if negb (pyodideReady st) then (st, alert msgStillLoading d)
  else
    let raw := match boxValue d with Some v => v | None => [] end in
    let exprRaw := trim raw in
    match exprRaw with
    | [] => (st, setOutput (InnerText msgEnter) d)
    | _ :: _ =>
        let exprParsed := normalize exprRaw in
        let command := selectedCommand (commandValue d) in
        match route command with
        | SamplerPath =>
            let '(_, st', d') := plotExpression st d exprParsed in (st', d')
        | BridgePath =>
            let d1 := collapseIfOpen d in
            let d2 := setOutput (InnerText msgComputing) d1 in
            match runSympyCommand eng st exprParsed command with
            | (Throw _, st') =>
                (st', setOutput (InnerText msgError)
                        (consoleError (js "doMaths error:") d2))
            | (Return result, st') =>
                if startsWith (js "Error:") result
                then (st', setOutput (InnerText result) d2)
                else (st', setOutput (InnerHTML (js "$$" ++ result ++ js "$$")) d2)
            end
        end
    end.

End WithEngine.

(** [loadPyodideAndPackages()]: the flag is set when the runtime and the
    packages have both loaded. *)
Definition loadPyodideAndPackages (runtime packages : bool) (st : State) : State :=
  mkState (runtime && packages) (user_expr st).

(** The script starts with [let pyodideReady = false]. *)
Definition initial : State := mkState false None.

End Page.

Export Page.

(* ================================================================== *)
(** * The theme switch of the later revision: [changeColour] *)
(* ================================================================== *)

Module Theme.

(** The [TypeError] of a property access on the [null] that
    [getElementById] returns for a missing element. *)
Inductive DomError :=
| NullElement (id : jsstring).

(** The global [dark] and the styles the function assigns; the four
    elements looked up by id may be missing. *)
Record ThemePage := mkThemePage {
  dark : bool;
  bodyBackground : jsstring;
  paragraphs : list jsstring;         (* style.color of each p *)
  labels : list jsstring;             (* style.color of each label *)
  themeButton : option jsstring;      (* innerHTML of #theme *)
  equationbox : option jsstring;      (* style.backgroundColor *)
  outputColor : option jsstring;      (* style.color of #output *)
  bannerSrc : option jsstring;        (* src of #banner *)
}.

(** One branch of [changeColour], statement by statement: the statements
    before a missing element have taken effect when the exception leaves
    the function, and the flag is assigned last. *)
Definition paint (bg fg caption boxBg src : jsstring) (flag : bool)
    (p : ThemePage) : option DomError * ThemePage :=
  let ps := List.map (fun _ => fg) (paragraphs p) in
  let ls := List.map (fun _ => fg) (labels p) in
  match themeButton p with
  | None =>
      (Some (NullElement (js "theme")),
       mkThemePage (dark p) bg ps ls None (equationbox p) (outputColor p) (bannerSrc p))
  | Some _ =>
      match equationbox p with
      | None =>
          (Some (NullElement (js "equationbox")),
           mkThemePage (dark p) bg ps ls (Some caption) None (outputColor p) (bannerSrc p))
      | Some _ =>
          match outputColor p with
          | None =>
              (Some (NullElement (js "output")),
               mkThemePage (dark p) bg ps ls (Some caption) (Some boxBg) None (bannerSrc p))
          | Some _ =>
              match bannerSrc p with
              | None =>
                  (Some (NullElement (js "banner")),
                   mkThemePage (dark p) bg ps ls (Some caption) (Some boxBg) (Some fg) None)
              | Some _ =>
                  (None,
                   mkThemePage flag bg ps ls (Some caption) (Some boxBg) (Some fg) (Some src))
              end
          end
      end
  end.

(** [changeColour()]: the exception it throws, if any, and the page. *)
Definition changeColour (p : ThemePage) : option DomError * ThemePage :=
  if negb (dark p)
  then paint (js "#222222") (js "white") (js "Light mode") (js "#333333")
             (js "images/banner_dark.png") true p
  else paint (js "#f0f0f0") (js "black") (js "Dark mode") (js "cornsilk")
             (js "images/banner.png") false p.

(** [n] calls in a row, exceptions caught by the event loop. *)
Fixpoint clicks (n : nat) (p : ThemePage) : ThemePage :=
  match n with
  | O => p
  | S k => clicks k (snd (changeColour p))
  end.

(** The four elements [changeColour] looks up by id are there. *)
Definition complete (p : ThemePage) : bool :=
  match themeButton p, equationbox p, outputColor p, bannerSrc p with
  | Some _, Some _, Some _, Some _ => true
  | _, _, _, _ => false
  end.

End Theme.

(* ================================================================== *)
(** * More vocabulary *)
(* ================================================================== *)

(** Selecting the code units that are neither white space nor [*] nor
    [^]. *)
Definition solid (c : char) : bool :=
  negb (isWs c) && negb (N.eqb c star) && negb (N.eqb c caret).

(** The grid [plotExpression] samples on: [linspace(-10, 10, 600)]. *)
Definition plotGrid : list float :=
  match linspace plotMin plotMax plotPoints with
  | PyOk l => l
  | PyRaise _ => []
  end.

(** The text in what the later revision of [runSympyCommand] settles
    with. *)
Definition textOf {R : Type} (o : Outcome (Revised.Result R)) : Outcome jsstring :=
  match o with
  | Return r => Return (Revised.resultStr r)
  | Throw e => Throw e
  end.

(** A tick at which [ensurePlotlyLoaded] goes on waiting. *)
Definition quiet (timeoutMs : Z) (t : Tick) : Prop :=
  plotlyPresent t = false /\ (elapsed t <= timeoutMs)%Z.

(** The box is missing, or holds white space only. *)
Definition blank (d : Dom) : bool :=
  match boxValue d with
  | None => true
  | Some v => forallb isWs v
  end.

(** A value the engine computed is a float that is not finite. *)
Definition nonFinite (v : PyVal) : bool := negb (finiteOrNull (floatOrNone v)).

(* ================================================================== *)
(** * A page and more engines to run the model on *)
(* ================================================================== *)

Module Demo.

(** What NumPy computes for [1/(x-10)]; at 10 it is an infinity. *)
Definition pole (x : float) : PyVal :=
  PyReal (Float.div (ofZ 1) (sub x (ofZ 10))).

(** An engine for the expression [1/(x-10)] and for one, written
    [opaque(x)] here, whose values are objects that [float()] refuses;
    integration raises an [Exception] and factoring something that is not
    one. *)
Definition engine : Engine :=
  {| Expr := jsstring;
     Raw := jsstring;
     sympify := fun u => if Stub.balanced u then PyOk u else PyRaise Stub.sympifyError;
     actionLatex := fun a e =>
       match a with
       | Integrate => PyRaise (mkPyExc true (js "cannot integrate"))
       | Factor => PyRaise (mkPyExc false (js "KeyboardInterrupt"))
       | _ => PyOk e
       end;
     actionRaw := fun _ e => PyOk e;
     lambdify := fun e =>
       if streq e (js "1/(x-10)") then Elementwise pole
       else if streq e (js "opaque(x)") then Elementwise (fun _ => PyNonReal)
       else Elementwise PyReal;
     spliced := fun _ _ => PyRaise Stub.pythonSyntaxError |}.

(** Plotly is there and draws. *)
Definition browser : Browser := mkBrowser true [] (fun _ _ => true).

(** A page with all its elements, the box holding [v] and the selection
    [c]. *)
Definition page (v c : jsstring) : Dom :=
  mkDom (Some v) (Some c) (Some (InnerText [])) (Some (mkGraphDiv (js "1px") None))
        [] [] [].

(** The page of the later revision in its light theme. *)
Definition light : Theme.ThemePage :=
  Theme.mkThemePage false (js "#f0f0f0") [js "black"; js "black"] [js "black"]
    (Some (js "Dark mode")) (Some (js "cornsilk")) (Some (js "black"))
    (Some (js "images/banner.png")).

(** The same page without its banner. *)
Definition noBanner : Theme.ThemePage :=
  Theme.mkThemePage false (js "#f0f0f0") [js "black"; js "black"] [js "black"]
    (Some (js "Dark mode")) (Some (js "cornsilk")) (Some (js "black")) None.

End Demo.

(* ================================================================== *)
(** * Properties of the bridge and of the dispatcher *)
(* ================================================================== *)

Section BridgeFacts.

Local Open Scope N_scope.

Lemma streq_spec (a b : jsstring) : streq a b = true <-> a = b.
Proof.
  revert b; induction a as [|x a IH]; intros [|y b]; simpl; split;
    try congruence; try reflexivity.
  - intros H. apply andb_true_iff in H as [Hx Hab].
    apply N.eqb_eq in Hx. apply IH in Hab. congruence.
  - intros H. injection H as -> ->.
    rewrite N.eqb_refl. simpl. now apply IH.
Qed.

Lemma streq_refl (a : jsstring) : streq a a = true.
Proof. now apply streq_spec. Qed.

Lemma streq_neq (a b : jsstring) : a <> b -> streq a b = false.
Proof.
  intros H. destruct (streq a b) eqn:E; [|reflexivity].
  apply streq_spec in E. contradiction.
Qed.

(** The [default] branch is taken by exactly the strings without a [case]. *)
Lemma switchBody_default (c : jsstring) :
  ~ In c switch_cases -> switchBody c = BUnknown c.
Proof.
  intros H. unfold switchBody.
  repeat match goal with
  | |- context [streq c ?k] =>
      rewrite (@streq_neq c k)
        by (intros ->; apply H; unfold switch_cases; simpl; tauto)
  end.
  reflexivity.
Qed.

Lemma switchBody_case (c : jsstring) :
  In c switch_cases -> switchBody c <> BUnknown c.
Proof.
  unfold switch_cases. simpl.
  intros [<-|[<-|[<-|[<-|[<-|[<-|[<-|[<-|[<-|[]]]]]]]]]]; vm_compute; discriminate.
Qed.

Lemma switchBody_unknown_inv (c c' : jsstring) :
  switchBody c = BUnknown c' -> c' = c /\ ~ In c switch_cases.
Proof.
  intros H. split.
  - revert H. unfold switchBody.
    repeat match goal with
    | |- context [if ?t then _ else _] => destruct t; try discriminate
    end.
    congruence.
  - intros Hin. apply switchBody_case in Hin. apply Hin.
    rewrite H. f_equal. revert H. unfold switchBody.
    repeat match goal with
    | |- context [if ?t then _ else _] => destruct t; try discriminate
    end.
    congruence.
Qed.

Variable eng : Engine.

(** A fault of [sympify] leaves [runSympyCommand] as the rejection of the
    promise, whatever the command body is. *)
Lemma pyCode_sympify_raises (b : Body) (st : State) (u : jsstring) (e : PyExc) :
  user_expr st = Some u ->
  sympify eng u = PyRaise e ->
  Bridge.pyCode eng b st = PyRaise e.
Proof. intros Hu He. unfold Bridge.pyCode. now rewrite Hu, He. Qed.

Lemma runSympyCommand_sympify_raises (st : State) (u c : jsstring) (e : PyExc) :
  pyodideReady st = true ->
  sympify eng u = PyRaise e ->
  In c switch_cases \/ plainLiteral c = true ->
  fst (runSympyCommand eng st u c) = Throw (PythonError e).
Proof.
  intros Hr He Hc. unfold runSympyCommand. rewrite Hr. simpl.
  unfold runCode.
  assert (Hp : forall b, Bridge.pyCode eng b (globalsSet u st) = PyRaise e)
    by (intros b; now apply pyCode_sympify_raises with (u := u)).
  destruct (switchBody c) as [a| |c'] eqn:Eb.
  - now rewrite Hp.
  - now rewrite Hp.
  - apply switchBody_unknown_inv in Eb as [-> Hn].
    destruct Hc as [Hc|Hc]; [contradiction|].
    now rewrite Hc, Hp.
Qed.

(** A fault of an action that is an instance of [Exception] comes back as
    text that starts with the marker. *)
Lemma runSympyCommand_action_raises
    (st : State) (u c : jsstring) (a : Action) (x : Expr eng) (e : PyExc) :
  pyodideReady st = true ->
  switchBody c = BAction a ->
  sympify eng u = PyOk x ->
  actionLatex eng a x = PyRaise e ->
  isException e = true ->
  fst (runSympyCommand eng st u c) = Return (js "Error: " ++ excStr e)
  /\ startsWith (js "Error:") (js "Error: " ++ excStr e) = true.
Proof.
  intros Hr Hb Hx Ha He. split; [|reflexivity].
  unfold runSympyCommand. rewrite Hr. simpl.
  unfold runCode. rewrite Hb. unfold Bridge.pyCode. simpl.
  rewrite Hx. simpl. rewrite Ha. simpl. rewrite He. reflexivity.
Qed.

End BridgeFacts.

Section RevisedFacts.

Variable eng : Engine.
Variable splicedRaw : jsstring -> jsstring -> PyResult (jsstring * Revised.RawValue (Raw eng)).

Lemma revised_sympify_raises (st : State) (u c : jsstring) (e : PyExc) :
  pyodideReady st = true ->
  sympify eng u = PyRaise e ->
  In c switch_cases \/ plainLiteral c = true ->
  fst (Revised.runSympyCommand eng splicedRaw st u c) = Throw (PythonError e).
Proof.
  intros Hr He Hc. unfold Revised.runSympyCommand. rewrite Hr. simpl.
  unfold Revised.runCode.
  assert (Hp : forall b, Revised.pyCode eng b (globalsSet u st) = PyRaise e).
  { intros b. unfold Revised.pyCode. simpl. now rewrite He. }
  destruct (switchBody c) as [a| |c'] eqn:Eb.
  - now rewrite Hp.
  - now rewrite Hp.
  - apply switchBody_unknown_inv in Eb as [-> Hn].
    destruct Hc as [Hc|Hc]; [contradiction|].
    now rewrite Hc, Hp.
Qed.

End RevisedFacts.

(** C1 (as the code has it).  The claim is that every engine-side exception,
    a parse failure included, comes back from [runSympyCommand] as a result
    that starts with the marker.  In both revisions of the script [sympify]
    runs before the [try]: when it raises, for every command with a [case]
    and every plain unknown command, the promise is rejected with the
    engine's exception itself and nothing is returned. *)
Theorem C1_parse_failure_escapes_unconverted
    (eng : Engine)
    (splicedRaw : jsstring -> jsstring -> PyResult (jsstring * Revised.RawValue (Raw eng)))
    (st : State) (u c : jsstring) (e : PyExc) :
  pyodideReady st = true ->
  sympify eng u = PyRaise e ->
  In c switch_cases \/ plainLiteral c = true ->
  fst (runSympyCommand eng st u c) = Throw (PythonError e)
  /\ fst (Revised.runSympyCommand eng splicedRaw st u c) = Throw (PythonError e).
Proof.
  intros Hr He Hc. split.
  - now apply runSympyCommand_sympify_raises.
  - now apply revised_sympify_raises.
Qed.

(** The failing input of C1: [runSympyCommand("(x+1", "solve")]. *)
Lemma C1_parse_failure_witness :
  fst (runSympyCommand Stub.engine Stub.ready (js "(x+1") (js "solve"))
    = Throw (PythonError Stub.sympifyError)
  /\ fst (Revised.runSympyCommand Stub.engine Stub.splicedRaw Stub.ready (js "(x+1") (js "solve"))
    = Throw (PythonError Stub.sympifyError).
Proof.
  apply (@C1_parse_failure_escapes_unconverted Stub.engine Stub.splicedRaw
           Stub.ready (js "(x+1") (js "solve") Stub.sympifyError).
  - reflexivity.
  - reflexivity.
  - left. simpl. tauto.
Defined.

(** C10, the claim as stated fails: with the command [graph] the bridge
    throws when the engine is still loading, and it throws the engine's
    exception when the expression does not parse. *)
Lemma C10_graph_not_always_sentinel :
  fst (runSympyCommand Stub.engine Stub.loading (js "x") (js "graph"))
    = Throw NotReady
  /\ fst (runSympyCommand Stub.engine Stub.ready (js "(x+1") (js "graph"))
    = Throw (PythonError Stub.sympifyError)
  /\ fst (runSympyCommand Stub.engine Stub.ready (js "(x+1") (js "graph"))
    <> Return (js "GRAPH_COMMAND").
Proof. repeat split; try reflexivity. discriminate. Qed.

(** C10 (amended).  When the engine is ready and [sympify] accepts the
    expression, [runSympyCommand] with the command [graph] does not reject:
    it returns the sentinel text as an ordinary result, in both revisions
    of the script (the later one also as [resultRaw]). *)
Theorem C10_graph_returns_sentinel
    (eng : Engine)
    (splicedRaw : jsstring -> jsstring -> PyResult (jsstring * Revised.RawValue (Raw eng)))
    (st : State) (u : jsstring) (x : Expr eng) :
  pyodideReady st = true ->
  sympify eng u = PyOk x ->
  fst (runSympyCommand eng st u (js "graph")) = Return (js "GRAPH_COMMAND")
  /\ fst (Revised.runSympyCommand eng splicedRaw st u (js "graph"))
     = Return (Revised.mkResult (js "GRAPH_COMMAND")
                                (Revised.RawText (js "GRAPH_COMMAND")))
  /\ startsWith (js "Error:") (js "GRAPH_COMMAND") = false.
Proof.
  intros Hr Hx. repeat split.
  - unfold runSympyCommand. rewrite Hr. simpl.
    change (runCode eng (js "graph") (globalsSet u st))
      with (Bridge.pyCode eng BGraph (globalsSet u st)).
    unfold Bridge.pyCode. simpl. now rewrite Hx.
  - unfold Revised.runSympyCommand. rewrite Hr. simpl.
    change (Revised.runCode eng splicedRaw (js "graph") (globalsSet u st))
      with (Revised.pyCode eng BGraph (globalsSet u st)).
    unfold Revised.pyCode. simpl. now rewrite Hx.
Qed.

Lemma C10_graph_returns_sentinel_witness :
  fst (runSympyCommand Stub.engine Stub.ready (js "x^2") (js "graph"))
    = Return (js "GRAPH_COMMAND")
  /\ fst (Revised.runSympyCommand Stub.engine Stub.splicedRaw Stub.ready (js "x^2") (js "graph"))
     = Return (Revised.mkResult (js "GRAPH_COMMAND")
                                (Revised.RawText (js "GRAPH_COMMAND")))
  /\ startsWith (js "Error:") (js "GRAPH_COMMAND") = false.
Proof.
  apply (@C10_graph_returns_sentinel Stub.engine Stub.splicedRaw Stub.ready
           (js "x^2") (js "x^2")); reflexivity.
Defined.

(** C2, the claim as stated fails on the identifiers: [differentiate] and
    [solve-numeric] are in the enumeration of the specification but have no
    [case], so they take the [default] branch; [diff] and [solvenumeric]
    are outside that enumeration and are not rejected. *)
Lemma C2_enumeration_differs :
  In (js "differentiate") spec_command_enumeration
  /\ switchBody (js "differentiate") = BUnknown (js "differentiate")
  /\ In (js "solve-numeric") spec_command_enumeration
  /\ switchBody (js "solve-numeric") = BUnknown (js "solve-numeric")
  /\ ~ In (js "diff") spec_command_enumeration
  /\ switchBody (js "diff") = BAction Diff
  /\ ~ In (js "solvenumeric") spec_command_enumeration
  /\ switchBody (js "solvenumeric") = BAction SolveNumeric.
Proof.
  repeat split; try reflexivity; try (simpl; tauto);
    intros H; simpl in H;
    repeat (destruct H as [H|H]; [discriminate H|]); exact H.
Qed.

(** C2 (amended).  Over the identifiers the [switch] has a [case] for,
    dispatch is complete and closed: [graph] alone takes the sampler path of
    [doMaths] and every other string goes to the bridge; each of the eight
    other identifiers selects its own action; every string without a [case]
    reaches the [default] branch, and when the engine is ready, the
    expression parses and the identifier is plain text of a Python literal,
    the bridge returns the text [Unknown command: ] followed by the
    identifier, as an ordinary result that does not start with the error
    marker. *)
Theorem C2_dispatch_over_switch_cases
    (eng : Engine) (st : State) (u c : jsstring) (x : Expr eng) :
  pyodideReady st = true ->
  sympify eng u = PyOk x ->
  (route c = SamplerPath <-> c = js "graph")
  /\ (route c = BridgePath <-> c <> js "graph")
  /\ List.map switchBody switch_cases
     = [BAction Solve; BAction SolveNumeric; BAction Evaluate; BAction Factor;
        BAction Diff; BAction Integrate; BAction Simplify; BAction Expand;
        BGraph]
  /\ (In c switch_cases <-> switchBody c <> BUnknown c)
  /\ (~ In c switch_cases -> plainLiteral c = true ->
      fst (runSympyCommand eng st u c) = Return (js "Unknown command: " ++ c)
      /\ startsWith (js "Error:") (js "Unknown command: " ++ c) = false).
Proof.
  intros Hr Hx.
  assert (Hroute : route c = SamplerPath <-> c = js "graph").
  { unfold route. destruct (streq c (js "graph")) eqn:E.
    - apply streq_spec in E. tauto.
    - split; [discriminate|]. intros ->. now rewrite streq_refl in E. }
  split; [exact Hroute|]. split.
  { clear Hroute. unfold route. destruct (streq c (js "graph")) eqn:E.
    - apply streq_spec in E. split; [discriminate|tauto].
    - split; [|reflexivity]. intros _ ->. now rewrite streq_refl in E. }
  split; [reflexivity|]. split.
  { split; [apply switchBody_case|].
    intros Hn. destruct (In_dec (list_eq_dec N.eq_dec) c switch_cases) as [H|H];
      [exact H|]. exfalso. now apply Hn, switchBody_default. }
  intros Hn Hp. split; [|reflexivity].
  unfold runSympyCommand. rewrite Hr. simpl.
  unfold runCode. rewrite (switchBody_default Hn), Hp.
  unfold Bridge.pyCode. simpl. now rewrite Hx.
Qed.

Lemma C2_dispatch_witness :
  fst (runSympyCommand Stub.engine Stub.ready (js "x+1") (js "plot"))
    = Return (js "Unknown command: plot").
Proof.
  refine (proj1 (proj2 (proj2 (proj2 (proj2
    (@C2_dispatch_over_switch_cases Stub.engine Stub.ready (js "x+1") (js "plot")
       (js "x+1") eq_refl eq_refl)))) _ eq_refl)).
  intros H. simpl in H.
  repeat (destruct H as [H|H]; [discriminate H|]). exact H.
Defined.

(* ================================================================== *)
(** * Properties of the sampler *)
(* ================================================================== *)

Section FloatFacts.

Lemma eqb_refl_finite (v : float) : isFinite v = true -> Float.eqb v v = true.
Proof.
  destruct v as [s|s| |s m e]; simpl; try discriminate; intros _;
    unfold Float.eqb, SFeqb, SFcompare; [reflexivity|].
  destruct s; rewrite Z.compare_refl, Pos.compare_cont_refl; reflexivity.
Qed.

Lemma mul_zero_l (s : bool) (v : float) :
  mul (S754_zero s) v = S754_nan \/ exists s', mul (S754_zero s) v = S754_zero s'.
Proof. destruct v; simpl; eauto. Qed.

Lemma div_zero_l (s : bool) (v : float) :
  Float.div (S754_zero s) v = S754_nan
  \/ exists s', Float.div (S754_zero s) v = S754_zero s'.
Proof. destruct v; simpl; eauto. Qed.

Lemma add_nan_l (v : float) : add S754_nan v = S754_nan.
Proof. reflexivity. Qed.

(** Adding a zero to a number that Python read from the program text. *)
Lemma add_zero_l (s : bool) (v w : float) :
  pyNumber w = PyOk v -> Float.eqb (add (S754_zero s) v) w = true.
Proof.
  destruct w as [sw|sw| |sw m e]; simpl; try discriminate;
    intros H; injection H as <-.
  - destruct s; reflexivity.
  - simpl. apply (@eqb_refl_finite (S754_finite sw m e)). reflexivity.
Qed.

Lemma pyNumber_eqb (w v : float) :
  pyNumber w = PyOk v -> Float.eqb v w = true.
Proof.
  destruct w as [sw|sw| |sw m e]; simpl; try discriminate;
    intros H; injection H as <-.
  - reflexivity.
  - apply (@eqb_refl_finite (S754_finite sw m e)). reflexivity.
Qed.

End FloatFacts.

Section LinspaceFacts.

Local Open Scope Z_scope.

Lemma setLast_length (y : list float) (stop : float) :
  length (setLast y stop) = length y.
Proof.
  induction y as [|a [|b tl] IH]; simpl in *; try reflexivity.
  now rewrite IH.
Qed.

Lemma setLast_last (y : list float) (stop d : float) :
  y <> [] -> last (setLast y stop) d = stop.
Proof.
  induction y as [|a y IH]; intros H; [congruence|].
  destruct y as [|b tl]; [reflexivity|].
  change (setLast (a :: b :: tl) stop) with (a :: setLast (b :: tl) stop).
  assert (IH' : last (setLast (b :: tl) stop) d = stop)
    by (apply IH; discriminate).
  destruct (setLast (b :: tl) stop) as [|c r] eqn:E.
  - apply (f_equal (@length _)) in E. rewrite setLast_length in E. discriminate.
  - exact IH'.
Qed.

Lemma setLast_head (a b : float) (tl : list float) (stop : float) :
  exists r, setLast (a :: b :: tl) stop = a :: r.
Proof. eexists. reflexivity. Qed.

Lemma arange_length (num : Z) : length (arange num) = Z.to_nat num.
Proof. unfold arange. now rewrite length_map, length_seq. Qed.

Lemma arange_head (num : Z) :
  1 <= num -> exists r, arange num = S754_zero false :: r.
Proof.
  intros H. unfold arange.
  destruct (Z.to_nat num) as [|k] eqn:E; [lia|].
  simpl. eexists. reflexivity.
Qed.

(** What [linspace] returns: as many entries as asked for. *)
Lemma linspace_length (start stop : float) (num : Z) (l : list float) :
  linspace start stop num = PyOk l -> 0 <= num /\ length l = Z.to_nat num.
Proof.
  unfold linspace. destruct (num <? 0) eqn:E; [discriminate|].
  apply Z.ltb_ge in E. intros H. injection H as <-. split; [exact E|].
  destruct (1 <? num); rewrite ?setLast_length;
    destruct (0 <? num - 1);
    try destruct (Float.eqb _ _);
    now rewrite !length_map, arange_length.
Qed.

Lemma linspace_negative (start stop : float) (num : Z) :
  num < 0 -> linspace start stop num = PyRaise valueError.
Proof. intros H. unfold linspace. apply Z.ltb_lt in H. now rewrite H. Qed.

(** With at least two entries the last one is [stop] itself. *)
Lemma linspace_last (start stop d : float) (num : Z) (l : list float) :
  2 <= num -> linspace start stop num = PyOk l -> last l d = stop.
Proof.
  intros Hn H. pose proof (linspace_length _ _ _ H) as [_ Hl].
  revert H. unfold linspace.
  destruct (num <? 0); [discriminate|].
  assert (E : (1 <? num) = true) by (apply Z.ltb_lt; lia). rewrite E.
  intros H. injection H as <-. apply setLast_last.
  intros E0. rewrite E0 in Hl. simpl in Hl. lia.
Qed.

(** The first entry is [0 * step + start]: [start], or not a number. *)
Lemma linspace_head (lo hi w : float) (num : Z) (l : list float) :
  1 <= num ->
  pyNumber w = PyOk lo ->
  linspace lo hi num = PyOk l ->
  exists v r, l = v :: r /\ (v = S754_nan \/ Float.eqb v w = true).
Proof.
  intros Hn Hw. unfold linspace.
  destruct (num <? 0); [discriminate|].
  destruct (arange_head Hn) as [r Hr]. rewrite Hr.
  intros H. injection H as <-.
  assert (Hz : forall f : float -> float,
             (f (S754_zero false) = S754_nan
              \/ exists s, f (S754_zero false) = S754_zero s) ->
             exists v r',
               (if 1 <? num
                then setLast (List.map (fun v => add v lo)
                                (List.map f (S754_zero false :: r))) hi
                else List.map (fun v => add v lo)
                       (List.map f (S754_zero false :: r))) = v :: r'
               /\ (v = S754_nan \/ Float.eqb v w = true)).
  { intros f Hf. simpl List.map.
    assert (Hv : add (f (S754_zero false)) lo = S754_nan
                 \/ Float.eqb (add (f (S754_zero false)) lo) w = true).
    { destruct Hf as [->|[s ->]]; [left; reflexivity|right].
      now apply add_zero_l. }
    destruct (1 <? num) eqn:E1.
    - destruct r as [|b r].
      + exfalso. apply Z.ltb_lt in E1.
        pose proof (arange_length num) as Hl. rewrite Hr in Hl.
        simpl in Hl. lia.
      + simpl List.map.
        destruct (setLast_head (add (f (S754_zero false)) lo)
                    (add (f b) lo)
                    (List.map (fun v => add v lo) (List.map f r)) hi)
          as [r' ->].
        eauto.
    - eauto. }
  destruct (0 <? num - 1).
  - destruct (Float.eqb _ _).
    + apply Hz. destruct (div_zero_l false (ofZ (num - 1))) as [->|[s ->]].
      * left. reflexivity.
      * apply mul_zero_l.
    + apply Hz. apply mul_zero_l.
  - apply Hz. apply mul_zero_l.
Qed.

End LinspaceFacts.

Section JsonFacts.

(** The numbers that survive the JSON text are the finite ones, unchanged. *)
Lemma parse_dumps_numbers (l l' : list float) :
  parseArray parseNumber (List.map dumpsFloat l) = Some l' ->
  l' = l /\ forallb isFinite l = true.
Proof.
  revert l'. induction l as [|v l IH]; simpl; intros l' H.
  - injection H as <-. auto.
  - destruct (parseNumber (dumpsFloat v)) as [v'|] eqn:Ev; [|discriminate].
    destruct (parseArray parseNumber (List.map dumpsFloat l)) as [r|];
      [|discriminate].
    injection H as <-. destruct (IH r eq_refl) as [-> Hf].
    destruct v as [s|[|]| |s m e]; simpl in Ev; try discriminate;
      injection Ev as <-; auto.
Qed.

Lemma parse_dumps_numbers_finite (l : list float) :
  forallb isFinite l = true ->
  parseArray parseNumber (List.map dumpsFloat l) = Some l.
Proof.
  induction l as [|v l IH]; simpl; [reflexivity|].
  intros H. apply andb_true_iff in H as [Hv Hl]. rewrite (IH Hl).
  destruct v as [s|[|]| |s m e]; simpl in *; try discriminate; reflexivity.
Qed.

Lemma parse_dumps_entries (l l' : list (option float)) :
  parseArray parseEntry (List.map dumpsEntry l) = Some l' ->
  l' = l /\ forallb finiteOrNull l = true.
Proof.
  revert l'. induction l as [|v l IH]; simpl; intros l' H.
  - injection H as <-. auto.
  - destruct (parseEntry (dumpsEntry v)) as [v'|] eqn:Ev; [|discriminate].
    destruct (parseArray parseEntry (List.map dumpsEntry l)) as [r|];
      [|discriminate].
    injection H as <-. destruct (IH r eq_refl) as [-> Hf].
    destruct v as [[s|[|]| |s m e]|]; simpl in Ev; try discriminate;
      injection Ev as <-; auto.
Qed.

Lemma parse_dumps_entries_finite (l : list (option float)) :
  forallb finiteOrNull l = true ->
  parseArray parseEntry (List.map dumpsEntry l) = Some l.
Proof.
  induction l as [|v l IH]; simpl; [reflexivity|].
  intros H. apply andb_true_iff in H as [Hv Hl]. rewrite (IH Hl).
  destruct v as [[s|[|]| |s m e]|]; simpl in *; try discriminate; reflexivity.
Qed.

(** One entry that is not finite makes [JSON.parse] throw. *)
Lemma parse_dumps_entries_bareword (l : list (option float)) :
  forallb finiteOrNull l = false ->
  parseArray parseEntry (List.map dumpsEntry l) = None.
Proof.
  intros H.
  destruct (parseArray parseEntry (List.map dumpsEntry l)) as [r|] eqn:E;
    [|reflexivity].
  apply parse_dumps_entries in E as [_ E]. congruence.
Qed.

(** The callback of [map] finds nothing to do on what [JSON.parse] built. *)
Lemma sanitize_parsed (l : list (option float)) :
  forallb finiteOrNull l = true -> List.map sanitize l = l.
Proof.
  induction l as [|v l IH]; simpl; [reflexivity|].
  intros H. apply andb_true_iff in H as [Hv Hl]. rewrite (IH Hl).
  destruct v as [[s|s| |s m e]|]; simpl in *; try discriminate; reflexivity.
Qed.

End JsonFacts.

Section SamplerFacts.

Local Open Scope Z_scope.

Variable eng : Engine.

(** What a fulfilled promise of [computeXYWithPyodide] tells. *)
Lemma computeXY_returns
    (st : State) (u : jsstring) (xMin xMax : float) (points : Z) (obj : XY) :
  fst (computeXYWithPyodide eng st u xMin xMax points) = Return obj ->
  exists (x : Expr eng) (lo hi : float) (raw : list PyVal),
    pyodideReady st = true
    /\ sympify eng u = PyOk x
    /\ pyNumber xMin = PyOk lo
    /\ pyNumber xMax = PyOk hi
    /\ linspace lo hi points = PyOk (xs obj)
    /\ applyLambdified (lambdify eng x) (xs obj) = PyOk raw
    /\ ys obj = List.map floatOrNone raw
    /\ forallb isFinite (xs obj) = true
    /\ forallb finiteOrNull (ys obj) = true.
Proof.
  unfold computeXYWithPyodide.
  destruct (pyodideReady st) eqn:Hr; simpl; [|discriminate].
  unfold pyCode. simpl.
  destruct (sympify eng u) as [x|] eqn:Hx; simpl; [|discriminate].
  destruct (pyNumber xMin) as [lo|] eqn:Hlo; simpl; [|discriminate].
  destruct (pyNumber xMax) as [hi|] eqn:Hhi; simpl; [|discriminate].
  destruct (linspace lo hi points) as [l|] eqn:Hl; simpl; [|discriminate].
  destruct (applyLambdified (lambdify eng x) l) as [raw|] eqn:Hraw; simpl;
    [|discriminate].
  unfold JSON_parse. simpl.
  destruct (parseArray parseNumber (List.map dumpsFloat l)) as [l'|] eqn:El;
    [|discriminate].
  destruct (parseArray parseEntry
              (List.map dumpsEntry (List.map floatOrNone raw))) as [r|] eqn:Er;
    [|discriminate].
  apply parse_dumps_numbers in El as [-> Hfin].
  apply parse_dumps_entries in Er as [-> Hfin'].
  intros H. injection H as <-. simpl.
  rewrite (sanitize_parsed _ Hfin').
  exists x, lo, hi, raw. repeat split; assumption.
Qed.

(** A value that is a float but not a finite one is written as a bareword,
    and the promise is rejected with the [SyntaxError] of [JSON.parse]. *)
Lemma computeXY_nonfinite_throws
    (st : State) (u : jsstring) (xMin xMax lo hi : float) (points : Z)
    (x : Expr eng) (l : list float) (raw : list PyVal) :
  pyodideReady st = true ->
  sympify eng u = PyOk x ->
  pyNumber xMin = PyOk lo ->
  pyNumber xMax = PyOk hi ->
  linspace lo hi points = PyOk l ->
  applyLambdified (lambdify eng x) l = PyOk raw ->
  forallb finiteOrNull (List.map floatOrNone raw) = false ->
  fst (computeXYWithPyodide eng st u xMin xMax points) = Throw SyntaxError.
Proof.
  intros Hr Hx Hlo Hhi Hl Hraw Hbad.
  unfold computeXYWithPyodide. rewrite Hr. simpl.
  unfold pyCode. simpl. rewrite Hx, Hlo, Hhi, Hl, Hraw. simpl.
  unfold JSON_parse. simpl.
  rewrite (parse_dumps_entries_bareword _ Hbad).
  now destruct (parseArray parseNumber (List.map dumpsFloat l)).
Qed.

(** A value that [float()] refuses is recorded as [null] and fails nothing. *)
Lemma computeXY_nonreal_is_null
    (st : State) (u : jsstring) (xMin xMax lo hi : float) (points : Z)
    (x : Expr eng) (l : list float) (raw : list PyVal) :
  pyodideReady st = true ->
  sympify eng u = PyOk x ->
  pyNumber xMin = PyOk lo ->
  pyNumber xMax = PyOk hi ->
  linspace lo hi points = PyOk l ->
  forallb isFinite l = true ->
  applyLambdified (lambdify eng x) l = PyOk raw ->
  forallb finiteOrNull (List.map floatOrNone raw) = true ->
  fst (computeXYWithPyodide eng st u xMin xMax points)
    = Return (mkXY l (List.map floatOrNone raw)).
Proof.
  intros Hr Hx Hlo Hhi Hl Hfin Hraw Hok.
  unfold computeXYWithPyodide. rewrite Hr. simpl.
  unfold pyCode. simpl. rewrite Hx, Hlo, Hhi, Hl, Hraw. simpl.
  unfold JSON_parse. simpl.
  rewrite (parse_dumps_numbers_finite _ Hfin).
  rewrite (parse_dumps_entries_finite _ Hok). simpl.
  now rewrite (sanitize_parsed _ Hok).
Qed.

End SamplerFacts.

(** C3 (as the code has it).  The claim is that sampling [1/x] over
    [-10, 10] with 21 points succeeds with one absent entry at [x = 0].  The
    eleventh sample point is zero, NumPy's quotient there is [+inf],
    [float(v)] accepts it, [json.dumps] writes it as the bareword
    [Infinity], and [JSON.parse] throws before the callback that would have
    turned it into [null] is ever reached: the promise is rejected. *)
Theorem C3_reciprocal_sample_is_rejected :
  (exists l, linspace plotMin plotMax 21 = PyOk l
             /\ nth 10 l S754_nan = S754_zero false)
  /\ Stub.reciprocal (S754_zero false) = PyReal (S754_infinity false)
  /\ dumpsEntry (floatOrNone (PyReal (S754_infinity false)))
     = Num (Bareword (js "Infinity"))
  /\ sanitize (Some (S754_infinity false)) = None
  /\ fst (computeXYWithPyodide Stub.engine Stub.ready (js "1/x") plotMin plotMax 21)
     = Throw SyntaxError.
Proof.
  split; [eexists; split; vm_compute; reflexivity|].
  repeat split; vm_compute; reflexivity.
Qed.

(* ================================================================== *)
(** * Arithmetic on a binary grid

    Sums, differences, products and quotients of doubles whose exact
    result is a double again are computed without error.  This settles
    what [numpy.linspace] returns when the sample points are numbers of
    that kind. *)
(* ================================================================== *)

Unset Implicit Arguments.

Section Digits.

Local Open Scope Z_scope.

Lemma digits_pos (p : positive) : 1 <= digits p.
Proof. unfold digits. lia. Qed.

Lemma digits_spec (p : positive) :
  2 ^ (digits p - 1) <= Zpos p < 2 ^ digits p.
Proof.
  unfold digits. induction p as [p IH|p IH|]; cbn [digits2_pos].
  - rewrite Pos2Z.inj_succ.
    replace (Z.succ (Zpos (digits2_pos p)) - 1) with (Z.succ (Zpos (digits2_pos p) - 1)) by lia.
    rewrite !Z.pow_succ_r by lia. lia.
  - rewrite Pos2Z.inj_succ.
    replace (Z.succ (Zpos (digits2_pos p)) - 1) with (Z.succ (Zpos (digits2_pos p) - 1)) by lia.
    rewrite !Z.pow_succ_r by lia. lia.
  - cbn. lia.
Qed.

Lemma digits_unique (p : positive) (d : Z) :
  2 ^ (d - 1) <= Zpos p < 2 ^ d -> digits p = d.
Proof.
  intros [Hlo Hhi]. pose proof (digits_spec p) as [Hlo' Hhi'].
  pose proof (digits_pos p) as Hd.
  assert (Hd1 : 1 <= d).
  { destruct (Z_lt_le_dec d 1) as [H|H]; [|exact H].
    exfalso. destruct (Z.eq_dec d 0) as [->|Hn]; [cbn in Hhi; lia|].
    rewrite (Z.pow_neg_r 2 d) in Hhi by lia. lia. }
  destruct (Z.lt_trichotomy (digits p) d) as [H|[H|H]]; [|exact H|]; exfalso.
  - assert (2 ^ digits p <= 2 ^ (d - 1)) by (apply Z.pow_le_mono_r; lia). lia.
  - assert (2 ^ d <= 2 ^ (digits p - 1)) by (apply Z.pow_le_mono_r; lia). lia.
Qed.

Lemma digits_scaled (M p : positive) (j : Z) :
  0 <= j -> Zpos M = Zpos p * 2 ^ j -> digits M = digits p + j.
Proof.
  intros Hj HM. apply digits_unique. rewrite HM.
  pose proof (digits_spec p) as [Hlo Hhi]. pose proof (digits_pos p).
  replace (digits p + j - 1) with ((digits p - 1) + j) by lia.
  rewrite !Z.pow_add_r by lia.
  assert (0 < 2 ^ j) by (apply Z.pow_pos_nonneg; lia). nia.
Qed.

Lemma digits_le (p : positive) (d : Z) : Zpos p < 2 ^ d -> digits p <= d.
Proof.
  intros H. pose proof (digits_spec p) as [Hlo _]. pose proof (digits_pos p).
  destruct (Z_lt_le_dec d (digits p)) as [Hc|Hc]; [|exact Hc]. exfalso.
  destruct (Z_lt_le_dec d 0) as [Hn|Hn].
  - rewrite (Z.pow_neg_r 2 d) in H by lia. lia.
  - assert (2 ^ d <= 2 ^ (digits p - 1)) by (apply Z.pow_le_mono_r; lia). lia.
Qed.

Lemma digits_mono (p p' : positive) : (p <= p')%positive -> digits p <= digits p'.
Proof.
  intros H. apply digits_le. pose proof (digits_spec p') as [_ Hhi]. lia.
Qed.

End Digits.

Section Shifts.

Local Open Scope Z_scope.

Lemma iter_pos_nat {A : Type} (f : A -> A) (n : positive) (x : A) :
  iter_pos f n x = Nat.iter (Pos.to_nat n) f x.
Proof.
  revert x. induction n as [n IH|n IH|]; intros x; cbn [iter_pos].
  - rewrite !IH, Pos2Nat.inj_xI.
    replace (S (2 * Pos.to_nat n))%nat with (Pos.to_nat n + S (Pos.to_nat n))%nat by lia.
    rewrite Nat.iter_add, Nat.iter_succ_r. reflexivity.
  - rewrite !IH, Pos2Nat.inj_xO.
    replace (2 * Pos.to_nat n)%nat with (Pos.to_nat n + Pos.to_nat n)%nat by lia.
    now rewrite Nat.iter_add.
  - reflexivity.
Qed.

(** Shifting out zeros loses nothing. *)
Lemma shr_zeros (k : nat) (m : positive) :
  Nat.iter k shr_1 (Build_shr_record (Zpos (Nat.iter k xO m)) false false)
  = Build_shr_record (Zpos m) false false.
Proof.
  induction k as [|k IH]; [reflexivity|].
  rewrite Nat.iter_succ_r. rewrite Nat.iter_succ. exact IH.
Qed.

Lemma iter_xO_value (k : nat) (m : positive) :
  Zpos (Nat.iter k xO m) = Zpos m * 2 ^ Z.of_nat k.
Proof.
  induction k as [|k IH]; [cbn; lia|].
  rewrite Nat.iter_succ, Pos2Z.inj_xO, IH, Nat2Z.inj_succ, Z.pow_succ_r by lia. lia.
Qed.

Lemma pos_iter_xO_value (d m : positive) :
  Zpos (Pos.iter xO m d) = Zpos m * 2 ^ Zpos d.
Proof.
  pose proof (iter_xO_value (Pos.to_nat d) m) as H. unfold Nat.iter in H.
  rewrite Pos2Nat.inj_iter, H. now rewrite positive_nat_Z.
Qed.

End Shifts.

Section Rounding.

Local Open Scope Z_scope.

Lemma fexp_normal (e : Z) : -1021 <= e -> fexp prec emax e = e - 53.
Proof. unfold fexp, emin, prec, emax. lia. Qed.

Lemma shr_exact (M m : positive) (e n : Z) :
  0 <= n -> Zpos M = Zpos m * 2 ^ n ->
  shr (Build_shr_record (Zpos M) false false) e n
  = (Build_shr_record (Zpos m) false false, e + n).
Proof.
  intros Hn HM. destruct n as [|k|k]; [| |lia].
  - cbn [shr]. rewrite Z.pow_0_r, Z.mul_1_r in HM. injection HM as ->.
    now rewrite Z.add_0_r.
  - cbn [shr]. rewrite iter_pos_nat.
    assert (HMk : M = Nat.iter (Pos.to_nat k) xO m).
    { apply Pos2Z.inj. rewrite HM, iter_xO_value. now rewrite positive_nat_Z. }
    rewrite HMk, shr_zeros. reflexivity.
Qed.

Lemma normal_mantissa (p : positive) :
  Zpos p < 2 ^ 53 ->
  Zpos (Z.to_pos (Zpos p * 2 ^ (53 - digits p))) = Zpos p * 2 ^ (53 - digits p)
  /\ digits (Z.to_pos (Zpos p * 2 ^ (53 - digits p))) = 53.
Proof.
  intros Hp. pose proof (digits_le p 53 Hp) as Hd.
  assert (Hpow : 0 < 2 ^ (53 - digits p)) by (apply Z.pow_pos_nonneg; lia).
  assert (Hv : Zpos (Z.to_pos (Zpos p * 2 ^ (53 - digits p)))
               = Zpos p * 2 ^ (53 - digits p)) by (apply Z2Pos.id; nia).
  split; [exact Hv|].
  rewrite (digits_scaled _ p (53 - digits p)); [lia|lia|exact Hv].
Qed.

(** Rounding a mantissa whose low digits are zeros: nothing is lost. *)
Lemma round_aux_exact (s : bool) (M : positive) (e : Z) (p : positive) (j : Z) :
  0 <= j -> Zpos M = Zpos p * 2 ^ j -> Zpos p < 2 ^ 53 ->
  53 <= digits M -> -1020 <= e + j <= 971 ->
  binary_round_aux prec emax s (Zpos M) e loc_Exact = normal s p (e + j).
Proof.
  intros Hj HM Hp HdM Hq.
  pose proof (digits_le p 53 Hp) as Hdp. pose proof (digits_pos p) as Hdp1.
  pose proof (digits_scaled M p j Hj HM) as HdMj.
  destruct (normal_mantissa p Hp) as [Hm0 Hd0].
  set (m0 := Z.to_pos (Zpos p * 2 ^ (53 - digits p))) in *.
  set (n := digits p + j - 53).
  assert (Hsh1 : shr_fexp prec emax (Zpos M) e loc_Exact
                 = (Build_shr_record (Zpos m0) false false, e + n)).
  { unfold shr_fexp. cbn [Zdigits2 shr_record_of_loc].
    change (Zpos (digits2_pos M)) with (digits M).
    rewrite fexp_normal by lia.
    replace (digits M + e - 53 - e) with n by (unfold n; lia).
    apply shr_exact; [unfold n; lia|].
    rewrite HM, Hm0, <- Z.mul_assoc, <- Z.pow_add_r by (unfold n; lia).
    f_equal. f_equal. unfold n. lia. }
  assert (Hsh2 : shr_fexp prec emax (Zpos m0) (e + n) loc_Exact
                 = (Build_shr_record (Zpos m0) false false, e + n)).
  { unfold shr_fexp. cbn [Zdigits2 shr_record_of_loc].
    change (Zpos (digits2_pos m0)) with (digits m0).
    rewrite Hd0, fexp_normal by (unfold n; lia).
    replace (53 + (e + n) - 53 - (e + n)) with 0 by lia. reflexivity. }
  unfold binary_round_aux. rewrite Hsh1.
  cbn [shr_m loc_of_shr_record round_nearest_even]. rewrite Hsh2. cbn [shr_m].
  replace (e + n <=? emax - prec) with true
    by (symmetry; apply Z.leb_le; unfold emax, prec, n; lia).
  unfold normal. fold m0. f_equal. unfold n. lia.
Qed.

Lemma round_exact (s : bool) (M : positive) (e : Z) (p : positive) (j : Z) :
  0 <= j -> Zpos M = Zpos p * 2 ^ j -> Zpos p < 2 ^ 53 ->
  -1020 <= e + j <= 971 ->
  binary_round prec emax s M e = normal s p (e + j).
Proof.
  intros Hj HM Hp Hq.
  pose proof (digits_le p 53 Hp) as Hdp. pose proof (digits_pos p) as Hdp1.
  pose proof (digits_scaled M p j Hj HM) as HdM.
  unfold binary_round, shl_align.
  change (Zpos (digits2_pos M)) with (digits M).
  rewrite fexp_normal by lia.
  destruct (digits M + e - 53 - e) as [|d|d] eqn:Ed.
  - apply round_aux_exact; auto. lia.
  - apply round_aux_exact; auto. lia.
  - replace (normal s p (e + j))
      with (normal s p ((digits M + e - 53) + (53 - digits p))) by (f_equal; lia).
    apply round_aux_exact; try lia.
    + rewrite pos_iter_xO_value, HM, <- Z.mul_assoc, <- Z.pow_add_r by lia.
      f_equal. f_equal. lia.
    + rewrite (digits_scaled (Pos.iter xO M d) M (Zpos d));
        [lia|lia|apply pos_iter_xO_value].
Qed.

End Rounding.

Section DyadicArithmetic.

Local Open Scope Z_scope.

Variable q : Z.
Hypothesis Hq : -1020 <= q <= 971.

Lemma dyadic_zero : dyadic 0 q = S754_zero false.
Proof. reflexivity. Qed.

Lemma dyadic_pos (p : positive) :
  Zpos p < 2 ^ 53 -> dyadic (Zpos p) q = normal false p q.
Proof.
  intros Hp. unfold dyadic, binary_normalize.
  replace (normal false p q) with (normal false p (q + 0)) by (f_equal; lia).
  apply round_exact; try lia.
Qed.

Lemma dyadic_neg (p : positive) :
  Zpos p < 2 ^ 53 -> dyadic (Zneg p) q = normal true p q.
Proof.
  intros Hp. unfold dyadic, binary_normalize.
  replace (normal true p q) with (normal true p (q + 0)) by (f_equal; lia).
  apply round_exact; try lia.
Qed.

(** What a finite grid number looks like: a sign, a mantissa and an
    exponent no larger than that of the grid, with its value. *)
Lemma dyadic_finite (z : Z) :
  z <> 0 -> Z.abs z < 2 ^ 53 ->
  exists m e,
    dyadic z q = S754_finite (z <? 0) m e
    /\ q - 52 <= e <= q
    /\ cond_Zopp (z <? 0) (Zpos m) = z * 2 ^ (q - e)
    /\ digits m = 53.
Proof.
  intros Hz Hb. destruct z as [|p|p]; [congruence| |].
  - rewrite (dyadic_pos p) by lia.
    destruct (normal_mantissa p) as [Hm Hd]; [lia|].
    pose proof (digits_le p 53) as Hdp. pose proof (digits_pos p).
    eexists _, _. split; [reflexivity|].
    split; [lia|]. split; [|exact Hd].
    cbn [Z.ltb Z.compare cond_Zopp]. rewrite Hm. f_equal. f_equal. lia.
  - rewrite (dyadic_neg p) by lia.
    destruct (normal_mantissa p) as [Hm Hd]; [lia|].
    pose proof (digits_le p 53) as Hdp. pose proof (digits_pos p).
    eexists _, _. split; [reflexivity|].
    split; [lia|]. split; [|exact Hd].
    cbn [Z.ltb Z.compare cond_Zopp]. rewrite Hm.
    replace (q - (q - (53 - digits p))) with (53 - digits p) by lia. lia.
Qed.

(** Normalising any integer multiple of a power of two that stands for a
    grid number gives that grid number. *)
Lemma normalize_scaled (M e z : Z) :
  e <= q -> M = z * 2 ^ (q - e) -> Z.abs z < 2 ^ 53 ->
  binary_normalize prec emax M e false = dyadic z q.
Proof.
  intros He HM Hb.
  assert (Hpow : 0 < 2 ^ (q - e)) by (apply Z.pow_pos_nonneg; lia).
  destruct z as [|p|p].
  - subst M. reflexivity.
  - rewrite (dyadic_pos p) by lia.
    destruct M as [|M|M]; try nia.
    cbn [binary_normalize].
    replace (normal false p q) with (normal false p (e + (q - e))) by (f_equal; lia).
    apply round_exact; try lia.
  - rewrite (dyadic_neg p) by lia.
    destruct M as [|M|M]; try nia.
    cbn [binary_normalize].
    replace (normal true p q) with (normal true p (e + (q - e))) by (f_equal; lia).
    apply round_exact; try lia.
Qed.

Lemma shl_align_value (m : positive) (e e' : Z) :
  e' <= e -> Zpos (fst (shl_align m e e')) = Zpos m * 2 ^ (e - e').
Proof.
  intros He. unfold shl_align.
  destruct (e' - e) as [|d|d] eqn:Ed; cbn [fst]; try lia.
  - replace (e - e') with 0 by lia. lia.
  - rewrite pos_iter_xO_value. f_equal. f_equal. lia.
Qed.

Lemma cond_Zopp_mul (s : bool) (a c : Z) : cond_Zopp s a * c = cond_Zopp s (a * c).
Proof. destruct s; cbn; lia. Qed.

Lemma aligned_value (z : Z) (s : bool) (m : positive) (e ez : Z) :
  ez <= e -> e <= q ->
  cond_Zopp s (Zpos m) = z * 2 ^ (q - e) ->
  cond_Zopp s (Zpos (fst (shl_align m e ez))) = z * 2 ^ (q - ez).
Proof.
  intros H1 H2 Hv.
  rewrite shl_align_value, <- cond_Zopp_mul, Hv by lia.
  rewrite <- Z.mul_assoc, <- Z.pow_add_r by lia. f_equal. f_equal. lia.
Qed.

Lemma add_dyadic (z1 z2 : Z) :
  Z.abs z1 < 2 ^ 53 -> Z.abs z2 < 2 ^ 53 -> Z.abs (z1 + z2) < 2 ^ 53 ->
  add (dyadic z1 q) (dyadic z2 q) = dyadic (z1 + z2) q.
Proof.
  intros H1 H2 H12.
  destruct (Z.eq_dec z1 0) as [->|N1].
  - rewrite dyadic_zero. cbn [Z.add].
    destruct (Z.eq_dec z2 0) as [->|N2]; [reflexivity|].
    destruct (dyadic_finite z2 N2 H2) as (m & e & -> & _). reflexivity.
  - destruct (dyadic_finite z1 N1 H1) as (m1 & e1 & E1 & He1 & V1 & _).
    destruct (Z.eq_dec z2 0) as [->|N2].
    + rewrite dyadic_zero, Z.add_0_r, E1. reflexivity.
    + destruct (dyadic_finite z2 N2 H2) as (m2 & e2 & E2 & He2 & V2 & _).
      rewrite E1, E2. unfold add. cbn [SFadd].
      apply normalize_scaled; try lia.
      rewrite (aligned_value z1 _ m1 e1 (Z.min e1 e2)) by (auto; lia).
      rewrite (aligned_value z2 _ m2 e2 (Z.min e1 e2)) by (auto; lia).
      lia.
Qed.

Lemma dyadic_opp (z : Z) :
  z <> 0 -> Z.abs z < 2 ^ 53 -> SFopp (dyadic z q) = dyadic (- z) q.
Proof.
  intros Hz Hb. destruct z as [|p|p]; [congruence| |].
  - cbn [Z.opp]. now rewrite dyadic_pos, dyadic_neg by lia.
  - cbn [Z.opp]. now rewrite dyadic_pos, dyadic_neg by lia.
Qed.

Lemma sub_dyadic (z1 z2 : Z) :
  Z.abs z1 < 2 ^ 53 -> Z.abs z2 < 2 ^ 53 -> Z.abs (z1 - z2) < 2 ^ 53 ->
  sub (dyadic z1 q) (dyadic z2 q) = dyadic (z1 - z2) q.
Proof.
  intros H1 H2 H12.
  destruct (Z.eq_dec z2 0) as [->|N2].
  - rewrite dyadic_zero, Z.sub_0_r.
    destruct (Z.eq_dec z1 0) as [->|N1]; [reflexivity|].
    destruct (dyadic_finite z1 N1 H1) as (m & e & -> & _). reflexivity.
  - destruct (Z.eq_dec z1 0) as [->|N1].
    + rewrite dyadic_zero. cbn [Z.sub Z.add].
      rewrite <- (dyadic_opp z2 N2 H2).
      destruct (dyadic_finite z2 N2 H2) as (m & e & -> & _). reflexivity.
    + destruct (dyadic_finite z1 N1 H1) as (m1 & e1 & E1 & He1 & V1 & _).
      destruct (dyadic_finite z2 N2 H2) as (m2 & e2 & E2 & He2 & V2 & _).
      rewrite E1, E2. unfold sub. cbn [SFsub].
      apply normalize_scaled; try lia.
      rewrite (aligned_value z1 _ m1 e1 (Z.min e1 e2)) by (auto; lia).
      rewrite (aligned_value z2 _ m2 e2 (Z.min e1 e2)) by (auto; lia).
      lia.
Qed.

End DyadicArithmetic.

Section DyadicProducts.

Local Open Scope Z_scope.

Variable q : Z.
Hypothesis Hq : -900 <= q <= 900.

(** A positive integer times a positive grid number. *)
Lemma mul_dyadic (i k : positive) :
  Zpos i * Zpos k < 2 ^ 53 ->
  mul (ofZ (Zpos i)) (dyadic (Zpos k) q) = dyadic (Zpos i * Zpos k) q.
Proof.
  intros Hik.
  assert (Hi : Zpos i < 2 ^ 53) by nia.
  assert (Hk : Zpos k < 2 ^ 53) by nia.
  change (ofZ (Zpos i)) with (dyadic (Zpos i) 0).
  rewrite (dyadic_pos 0) by lia. rewrite (dyadic_pos q) by lia.
  change (Zpos i * Zpos k) with (Zpos (i * k)).
  rewrite (dyadic_pos q) by (lia || (rewrite Pos2Z.inj_mul; lia)).
  destruct (normal_mantissa i Hi) as [Hmi Hdi].
  destruct (normal_mantissa k Hk) as [Hmk Hdk].
  pose proof (digits_le i 53 Hi) as Hdi'. pose proof (digits_le k 53 Hk) as Hdk'.
  unfold normal at 1 2. unfold mul. cbn [SFmul xorb].
  set (mi := Z.to_pos (Zpos i * 2 ^ (53 - digits i))) in *.
  set (mk := Z.to_pos (Zpos k * 2 ^ (53 - digits k))) in *.
  replace (normal false (i * k) q)
    with (normal false (i * k)
            ((0 - (53 - digits i) + (q - (53 - digits k)))
             + ((53 - digits i) + (53 - digits k)))) by (f_equal; lia).
  apply round_aux_exact; try lia.
  - rewrite !Pos2Z.inj_mul, Hmi, Hmk, Z.pow_add_r by lia. ring.
  - rewrite <- Hdi. apply digits_mono. nia.
Qed.

Lemma mul_zero_dyadic (k : positive) :
  Zpos k < 2 ^ 53 -> mul (ofZ 0) (dyadic (Zpos k) q) = dyadic 0 q.
Proof. intros Hk. rewrite (dyadic_pos q) by lia. reflexivity. Qed.

(** A positive grid number divided by a positive integer that divides
    it. *)
Lemma div_dyadic (w dv : positive) :
  Zpos w < 2 ^ 53 -> (Zpos dv | Zpos w) ->
  Float.div (dyadic (Zpos w) q) (ofZ (Zpos dv)) = dyadic (Zpos w / Zpos dv) q.
Proof.
  intros Hw [c Hc].
  assert (Hcpos : 0 < c) by nia.
  assert (Hdv : Zpos dv < 2 ^ 53) by nia.
  assert (Hquot : Zpos w / Zpos dv = c) by (rewrite Hc; apply Z.div_mul; lia).
  rewrite Hquot. destruct c as [|c|c]; try lia.
  assert (Hcb : Zpos c < 2 ^ 53) by nia.
  change (ofZ (Zpos dv)) with (dyadic (Zpos dv) 0).
  rewrite (dyadic_pos 0) by lia. rewrite !(dyadic_pos q) by lia.
  destruct (normal_mantissa w Hw) as [Hmw Hdw].
  destruct (normal_mantissa dv Hdv) as [Hmd Hdd].
  pose proof (digits_le w 53 Hw) as Hdw'. pose proof (digits_le dv 53 Hdv) as Hdd'.
  pose proof (digits_pos w). pose proof (digits_pos dv). pose proof (digits_pos c).
  unfold normal at 1 2. unfold Float.div. cbn [SFdiv xorb].
  set (mw := Z.to_pos (Zpos w * 2 ^ (53 - digits w))) in *.
  set (md := Z.to_pos (Zpos dv * 2 ^ (53 - digits dv))) in *.
  unfold SFdiv_core_binary. cbn [Zdigits2].
  change (Zpos (digits2_pos mw)) with (digits mw).
  change (Zpos (digits2_pos md)) with (digits md).
  rewrite Hdw, Hdd.
  set (e1 := q - (53 - digits w)). set (e2 := 0 - (53 - digits dv)).
  replace (53 + e1 - (53 + e2)) with (e1 - e2) by lia.
  rewrite fexp_normal by (unfold e1, e2; lia).
  replace (Z.min (e1 - e2 - 53) (e1 - e2)) with (e1 - e2 - 53) by lia.
  replace (e1 - e2 - (e1 - e2 - 53)) with 53 by lia.
  cbv iota beta.
  rewrite Z.shiftl_mul_pow2 by lia.
  set (j := 53 - digits w + 53 - (53 - digits dv)).
  assert (Hj : 0 <= j) by (unfold j; lia).
  assert (Hnum : Zpos mw * 2 ^ 53 = (Zpos c * 2 ^ j) * Zpos md).
  { rewrite Hmw, Hmd, Hc. unfold j.
    replace (53 - digits w + 53 - (53 - digits dv))
      with ((53 - digits w) + digits dv) by lia.
    rewrite Z.pow_add_r by lia.
    replace (2 ^ 53) with (2 ^ digits dv * 2 ^ (53 - digits dv))
      by (rewrite <- Z.pow_add_r by lia; f_equal; lia).
    ring. }
  assert (Hpowj : 0 < 2 ^ j) by (apply Z.pow_pos_nonneg; lia).
  pose proof (Z.div_eucl_eq (Zpos mw * 2 ^ 53) (Zpos md) ltac:(lia)) as Heq.
  pose proof (Z.mod_pos_bound (Zpos mw * 2 ^ 53) (Zpos md) ltac:(lia)) as Hmod.
  unfold Z.modulo in Hmod.
  destruct (Z.div_eucl (Zpos mw * 2 ^ 53) (Zpos md)) as [qu r] eqn:Ediv.
  assert (Hr : r = 0 /\ qu = Zpos c * 2 ^ j).
  { assert (Hz : (qu - Zpos c * 2 ^ j) * Zpos md + r = 0) by lia.
    assert (qu - Zpos c * 2 ^ j = 0) by nia. split; nia. }
  destruct Hr as [-> ->].
  assert (Hloc : new_location (Zpos md) 0 = loc_Exact).
  { unfold new_location, new_location_even, new_location_odd.
    now destruct (Z.even (Zpos md)). }
  rewrite Hloc.
  assert (HM : exists M, Zpos c * 2 ^ j = Zpos M).
  { exists (Z.to_pos (Zpos c * 2 ^ j)). rewrite Z2Pos.id by nia. reflexivity. }
  destruct HM as [M HM]. rewrite HM.
  replace (normal false c q) with (normal false c ((e1 - e2 - 53) + j))
    by (f_equal; unfold e1, e2, j; lia).
  apply round_aux_exact; try lia.
  - rewrite (digits_scaled M c j); [|lia|lia].
    assert (Hdc : digits w <= digits c + digits dv).
    { apply digits_le. rewrite Hc.
      pose proof (digits_spec c) as [_ Hc2]. pose proof (digits_spec dv) as [_ Hd2].
      rewrite Z.pow_add_r by lia. nia. }
    unfold j. lia.
Qed.

Lemma dyadic_nonzero (k : positive) :
  Zpos k < 2 ^ 53 -> Float.eqb (dyadic (Zpos k) q) (S754_zero false) = false.
Proof. intros Hk. rewrite (dyadic_pos q) by lia. reflexivity. Qed.

Lemma normal_lt (p1 p2 : positive) :
  Zpos p1 < Zpos p2 -> Zpos p2 < 2 ^ 53 ->
  SFcompare (normal false p1 q) (normal false p2 q) = Some Lt
  /\ SFcompare (normal true p2 q) (normal true p1 q) = Some Lt.
Proof.
  intros H12 H2.
  assert (H1 : Zpos p1 < 2 ^ 53) by lia.
  destruct (normal_mantissa p1 H1) as [Hm1 _].
  destruct (normal_mantissa p2 H2) as [Hm2 _].
  pose proof (digits_mono p1 p2 ltac:(lia)) as Hd.
  pose proof (digits_le p2 53 H2) as Hd2.
  unfold normal. cbn [SFcompare].
  set (m1 := Z.to_pos (Zpos p1 * 2 ^ (53 - digits p1))) in *.
  set (m2 := Z.to_pos (Zpos p2 * 2 ^ (53 - digits p2))) in *.
  destruct (Z.eq_dec (digits p1) (digits p2)) as [E|N].
  - rewrite E, Z.compare_refl.
    assert (Hlt : (m1 < m2)%positive).
    { assert (HZ : Zpos m1 < Zpos m2); [|lia].
      rewrite Hm1, Hm2, E.
      assert (0 < 2 ^ (53 - digits p2)) by (apply Z.pow_pos_nonneg; lia). nia. }
    change (Pos.compare_cont Eq m1 m2) with (Pos.compare m1 m2).
    change (Pos.compare_cont Eq m2 m1) with (Pos.compare m2 m1).
    rewrite (proj2 (Pos.compare_lt_iff m1 m2) Hlt).
    rewrite (proj2 (Pos.compare_gt_iff m2 m1) Hlt). split; reflexivity.
  - assert (Hc : (q - (53 - digits p1) ?= q - (53 - digits p2)) = Lt)
      by (apply Z.compare_lt_iff; lia).
    assert (Hc' : (q - (53 - digits p2) ?= q - (53 - digits p1)) = Gt)
      by (apply Z.compare_gt_iff; lia).
    rewrite Hc, Hc'. split; reflexivity.
Qed.

(** The order of grid numbers is the order of their numerators. *)
Lemma ltb_dyadic (z1 z2 : Z) :
  z1 < z2 -> Z.abs z1 < 2 ^ 53 -> Z.abs z2 < 2 ^ 53 ->
  Float.ltb (dyadic z1 q) (dyadic z2 q) = true.
Proof.
  intros H12 H1 H2. unfold Float.ltb, SFltb.
  destruct z1 as [|p1|p1], z2 as [|p2|p2]; try lia;
    rewrite ?dyadic_zero, ?(dyadic_pos q), ?(dyadic_neg q) by lia;
    try reflexivity.
  - now rewrite (proj1 (normal_lt p1 p2 ltac:(lia) ltac:(lia))).
  - now rewrite (proj2 (normal_lt p2 p1 ltac:(lia) ltac:(lia))).
Qed.

End DyadicProducts.

Section GridSamples.

Local Open Scope Z_scope.

Lemma setLast_app (l : list float) (v stop : float) :
  setLast (l ++ [v]) stop = l ++ [stop].
Proof.
  induction l as [|w l IH]; [reflexivity|].
  cbn [app]. destruct (l ++ [v]) as [|w' l'] eqn:E.
  - now destruct l.
  - cbn [setLast]. cbn [setLast] in IH. rewrite <- IH. reflexivity.
Qed.

Lemma increasing_map (f : nat -> float) (s len : nat) :
  (forall i, (s <= i)%nat -> (S i < s + len)%nat -> Float.ltb (f i) (f (S i)) = true) ->
  increasing (List.map f (seq s len)) = true.
Proof.
  revert s. induction len as [|len IH]; intros s H; [reflexivity|].
  cbn [seq List.map]. destruct len as [|len]; [reflexivity|].
  cbn [seq List.map increasing]. cbn [seq List.map] in IH.
  rewrite (H s) by lia. cbn [andb].
  apply (IH (S s)). intros i H1 H2. apply H; lia.
Qed.

Variables a b q n : Z.
Hypothesis Hg : onGrid a b q n.

Lemma onGrid_step :
  exists k, 0 < k /\ (b - a) / (n - 1) = k /\ b - a = k * (n - 1).
Proof.
  destruct Hg as (_ & _ & Hab & _ & Hn & [c Hc]).
  exists c. assert (0 < c) by nia.
  split; [assumption|]. split; [|exact Hc].
  rewrite Hc. apply Z.div_mul. lia.
Qed.

Lemma gridPoint_sum (i : nat) :
  (Z.of_nat i <= n - 1) ->
  add (mul (ofZ (Z.of_nat i)) (dyadic ((b - a) / (n - 1)) q)) (dyadic a q)
  = dyadic (a + Z.of_nat i * ((b - a) / (n - 1))) q.
Proof.
  intros Hi. destruct onGrid_step as (k & Hk & -> & Hba).
  destruct Hg as (Hq & Ha & Hab & Hb & Hn & _). unfold gridExponent in Hq.
  assert (Hik : Z.of_nat i * k <= b - a) by nia.
  assert (H52 : 2 ^ 53 = 2 * 2 ^ 52) by reflexivity.
  destruct k as [|k|k]; try lia.
  assert (Hprod : mul (ofZ (Z.of_nat i)) (dyadic (Zpos k) q)
                  = dyadic (Z.of_nat i * Zpos k) q).
  { destruct (Z.of_nat i) as [|p|p] eqn:Ei; try lia.
    - apply mul_zero_dyadic; nia.
    - apply mul_dyadic; lia. }
  rewrite Hprod, add_dyadic by lia.
  f_equal. lia.
Qed.

Lemma linspace_onGrid :
  linspace (dyadic a q) (dyadic b q) n = PyOk (gridSamples a b q n).
Proof.
  destruct onGrid_step as (k & Hk & Hdiv & Hba).
  pose proof Hg as (Hq & Ha & Hab & Hb & Hn & Hd). unfold gridExponent in Hq.
  assert (H52 : 2 ^ 53 = 2 * 2 ^ 52) by reflexivity.
  unfold linspace.
  replace (n <? 0) with false by (symmetry; apply Z.ltb_ge; lia).
  replace (0 <? n - 1) with true by (symmetry; apply Z.ltb_lt; lia).
  replace (1 <? n) with true by (symmetry; apply Z.ltb_lt; lia).
  rewrite sub_dyadic by lia.
  assert (Hstep : Float.div (dyadic (b - a) q) (ofZ (n - 1))
                  = dyadic ((b - a) / (n - 1)) q).
  { destruct (b - a) as [|w|w] eqn:Ew; try lia.
    destruct (n - 1) as [|dv|dv] eqn:Edv; try lia.
    apply div_dyadic; [lia|lia|exact Hd]. }
  rewrite Hstep.
  assert (Hnz : Float.eqb (dyadic ((b - a) / (n - 1)) q) (S754_zero false) = false).
  { rewrite Hdiv. destruct k as [|k|k]; try lia. apply dyadic_nonzero; nia. }
  rewrite Hnz. unfold arange. rewrite !List.map_map.
  assert (Hpts : List.map
                   (fun i => add (mul (ofZ (Z.of_nat i)) (dyadic ((b - a) / (n - 1)) q))
                                 (dyadic a q))
                   (seq 0 (Z.to_nat n))
                 = gridSamples a b q n).
  { unfold gridSamples. apply List.map_ext_in. intros i Hi.
    apply in_seq in Hi. apply gridPoint_sum. lia. }
  rewrite Hpts. f_equal.
  unfold gridSamples.
  replace (Z.to_nat n) with (S (Z.to_nat (n - 1))) by lia.
  rewrite seq_S, List.map_app. cbn [List.map Nat.add].
  rewrite setLast_app. f_equal. f_equal. f_equal.
  rewrite Z2Nat.id by lia. rewrite Hdiv. lia.
Qed.

Lemma gridSamples_increasing : increasing (gridSamples a b q n) = true.
Proof.
  destruct onGrid_step as (k & Hk & Hdiv & Hba).
  pose proof Hg as (Hq & Ha & Hab & Hb & Hn & Hd). unfold gridExponent in Hq.
  assert (H52 : 2 ^ 53 = 2 * 2 ^ 52) by reflexivity.
  unfold gridSamples. apply increasing_map. intros i _ Hi.
  rewrite Hdiv. apply ltb_dyadic; nia.
Qed.

Lemma pyNumber_dyadic (z : Z) :
  Z.abs z < 2 ^ 53 -> pyNumber (dyadic z q) = PyOk (dyadic z q).
Proof.
  intros Hz. destruct Hg as (Hq & _). unfold gridExponent in Hq.
  destruct z as [|p|p].
  - reflexivity.
  - rewrite (dyadic_pos q) by lia. reflexivity.
  - rewrite (dyadic_neg q) by lia. reflexivity.
Qed.

End GridSamples.

Set Implicit Arguments.




(* ================================================================== *)
(** * Properties of the normaliser *)
(* ================================================================== *)

Unset Implicit Arguments.

Section ScanFacts.

Lemma replaceAllFrom_skipn (m : matcher) (k : nat) (s : jsstring) :
  replaceAllFrom m k s = replaceAll m (skipn k s).
Proof.
  revert k. induction s as [|c tl IH]; intros [|k]; try reflexivity.
  simpl. apply IH.
Qed.

(** The scan, one step at a time. *)
Lemma replaceAll_nil (m : matcher) : replaceAll m [] = [].
Proof. reflexivity. Qed.

Lemma replaceAll_miss (m : matcher) (c : char) (tl : jsstring) :
  m (c :: tl) = None -> replaceAll m (c :: tl) = c :: replaceAll m tl.
Proof. intros H. unfold replaceAll. simpl. now rewrite H. Qed.

Lemma replaceAll_hit (m : matcher) (s rep : jsstring) (n : nat) :
  consuming m -> m s = Some (rep, n) ->
  replaceAll m s = rep ++ replaceAll m (skipn n s).
Proof.
  intros Hm H. destruct (Hm _ _ _ H) as [Hn _].
  destruct s as [|c tl]; [simpl in *; pose proof (Hm _ _ _ H); simpl in *; lia|].
  unfold replaceAll at 1. simpl. rewrite H. rewrite replaceAllFrom_skipn.
  destruct n as [|n]; [lia|]. reflexivity.
Qed.

(** Induction along the scan. *)
Lemma replaceAll_ind (m : matcher) (P : jsstring -> jsstring -> Prop) :
  consuming m ->
  P [] [] ->
  (forall c tl, m (c :: tl) = None ->
     P tl (replaceAll m tl) -> P (c :: tl) (c :: replaceAll m tl)) ->
  (forall s rep n, m s = Some (rep, n) ->
     P (skipn n s) (replaceAll m (skipn n s)) ->
     P s (rep ++ replaceAll m (skipn n s))) ->
  forall s, P s (replaceAll m s).
Proof.
  intros Hm Hnil Hmiss Hhit s.
  remember (length s) as k eqn:Hk.
  revert s Hk. induction k as [k IH] using lt_wf_ind. intros s Hk.
  destruct s as [|c tl]; [exact Hnil|].
  destruct (m (c :: tl)) as [[rep n]|] eqn:E.
  - rewrite (replaceAll_hit _ _ _ _ Hm E). apply Hhit; [exact E|].
    destruct (Hm _ _ _ E) as [Hn Hl].
    apply (IH (length (skipn n (c :: tl)))); [|reflexivity].
    rewrite length_skipn. subst k. cbn [length] in *. lia.
  - rewrite (replaceAll_miss _ _ _ E). apply Hmiss; [exact E|].
    apply (IH (length tl)); [|reflexivity]. subst k. simpl. lia.
Qed.

(** The part of the subject a match covers. *)
Lemma skipn_firstn_split (n : nat) (s : jsstring) :
  s = firstn n s ++ skipn n s.
Proof. symmetry. apply firstn_skipn. Qed.

Lemma takeWs_dropWs (s : jsstring) : takeWs s ++ dropWs s = s.
Proof.
  induction s as [|c tl IH]; simpl; [reflexivity|].
  destruct (isWs c); simpl; [now rewrite IH|reflexivity].
Qed.

Lemma takeWs_all (s : jsstring) : forallb isWs (takeWs s) = true.
Proof.
  induction s as [|c tl IH]; simpl; [reflexivity|].
  destruct (isWs c) eqn:E; simpl; [now rewrite E|reflexivity].
Qed.

Lemma dropWs_head (s : jsstring) (c : char) (tl : jsstring) :
  dropWs s = c :: tl -> isWs c = false.
Proof.
  induction s as [|d s IH]; simpl; [discriminate|].
  destruct (isWs d) eqn:E; [exact IH|]. intros H. now injection H as <- <-.
Qed.

Lemma skipn_takeWs (s : jsstring) : skipn (length (takeWs s)) s = dropWs s.
Proof.
  induction s as [|c tl IH]; simpl; [reflexivity|].
  destruct (isWs c); simpl; [exact IH|reflexivity].
Qed.

Lemma firstn_takeWs (s : jsstring) : firstn (length (takeWs s)) s = takeWs s.
Proof.
  induction s as [|c tl IH]; simpl; [reflexivity|].
  destruct (isWs c); simpl; [now rewrite IH|reflexivity].
Qed.

Lemma length_takeWs (s : jsstring) : (length (takeWs s) <= length s)%nat.
Proof.
  induction s as [|c tl IH]; simpl; [lia|]. destruct (isWs c); simpl; lia.
Qed.

Lemma length_dropWs (s : jsstring) :
  (length (takeWs s) + length (dropWs s) = length s)%nat.
Proof. rewrite <- length_app. now rewrite takeWs_dropWs. Qed.

End ScanFacts.

(** Facts about the character classes are range arithmetic on code units. *)
Ltac bool_to_prop :=
  repeat rewrite ?andb_true_iff, ?orb_true_iff, ?andb_false_iff,
    ?orb_false_iff, ?negb_true_iff, ?negb_false_iff,
    ?N.leb_le, ?N.leb_gt, ?N.eqb_eq, ?N.eqb_neq in *.

Ltac unfold_classes :=
  unfold isAlnum, isLetter, isDigit, isWs, between,
    caret, star, lparen, rparen, equals, minus, space in *.

Ltac classes :=
  try (apply not_true_iff_false; intro);
  unfold_classes; bool_to_prop; lia.

Section ClassFacts.

Local Open Scope N_scope.

Lemma digit_not_ws (c : char) : isDigit c = true -> isWs c = false.
Proof. intros H. classes. Qed.

Lemma letter_not_ws (c : char) : isLetter c = true -> isWs c = false.
Proof. intros H. classes. Qed.

Lemma alnum_not_ws (c : char) : isAlnum c = true -> isWs c = false.
Proof. intros H. classes. Qed.

Lemma digit_not_letter (c : char) : isDigit c = true -> isLetter c = false.
Proof. intros H. classes. Qed.

Lemma eqb_sym (a b : char) : (a =? b) = (b =? a).
Proof. apply N.eqb_sym. Qed.

End ClassFacts.

Section MatcherFacts.

Local Open Scope N_scope.

Lemma reCaret_consuming : consuming reCaret.
Proof.
  intros [|c tl] rep n; simpl; [discriminate|].
  destruct (c =? caret); [|discriminate].
  intros H. injection H as <- <-. simpl. lia.
Qed.

Lemma reDigitLetter_consuming : consuming reDigitLetter.
Proof.
  intros [|d [|l tl]] rep n; simpl; try discriminate.
  destruct (isDigit d && isLetter l); [|discriminate].
  intros H. injection H as <- <-. simpl. lia.
Qed.

Lemma reCloseAlnum_consuming : consuming reCloseAlnum.
Proof.
  intros [|c tl] rep n; simpl; [discriminate|].
  destruct (c =? rparen); [|discriminate].
  destruct (dropWs tl) as [|a r] eqn:E; [discriminate|].
  destruct (isAlnum a); [|discriminate].
  intros H. injection H as <- <-.
  pose proof (length_dropWs tl) as Hl. rewrite E in Hl. simpl in *. lia.
Qed.

Lemma reDigitOpen_consuming : consuming reDigitOpen.
Proof.
  intros [|c tl] rep n; simpl; [discriminate|].
  destruct (isDigit c); [|discriminate].
  destruct (dropWs tl) as [|a r] eqn:E; [discriminate|].
  destruct (a =? lparen); [|discriminate].
  intros H. injection H as <- <-.
  pose proof (length_dropWs tl) as Hl. rewrite E in Hl. simpl in *. lia.
Qed.

Lemma reCloseOpen_consuming : consuming reCloseOpen.
Proof.
  intros [|c tl] rep n; simpl; [discriminate|].
  destruct (c =? rparen); [|discriminate].
  destruct (dropWs tl) as [|a r] eqn:E; [discriminate|].
  destruct (a =? lparen); [|discriminate].
  intros H. injection H as <- <-.
  pose proof (length_dropWs tl) as Hl. rewrite E in Hl. simpl in *. lia.
Qed.

Lemma reSpaces_consuming : consuming reSpaces.
Proof.
  intros [|c tl] rep n; simpl; [discriminate|].
  destruct (isWs c); [|discriminate].
  intros H. injection H as <- <-.
  pose proof (length_takeWs tl). simpl. lia.
Qed.

Lemma reEquals_consuming : consuming reEquals.
Proof.
  intros s rep n. unfold reEquals.
  destruct (dropWs s) as [|c tl] eqn:E; [discriminate|].
  destruct (c =? equals); [|discriminate].
  intros H. injection H as <- <-.
  pose proof (length_dropWs s) as Hl. rewrite E in Hl.
  pose proof (length_takeWs tl). simpl in *. lia.
Qed.

End MatcherFacts.

(** C9.  For every value that is not a string, [parseExpression] returns
    that value unchanged: nothing is raised and nothing is coerced. *)
Theorem C9_non_string_unchanged (v : JsValue) :
  typeofString v = false -> parseExpression v = v.
Proof. destruct v; simpl; intros H; try reflexivity. discriminate H. Qed.

Lemma C9_non_string_witness :
  parseExpression (JsNumber (ofZ 42)) = JsNumber (ofZ 42)
  /\ parseExpression JsUndefined = JsUndefined.
Proof.
  split.
  - apply (C9_non_string_unchanged (JsNumber (ofZ 42))). reflexivity.
  - apply (C9_non_string_unchanged JsUndefined). reflexivity.
Defined.

Section Evaluation.

Import Operational.

Variable m : matcher.
Hypothesis Hm : consuming m.

Lemma exec_none (s : jsstring) : exec m s = None -> replaceAll m s = s.
Proof.
  induction s as [|c tl IH]; [intros _; apply replaceAll_nil|].
  cbn [exec]. destruct (m (c :: tl)) as [[rep n]|] eqn:E; [discriminate|].
  destruct (exec m tl) as [r|]; [discriminate|]. intros _.
  rewrite (replaceAll_miss m c tl E). now rewrite IH.
Qed.

Lemma exec_some (s : jsstring) (r : Match) :
  exec m s = Some r ->
  s = before r ++ from r
  /\ m (from r) = Some (expansion r, matched r)
  /\ replaceAll m s = before r ++ replaceAll m (from r).
Proof.
  revert r. induction s as [|c tl IH]; intros r; cbn [exec].
  - destruct (m []) as [[rep n]|] eqn:E; [|discriminate].
    intros H. injection H as <-. cbn. auto.
  - destruct (m (c :: tl)) as [[rep n]|] eqn:E.
    + intros H. injection H as <-. cbn. auto.
    + destruct (exec m tl) as [r'|] eqn:Er; [|discriminate].
      intros H. injection H as <-. cbn [before expansion matched from].
      destruct (IH r' eq_refl) as (Hs & Hr & Hall).
      rewrite (replaceAll_miss m c tl E), Hall.
      split; [now rewrite Hs at 1|]. split; [exact Hr|reflexivity].
Qed.

(** The loop ends: every iteration leaves a shorter subject, so one
    iteration more than there are units is enough, and the result is that
    of the folded scan. *)
Lemma replaceGlobal_ends (fuel : nat) (s : jsstring) :
  (length s < fuel)%nat -> replaceGlobal fuel m s = Normal (replaceAll m s).
Proof.
  revert s. induction fuel as [|k IH]; intros s Hf; [lia|].
  cbn [replaceGlobal].
  destruct (exec m s) as [r|] eqn:E; [|now rewrite (exec_none s E)].
  destruct (exec_some s r E) as (Hs & Hr & Hall).
  destruct (Hm _ _ _ Hr) as [Hn1 Hn2].
  destruct (matched r) as [|n] eqn:En; [lia|].
  assert (Hlen : (length (skipn (S n) (from r)) < k)%nat).
  { rewrite length_skipn. rewrite Hs, length_app in Hf. lia. }
  rewrite (IH _ Hlen). cbn [andThen].
  now rewrite Hall, (replaceAll_hit m (from r) (expansion r) (S n) Hm Hr).
Qed.

Lemma replaceOnce_replaceFirst (s : jsstring) : replaceOnce m s = replaceFirst m s.
Proof.
  unfold replaceOnce.
  induction s as [|c tl IH]; cbn [exec replaceFirst].
  - destruct (m []) as [[rep n]|]; reflexivity.
  - destruct (m (c :: tl)) as [[rep n]|]; [reflexivity|].
    destruct (exec m tl) as [r|]; cbn [before expansion matched from];
      now rewrite <- IH.
Qed.

Hypothesis Hd : doubling m.

Lemma replaceAll_length (s : jsstring) :
  (length (replaceAll m s) <= 2 * length s)%nat.
Proof.
  apply (replaceAll_ind m (fun s out => (length out <= 2 * length s)%nat) Hm).
  - cbn. lia.
  - intros c tl _ IH. cbn [length]. lia.
  - intros t rep n E IH.
    pose proof (Hd _ _ _ E) as Hrep. destruct (Hm _ _ _ E) as [_ Hn].
    rewrite length_app. rewrite length_skipn in IH. lia.
Qed.

End Evaluation.

Section Doubling.

Local Open Scope N_scope.

Lemma reCaret_doubling : doubling reCaret.
Proof.
  intros [|c tl] rep n; cbn; [discriminate|].
  destruct (c =? caret); [|discriminate]. intros H. injection H as <- <-. cbn. lia.
Qed.

Lemma reDigitLetter_doubling : doubling reDigitLetter.
Proof.
  intros [|d [|l tl]] rep n; cbn; try discriminate.
  destruct (isDigit d && isLetter l); [|discriminate].
  intros H. injection H as <- <-. cbn. lia.
Qed.

Lemma reCloseAlnum_doubling : doubling reCloseAlnum.
Proof.
  intros [|c tl] rep n; cbn [reCloseAlnum]; [discriminate|].
  destruct (c =? rparen); [|discriminate].
  destruct (dropWs tl) as [|a r]; [discriminate|].
  destruct (isAlnum a); [|discriminate].
  intros H. injection H as <- <-. cbn [length]. rewrite length_app. cbn. lia.
Qed.

Lemma reDigitOpen_doubling : doubling reDigitOpen.
Proof.
  intros [|c tl] rep n; cbn [reDigitOpen]; [discriminate|].
  destruct (isDigit c); [|discriminate].
  destruct (dropWs tl) as [|a r]; [discriminate|].
  destruct (a =? lparen); [|discriminate].
  intros H. injection H as <- <-. cbn. lia.
Qed.

Lemma reCloseOpen_doubling : doubling reCloseOpen.
Proof.
  intros [|c tl] rep n; cbn [reCloseOpen]; [discriminate|].
  destruct (c =? rparen); [|discriminate].
  destruct (dropWs tl) as [|a r]; [discriminate|].
  destruct (a =? lparen); [|discriminate].
  intros H. injection H as <- <-. cbn. lia.
Qed.

Lemma trimEnd_length (s : jsstring) : (length (trimEnd s) <= length s)%nat.
Proof.
  induction s as [|c tl IH]; [reflexivity|]. cbn [trimEnd].
  destruct (trimEnd tl) as [|d r].
  - destruct (isWs c); cbn [length]; lia.
  - cbn [length] in *. lia.
Qed.

Lemma trim_length (s : jsstring) : (length (trim s) <= length s)%nat.
Proof.
  unfold trim, trimStart.
  pose proof (trimEnd_length (dropWs s)). pose proof (length_dropWs s). lia.
Qed.

End Doubling.



(** Without room for its iterations a loop is cut short. *)
Example replaceGlobal_cut_short :
  Operational.parseExpression 2 (JsString (js "a^b^c")) = Operational.Unfinished.
Proof. reflexivity. Qed.

Section FilterFacts.

Local Open Scope N_scope.

Lemma replaceAll_filter (keep : char -> bool) (m : matcher) :
  consuming m -> respects keep m ->
  forall s, filter keep (replaceAll m s) = filter keep s.
Proof.
  intros Hm Hr s. apply (replaceAll_ind m (fun s out => filter keep out = filter keep s) Hm).
  - reflexivity.
  - intros c tl _ IH. simpl. now rewrite IH.
  - intros t rep n E IH.
    rewrite filter_app, IH, (Hr _ _ _ E), <- filter_app.
    now rewrite firstn_skipn.
Qed.

Lemma filter_ws (keep : char -> bool) (w : jsstring) :
  (forall c, isWs c = true -> keep c = false) ->
  forallb isWs w = true -> filter keep w = [].
Proof.
  intros Hk. induction w as [|c w IH]; simpl; [reflexivity|].
  intros H. apply andb_true_iff in H as [Hc Hw].
  rewrite (Hk c Hc). now apply IH.
Qed.

Lemma filter_takeWs (keep : char -> bool) (s : jsstring) :
  (forall c, isWs c = true -> keep c = false) ->
  filter keep (takeWs s) = [].
Proof. intros Hk. apply filter_ws; [exact Hk|apply takeWs_all]. Qed.

Lemma filter_dropWs (keep : char -> bool) (s : jsstring) :
  (forall c, isWs c = true -> keep c = false) ->
  filter keep (dropWs s) = filter keep s.
Proof.
  intros Hk. rewrite <- (takeWs_dropWs s) at 2.
  now rewrite filter_app, filter_takeWs.
Qed.

Lemma filter_trimEnd (keep : char -> bool) (s : jsstring) :
  (forall c, isWs c = true -> keep c = false) ->
  filter keep (trimEnd s) = filter keep s.
Proof.
  intros Hk. induction s as [|c tl IH]; simpl; [reflexivity|].
  destruct (trimEnd tl) as [|d r] eqn:E.
  - simpl in IH. rewrite <- IH.
    destruct (isWs c) eqn:Hc; simpl; [now rewrite (Hk c Hc)|].
    now destruct (keep c).
  - simpl. rewrite <- IH. reflexivity.
Qed.

Lemma filter_trim (keep : char -> bool) (s : jsstring) :
  (forall c, isWs c = true -> keep c = false) ->
  filter keep (trim s) = filter keep s.
Proof.
  intros Hk. unfold trim, trimStart.
  now rewrite filter_trimEnd, filter_dropWs.
Qed.

(** The units a match of [x \s* y] covers. *)
Lemma firstn_gap (c : char) (tl : jsstring) (a : char) (r : jsstring) :
  dropWs tl = a :: r ->
  firstn (S (S (length (takeWs tl)))) (c :: tl) = c :: takeWs tl ++ [a].
Proof.
  intros E. cbn [firstn]. f_equal. revert E.
  induction tl as [|d tl IH]; cbn [dropWs takeWs]; [discriminate|].
  destruct (isWs d).
  - intros E. cbn [length firstn app]. f_equal. now apply IH.
  - intros E. injection E as -> ->. reflexivity.
Qed.

Lemma skipn_gap (c : char) (tl : jsstring) (a : char) (r : jsstring) :
  dropWs tl = a :: r ->
  skipn (S (S (length (takeWs tl)))) (c :: tl) = r.
Proof.
  intros E. cbn [skipn]. revert E.
  induction tl as [|d tl IH]; cbn [dropWs takeWs]; [discriminate|].
  destruct (isWs d).
  - intros E. cbn [length skipn]. now apply IH.
  - intros E. injection E as -> ->. reflexivity.
Qed.

Variable keep : char -> bool.
Hypothesis Hs : keep star = false.
Hypothesis Hw : forall c, isWs c = true -> keep c = false.

Lemma reCaret_respects : keep caret = false -> respects keep reCaret.
Proof.
  intros Hc [|c tl] rep n; simpl; [discriminate|].
  destruct (c =? caret) eqn:E; [|discriminate].
  apply N.eqb_eq in E. subst c.
  intros H. injection H as <- <-. simpl. now rewrite Hs, Hc.
Qed.

Lemma reDigitLetter_respects : respects keep reDigitLetter.
Proof.
  intros [|d [|l tl]] rep n; simpl; try discriminate.
  destruct (isDigit d && isLetter l); [|discriminate].
  intros H. injection H as <- <-. simpl. now rewrite Hs.
Qed.

Lemma reCloseAlnum_respects : respects keep reCloseAlnum.
Proof.
  intros [|c tl] rep n; cbn [reCloseAlnum]; [discriminate|].
  destruct (c =? rparen) eqn:Ec; [|discriminate].
  destruct (dropWs tl) as [|a r] eqn:E; [discriminate|].
  destruct (isAlnum a); [|discriminate].
  apply N.eqb_eq in Ec. subst c.
  intros H. injection H as <- <-.
  rewrite (firstn_gap _ _ _ _ E). simpl. now rewrite Hs.
Qed.

Lemma reDigitOpen_respects : respects keep reDigitOpen.
Proof.
  intros [|c tl] rep n; cbn [reDigitOpen]; [discriminate|].
  destruct (isDigit c); [|discriminate].
  destruct (dropWs tl) as [|a r] eqn:E; [discriminate|].
  destruct (a =? lparen) eqn:Ea; [|discriminate].
  apply N.eqb_eq in Ea. subst a.
  intros H. injection H as <- <-.
  rewrite (firstn_gap _ _ _ _ E). simpl.
  rewrite Hs, filter_app, (filter_takeWs keep tl Hw). reflexivity.
Qed.

Lemma reCloseOpen_respects : respects keep reCloseOpen.
Proof.
  intros [|c tl] rep n; cbn [reCloseOpen]; [discriminate|].
  destruct (c =? rparen) eqn:Ec; [|discriminate].
  destruct (dropWs tl) as [|a r] eqn:E; [discriminate|].
  destruct (a =? lparen) eqn:Ea; [|discriminate].
  apply N.eqb_eq in Ea. subst a. apply N.eqb_eq in Ec. subst c.
  intros H. injection H as <- <-.
  rewrite (firstn_gap _ _ _ _ E). simpl.
  rewrite Hs, filter_app, (filter_takeWs keep tl Hw). reflexivity.
Qed.

End FilterFacts.

Section FilterSteps.

Variable keep : char -> bool.
Hypothesis Hw : forall c, isWs c = true -> keep c = false.

Lemma reSpaces_respects : respects keep reSpaces.
Proof.
  intros [|c tl] rep n; cbn [reSpaces]; [discriminate|].
  destruct (isWs c) eqn:Ec; [|discriminate].
  intros H. injection H as <- <-.
  cbn [firstn filter]. rewrite (Hw c Ec), (Hw space eq_refl).
  rewrite firstn_takeWs. now rewrite (filter_takeWs keep tl Hw).
Qed.

Hypothesis Hs : keep star = false.

(** Lines 22 to 26 change nothing but white space and [*]. *)
Lemma insertMarks_filter (s : jsstring) :
  filter keep
    (replaceAll reSpaces
       (replaceAll reCloseOpen
          (replaceAll reDigitOpen
             (replaceAll reCloseAlnum (replaceAll reDigitLetter s)))))
  = filter keep s.
Proof.
  rewrite (replaceAll_filter keep _ reSpaces_consuming reSpaces_respects).
  rewrite (replaceAll_filter keep _ reCloseOpen_consuming
             (reCloseOpen_respects keep Hs Hw)).
  rewrite (replaceAll_filter keep _ reDigitOpen_consuming
             (reDigitOpen_respects keep Hs Hw)).
  rewrite (replaceAll_filter keep _ reCloseAlnum_consuming
             (reCloseAlnum_respects keep Hs)).
  apply (replaceAll_filter keep _ reDigitLetter_consuming
           (reDigitLetter_respects keep Hs)).
Qed.

Hypothesis Hc : keep caret = false.

(** Lines 20 to 26 change nothing but white space, [*] and [^]. *)
Lemma rewriteOperators_filter (s : jsstring) :
  filter keep (rewriteOperators s) = filter keep s.
Proof.
  unfold rewriteOperators. rewrite insertMarks_filter.
  rewrite (replaceAll_filter keep _ reCaret_consuming
             (reCaret_respects keep Hs Hc)).
  now apply filter_trim.
Qed.

End FilterSteps.


Section EquationFacts.

Local Open Scope N_scope.

Lemma includes_In (c : char) (s : jsstring) : includes c s = true <-> In c s.
Proof.
  unfold includes. rewrite existsb_exists. split.
  - intros (x & Hx & E). apply N.eqb_eq in E. now subst.
  - intros H. exists c. split; [exact H|apply N.eqb_refl].
Qed.

Lemma In_occurrences (c : char) (s : jsstring) :
  In c s <-> (0 < occurrences c s)%nat.
Proof.
  unfold occurrences. induction s as [|d s IH]; simpl; [split; [tauto|lia]|].
  destruct (c =? d) eqn:E.
  - apply N.eqb_eq in E. subst. simpl. split; [lia|auto].
  - apply N.eqb_neq in E. rewrite <- IH. split; [|auto].
    intros [H|H]; [congruence|exact H].
Qed.

Lemma occurrences_app (c : char) (a b : jsstring) :
  occurrences c (a ++ b) = (occurrences c a + occurrences c b)%nat.
Proof. unfold occurrences. now rewrite filter_app, length_app. Qed.

Lemma occurrences_none (c : char) (s : jsstring) :
  ~ In c s -> occurrences c s = 0%nat.
Proof. rewrite In_occurrences. lia. Qed.

Lemma occurrences_ws (c : char) (w : jsstring) :
  isWs c = false -> forallb isWs w = true -> occurrences c w = 0%nat.
Proof.
  intros Hc Hw. apply occurrences_none. intros H.
  rewrite forallb_forall in Hw. apply Hw in H. congruence.
Qed.

Lemma equals_blind : blindToMarks (N.eqb equals).
Proof.
  split; [reflexivity|]. split; [reflexivity|].
  intros c H. classes.
Qed.

Lemma dropWs_idem (s : jsstring) : dropWs (dropWs s) = dropWs s.
Proof.
  induction s as [|c tl IH]; simpl; [reflexivity|].
  destruct (isWs c) eqn:E; [exact IH|]. simpl. now rewrite E.
Qed.

Lemma dropWs_run (w : jsstring) (x : char) (r : jsstring) :
  forallb isWs w = true -> isWs x = false -> dropWs (w ++ x :: r) = x :: r.
Proof.
  intros Hw Hx. induction w as [|c w IH]; simpl in *; [now rewrite Hx|].
  apply andb_true_iff in Hw as [Hc Hw]. rewrite Hc. now apply IH.
Qed.

Lemma skipn_runs (w1 w2 : jsstring) (x : char) (r : jsstring) :
  skipn (length w1 + S (length w2)) (w1 ++ x :: w2 ++ r) = r.
Proof.
  induction w1 as [|c w1 IH]; simpl; [|exact IH].
  induction w2 as [|c w2 IH]; simpl; [reflexivity|exact IH].
Qed.

(** The one replacement of line 27: the leftmost [=] goes, with the white
    space on both sides of it. *)
Lemma replaceFirst_reEquals (p : jsstring) :
  In equals p ->
  exists lhs w1 w2 rhs,
    p = lhs ++ w1 ++ equals :: w2 ++ rhs
    /\ ~ In equals lhs
    /\ forallb isWs w1 = true /\ forallb isWs w2 = true
    /\ trimEnd lhs = lhs /\ dropWs rhs = rhs
    /\ replaceFirst reEquals p = lhs ++ [minus; lparen] ++ rhs.
Proof.
  induction p as [|c p IH]; [intros []|]. intros Hin.
  destruct (reEquals (c :: p)) as [[rep n]|] eqn:E.
  - cbn [replaceFirst]. rewrite E. clear IH Hin.
    unfold reEquals in E.
    destruct (dropWs (c :: p)) as [|e tl] eqn:Ed; [discriminate|].
    destruct (e =? equals) eqn:Ee; [|discriminate].
    apply N.eqb_eq in Ee. subst e. injection E as <- <-.
    exists [], (takeWs (c :: p)), (takeWs tl), (dropWs tl).
    assert (Hp : c :: p = takeWs (c :: p) ++ equals :: takeWs tl ++ dropWs tl).
    { rewrite (takeWs_dropWs tl), <- Ed. symmetry. apply takeWs_dropWs. }
    split; [exact Hp|]. split; [tauto|].
    split; [apply takeWs_all|]. split; [apply takeWs_all|].
    split; [reflexivity|]. split; [apply dropWs_idem|].
    pose proof (skipn_runs (takeWs (c :: p)) (takeWs tl) equals (dropWs tl))
      as Hs.
    rewrite <- Hp in Hs. cbn [app]. do 2 f_equal. exact Hs.
  - assert (Hc : c <> equals).
    { intros ->. unfold reEquals in E. simpl in E. discriminate. }
    destruct Hin as [Hin|Hin]; [congruence|].
    destruct (IH Hin) as (lhs & w1 & w2 & rhs & Hp & Hl & Hw1 & Hw2 & Ht & Hd & Hr).
    exists (c :: lhs), w1, w2, rhs.
    split; [simpl; now rewrite <- Hp|].
    split; [intros [H|H]; [congruence|contradiction]|].
    split; [exact Hw1|]. split; [exact Hw2|]. split; [|split; [exact Hd|]].
    + cbn [trimEnd]. rewrite Ht. destruct lhs as [|d l]; [|reflexivity].
      destruct (isWs c) eqn:Ews; [|reflexivity]. exfalso.
      unfold reEquals in E. cbn [dropWs] in E. rewrite Ews in E.
      rewrite Hp in E. simpl in E.
      rewrite (dropWs_run w1 equals (w2 ++ rhs) Hw1 eq_refl) in E.
      simpl in E. discriminate.
    + cbn [replaceFirst]. rewrite E. simpl. now rewrite Hr.
Qed.

End EquationFacts.

(** Line 27 splits the string it is given (the input after lines 20 to 26)
    once, at its first [=]: further occurrences stay on the right. *)
Lemma rewriteEquation_first_equals :
  (forall s : jsstring,
     In equals s ->
     exists lhs w1 w2 rhs,
       rewriteOperators s = lhs ++ w1 ++ equals :: w2 ++ rhs
       /\ ~ In equals lhs
       /\ forallb isWs w1 = true /\ forallb isWs w2 = true
       /\ trimEnd lhs = lhs /\ dropWs rhs = rhs
       /\ normalize s = lhs ++ js "-(" ++ rhs ++ js ")"
       /\ occurrences equals rhs = pred (occurrences equals s)
       /\ S (occurrences equals (normalize s)) = occurrences equals s).
Proof.
  intros s Hin.
  assert (Hocc : occurrences equals (rewriteOperators s) = occurrences equals s).
  { unfold occurrences. f_equal.
    destruct equals_blind as (Hs & Hc & Hw).
    now apply rewriteOperators_filter. }
  assert (Hin' : In equals (rewriteOperators s)).
  { apply In_occurrences. rewrite Hocc. now apply In_occurrences. }
  destruct (replaceFirst_reEquals _ Hin')
    as (lhs & w1 & w2 & rhs & Hp & Hl & Hw1 & Hw2 & Ht & Hd & Hr).
  exists lhs, w1, w2, rhs.
  assert (Hn : normalize s = lhs ++ js "-(" ++ rhs ++ js ")").
  { unfold normalize, rewriteEquation.
    rewrite (proj2 (includes_In _ _) Hin'), Hr.
    rewrite <- !app_assoc. reflexivity. }
  assert (Hs : occurrences equals s = S (occurrences equals rhs)).
  { rewrite <- Hocc, Hp. rewrite !occurrences_app.
    change (equals :: w2 ++ rhs) with ([equals] ++ w2 ++ rhs).
    rewrite !occurrences_app.
    rewrite (occurrences_none _ _ Hl).
    rewrite (occurrences_ws equals w1 eq_refl Hw1).
    rewrite (occurrences_ws equals w2 eq_refl Hw2).
    reflexivity. }
  repeat (split; [assumption|]).
  split; [rewrite Hs; reflexivity|].
  rewrite Hn, Hs, !occurrences_app, (occurrences_none _ _ Hl).
  change (occurrences equals (js "-(")) with 0%nat.
  change (occurrences equals (js ")")) with 0%nat.
  lia.
Qed.


Section ContextFacts.

Local Open Scope N_scope.

Lemma context_cons (c : char) (tl : jsstring) :
  context (c :: tl)
  = (isLetter c,
     if isWs c then nextIs isAlnum tl else isAlnum c,
     if isWs c then nextIs isOpen tl else isOpen c).
Proof. unfold context, nextIs. simpl. now destruct (isWs c). Qed.

(** To the right of a unit only the context counts. *)
Lemma context_cons_congr (c : char) (l l' : jsstring) :
  context l = context l' -> context (c :: l) = context (c :: l').
Proof.
  rewrite !context_cons. unfold context. intros H.
  injection H as _ Ha Ho. now rewrite Ha, Ho.
Qed.

Lemma context_app_congr (pre l l' : jsstring) :
  context l = context l' -> context (pre ++ l) = context (pre ++ l').
Proof.
  intros H. induction pre as [|c pre IH]; [exact H|].
  simpl. now apply context_cons_congr.
Qed.

Lemma siteAt_ws (k : Kind) (c : char) (x : bool * bool * bool) :
  isWs c = true -> siteAt k c x = false.
Proof.
  intros H. destruct x as [[l a] o].
  assert (isDigit c = false) by classes.
  assert ((c =? rparen) = false) by classes.
  destruct k; simpl; now rewrite ?H0, ?H1.
Qed.

Lemma countSites_ws (k : Kind) (w x : jsstring) :
  forallb isWs w = true -> countSites k (w ++ x) = countSites k x.
Proof.
  induction w as [|c w IH]; intros H; [reflexivity|].
  cbn [forallb] in H. apply andb_true_iff in H as [Hc Hw].
  cbn [app countSites]. now rewrite (siteAt_ws k c _ Hc), IH.
Qed.

Lemma countSites_congr (k : Kind) (pre l l' : jsstring) :
  context l = context l' ->
  (countSites k (pre ++ l) + countSites k l'
   = countSites k (pre ++ l') + countSites k l)%nat.
Proof.
  intros H. induction pre as [|c pre IH]; cbn [app countSites]; [lia|].
  rewrite (context_app_congr pre l l' H). lia.
Qed.

(** The context of a run of white space followed by a unit that is not. *)
Lemma context_gap (w : jsstring) (a : char) (r : jsstring) :
  forallb isWs w = true -> isWs a = false ->
  context (w ++ a :: r) = (headIs isLetter (w ++ a :: r), isAlnum a, isOpen a).
Proof.
  intros Hw Ha. unfold context, nextIs.
  now rewrite (dropWs_run w a r Hw Ha).
Qed.

Lemma headIs_gap_letter (w : jsstring) (a : char) (r : jsstring) :
  forallb isWs w = true -> isLetter a = false ->
  headIs isLetter (w ++ a :: r) = false.
Proof.
  intros Hw Ha. destruct w as [|c w]; simpl in *; [exact Ha|].
  apply andb_true_iff in Hw as [Hc _]. classes.
Qed.

End ContextFacts.

Section StepSites.

(** One global replacement, seen from the sites: the kinds in [own] are the
    ones the pattern is there to mark. *)
Variable m : matcher.
Variable own : Kind -> bool.

Hypothesis Hm : consuming m.

Hypothesis Hmiss :
  forall c tl, m (c :: tl) = None ->
  forall k, own k = true -> siteAt k c (context tl) = false.

Hypothesis Hhit :
  forall s rep n, m s = Some (rep, n) ->
  forall o, context o = context (skipn n s) ->
    context (rep ++ o) = context s
    /\ exists D : Kind -> nat,
         (forall k, countSites k s
                    = D k + (if own k then 1 else 0) + countSites k (skipn n s))
         /\ (forall k, countSites k (rep ++ o) = D k + countSites k o)
         /\ (forall k, own k = true -> D k = 0).

Lemma replaceAll_sites (s : jsstring) :
  context (replaceAll m s) = context s
  /\ forall k, countSites k (replaceAll m s)
               = if own k then 0 else countSites k s.
Proof.
  apply (replaceAll_ind m
           (fun s out => context out = context s
                         /\ forall k, countSites k out
                                      = if own k then 0 else countSites k s) Hm).
  - split; [reflexivity|]. intros k. now destruct (own k).
  - intros c tl E [Hc Hk]. split; [now apply context_cons_congr|].
    intros k. cbn [countSites]. rewrite Hc, Hk.
    destruct (own k) eqn:Ek; [|reflexivity].
    now rewrite (Hmiss c tl E k Ek).
  - intros t rep n E [Hc Hk].
    destruct (Hhit t rep n E _ Hc) as (Hc' & D & Hs & Hr & Hown).
    split; [exact Hc'|]. intros k. rewrite Hr, Hk, Hs.
    destruct (own k) eqn:Ek; [|lia].
    rewrite (Hown k Ek). reflexivity.
Qed.

(** When every match puts one [*] in, the number of [*] grows by the number
    of sites of the kinds the pattern marks. *)
Hypothesis Hstar :
  forall s rep n, m s = Some (rep, n) ->
    occurrences star rep = S (occurrences star (firstn n s)).

Variable mine : Kind.
Hypothesis Hmine : forall k, own k = true <-> k = mine.

Lemma replaceAll_stars (s : jsstring) :
  occurrences star (replaceAll m s)
  = occurrences star s + countSites mine s.
Proof.
  apply (replaceAll_ind m
           (fun s out => occurrences star out
                         = occurrences star s + countSites mine s) Hm).
  - reflexivity.
  - intros c tl E IH.
    assert (Hown : own mine = true) by now apply Hmine.
    cbn [countSites]. rewrite (Hmiss c tl E mine Hown).
    change (c :: replaceAll m tl) with ([c] ++ replaceAll m tl).
    change (c :: tl) with ([c] ++ tl).
    rewrite !occurrences_app, IH. lia.
  - intros t rep n E IH.
    assert (Hown : own mine = true) by now apply Hmine.
    destruct (Hhit t rep n E _ eq_refl) as (_ & D & Hs & _ & HD).
    rewrite occurrences_app, IH, (Hstar t rep n E).
    rewrite (Hs mine), Hown, (HD mine Hown).
    assert (Ht : occurrences star t
                 = occurrences star (firstn n t) + occurrences star (skipn n t))
      by (now rewrite <- occurrences_app, firstn_skipn).
    lia.
Qed.

End StepSites.

Section LocalFacts.

Local Open Scope N_scope.

Lemma digit_facts (d : char) :
  isDigit d = true ->
  isLetter d = false /\ isWs d = false /\ isAlnum d = true
  /\ (d =? rparen) = false /\ (d =? lparen) = false /\ (d =? star) = false.
Proof. intros H. repeat split; classes. Qed.

Lemma letter_facts (l : char) :
  isLetter l = true ->
  isDigit l = false /\ isWs l = false /\ isAlnum l = true
  /\ (l =? rparen) = false /\ (l =? lparen) = false /\ (l =? star) = false.
Proof. intros H. repeat split; classes. Qed.

Lemma alnum_facts (a : char) :
  isAlnum a = true ->
  isWs a = false /\ (a =? rparen) = false /\ (a =? lparen) = false
  /\ (a =? star) = false.
Proof. intros H. repeat split; classes. Qed.

Lemma ws_facts (c : char) :
  isWs c = true ->
  isDigit c = false /\ isLetter c = false /\ isAlnum c = false
  /\ (c =? rparen) = false /\ (c =? lparen) = false /\ (c =? star) = false
  /\ (c =? caret) = false.
Proof. intros H. repeat split; classes. Qed.

(** The context to the right of a unit that is not white space. *)
Lemma context_solid (c : char) (tl : jsstring) :
  isWs c = false -> context (c :: tl) = (isLetter c, isAlnum c, isOpen c).
Proof. intros H. rewrite context_cons. now rewrite H. Qed.

Lemma siteAt_nothing (k : Kind) (c : char) :
  siteAt k c (false, false, false) = false.
Proof. destruct k; simpl; apply andb_false_r. Qed.

Lemma siteAt_plain (k : Kind) (c : char) (x : bool * bool * bool) :
  isDigit c = false -> (c =? rparen) = false -> siteAt k c x = false.
Proof.
  intros Hd Hr. destruct x as [[l a] o]. destruct k; simpl; now rewrite ?Hd, ?Hr.
Qed.

Lemma occurrences_cons (c d : char) (s : jsstring) :
  occurrences c (d :: s)
  = ((if N.eqb c d then 1 else 0) + occurrences c s)%nat.
Proof. unfold occurrences. simpl. now destruct (c =? d). Qed.

End LocalFacts.

Section DigitLetterStep.

Local Open Scope N_scope.

Lemma reDigitLetter_miss (c : char) (tl : jsstring) :
  reDigitLetter (c :: tl) = None ->
  forall k, ownDigitLetter k = true -> siteAt k c (context tl) = false.
Proof.
  intros E [] Hk; try discriminate Hk. unfold context. simpl.
  destruct tl as [|l tl]; simpl in *; [apply andb_false_r|].
  now destruct (isDigit c && isLetter l).
Qed.

Lemma reDigitLetter_hit (s rep : jsstring) (n : nat) :
  reDigitLetter s = Some (rep, n) ->
  forall o, context o = context (skipn n s) ->
    context (rep ++ o) = context s
    /\ exists D : Kind -> nat,
         (forall k, countSites k s
                    = D k + (if ownDigitLetter k then 1 else 0)
                      + countSites k (skipn n s))%nat
         /\ (forall k, countSites k (rep ++ o) = D k + countSites k o)%nat
         /\ (forall k, ownDigitLetter k = true -> D k = 0%nat).
Proof.
  intros H. destruct s as [|d [|l r]]; try discriminate H.
  unfold reDigitLetter in H.
  destruct (isDigit d) eqn:Hd; [|discriminate H].
  destruct (isLetter l) eqn:Hl; [|discriminate H].
  injection H as <- <-. intros o Ho. cbn [skipn] in Ho.
  destruct (digit_facts d Hd) as (Hd1 & Hd2 & Hd3 & Hd4 & Hd5 & Hd6).
  destruct (letter_facts l Hl) as (Hl1 & Hl2 & Hl3 & Hl4 & Hl5 & Hl6).
  split.
  - cbn [app]. now rewrite !(context_solid d _ Hd2).
  - exists (fun k => if siteAt k l (context r) then 1 else 0)%nat.
    split; [|split].
    + intros k. cbn [countSites skipn].
      rewrite (context_solid l r Hl2), Hl, Hl3.
      unfold isOpen. rewrite Hl5.
      destruct k; cbn [siteAt ownDigitLetter];
        rewrite ?Hd, ?Hd4, ?Hl1, ?Hl4; simpl; lia.
    + intros k. cbn [app countSites].
      rewrite (context_solid star _ eq_refl).
      change (isLetter star, isAlnum star, isOpen star)
        with (false, false, false).
      rewrite siteAt_nothing, Ho.
      rewrite (siteAt_plain k star (context (l :: o)) eq_refl eq_refl).
      lia.
    + intros [] Hk; try discriminate Hk.
      destruct (context r) as [[x y] z]. simpl. now rewrite Hl1.
Qed.

Lemma reDigitLetter_star (s rep : jsstring) (n : nat) :
  reDigitLetter s = Some (rep, n) ->
  occurrences star rep = S (occurrences star (firstn n s)).
Proof.
  destruct s as [|d [|l r]]; simpl; try discriminate.
  destruct (isDigit d) eqn:Hd; [|discriminate].
  destruct (isLetter l) eqn:Hl; [|discriminate].
  simpl. intros H. injection H as <- <-.
  destruct (digit_facts d Hd) as (_ & _ & _ & _ & _ & Hd6).
  destruct (letter_facts l Hl) as (_ & _ & _ & _ & _ & Hl6).
  cbn [firstn]. rewrite !occurrences_cons.
  rewrite (eqb_sym star d), (eqb_sym star l), Hd6, Hl6. reflexivity.
Qed.

End DigitLetterStep.

Section GapSteps.

Local Open Scope N_scope.

(** A subject whose head is followed, after white space, by [a]. *)
Lemma gap_shape (tl : jsstring) (a : char) (r : jsstring) :
  dropWs tl = a :: r ->
  tl = takeWs tl ++ a :: r /\ isWs a = false.
Proof.
  intros E. split.
  - rewrite <- E. symmetry. apply takeWs_dropWs.
  - exact (dropWs_head tl a r E).
Qed.

Lemma countSites_gap (k : Kind) (tl : jsstring) (a : char) (r : jsstring) :
  dropWs tl = a :: r ->
  countSites k tl
  = ((if siteAt k a (context r) then 1 else 0) + countSites k r)%nat.
Proof.
  intros E. destruct (gap_shape tl a r E) as [Ht _].
  rewrite Ht at 1. now rewrite (countSites_ws k _ _ (takeWs_all tl)).
Qed.

Lemma context_of_gap (tl : jsstring) (a : char) (r : jsstring) :
  dropWs tl = a :: r ->
  context tl = (headIs isLetter tl, isAlnum a, isOpen a).
Proof. intros E. unfold context, nextIs. now rewrite E. Qed.

Lemma headIs_letter_gap (tl : jsstring) (a : char) (r : jsstring) :
  dropWs tl = a :: r -> isLetter a = false -> headIs isLetter tl = false.
Proof.
  intros E Ha. destruct (gap_shape tl a r E) as [Ht _]. rewrite Ht.
  apply headIs_gap_letter; [apply takeWs_all|exact Ha].
Qed.

(** ** Line 23 *)

Lemma reCloseAlnum_miss (c : char) (tl : jsstring) :
  reCloseAlnum (c :: tl) = None ->
  forall k, ownCloseAlnum k = true -> siteAt k c (context tl) = false.
Proof.
  intros E [] Hk; try discriminate Hk. unfold context, nextIs. simpl.
  unfold reCloseAlnum in E.
  destruct (c =? rparen); [|reflexivity].
  destruct (dropWs tl) as [|a r]; [reflexivity|]. simpl.
  now destruct (isAlnum a).
Qed.

Lemma reCloseAlnum_hit (s rep : jsstring) (n : nat) :
  reCloseAlnum s = Some (rep, n) ->
  forall o, context o = context (skipn n s) ->
    context (rep ++ o) = context s
    /\ exists D : Kind -> nat,
         (forall k, countSites k s
                    = D k + (if ownCloseAlnum k then 1 else 0)
                      + countSites k (skipn n s))%nat
         /\ (forall k, countSites k (rep ++ o) = D k + countSites k o)%nat
         /\ (forall k, ownCloseAlnum k = true -> D k = 0%nat).
Proof.
  intros H. destruct s as [|c tl]; [discriminate H|].
  unfold reCloseAlnum in H.
  destruct (c =? rparen) eqn:Ec; [|discriminate H].
  destruct (dropWs tl) as [|a r] eqn:E; [discriminate H|].
  destruct (isAlnum a) eqn:Ha; [|discriminate H].
  apply N.eqb_eq in Ec. subst c. injection H as <- <-.
  rewrite (skipn_gap rparen tl a r E). intros o Ho.
  destruct (alnum_facts a Ha) as (Ha1 & Ha2 & Ha3 & Ha4).
  split.
  - cbn [app]. now rewrite !(context_solid rparen _ eq_refl).
  - exists (fun k => if siteAt k a (context r) then 1 else 0)%nat.
    split; [|split].
    + intros k. cbn [countSites].
      rewrite (countSites_gap k tl a r E), (context_of_gap tl a r E), Ha.
      unfold isOpen. rewrite Ha3.
      destruct k; cbn [siteAt ownCloseAlnum]; simpl; lia.
    + intros k. cbn [app countSites]. rewrite <- app_assoc. cbn [app].
      rewrite (context_solid star _ eq_refl).
      change (isLetter star, isAlnum star, isOpen star)
        with (false, false, false).
      rewrite siteAt_nothing.
      rewrite (siteAt_plain k star _ eq_refl eq_refl).
      rewrite (countSites_ws k _ _ (takeWs_all tl)).
      cbn [countSites]. rewrite Ho. lia.
    + intros [] Hk; try discriminate Hk.
      destruct (context r) as [[x y] z]. simpl. now rewrite Ha2.
Qed.

Lemma reCloseAlnum_star (s rep : jsstring) (n : nat) :
  reCloseAlnum s = Some (rep, n) ->
  occurrences star rep = S (occurrences star (firstn n s)).
Proof.
  intros H. destruct s as [|c tl]; [discriminate H|].
  unfold reCloseAlnum in H.
  destruct (c =? rparen) eqn:Ec; [|discriminate H].
  destruct (dropWs tl) as [|a r] eqn:E; [discriminate H|].
  destruct (isAlnum a) eqn:Ha; [|discriminate H].
  apply N.eqb_eq in Ec. subst c. injection H as <- <-.
  rewrite (firstn_gap rparen tl a r E).
  rewrite !occurrences_cons. reflexivity.
Qed.

(** ** Line 24 *)

Lemma reDigitOpen_miss (c : char) (tl : jsstring) :
  reDigitOpen (c :: tl) = None ->
  forall k, ownDigitOpen k = true -> siteAt k c (context tl) = false.
Proof.
  intros E [] Hk; try discriminate Hk. unfold context, nextIs. simpl.
  unfold reDigitOpen in E.
  destruct (isDigit c); [|reflexivity].
  destruct (dropWs tl) as [|a r]; [reflexivity|]. simpl. unfold isOpen.
  now destruct (a =? lparen).
Qed.

Lemma reDigitOpen_hit (s rep : jsstring) (n : nat) :
  reDigitOpen s = Some (rep, n) ->
  forall o, context o = context (skipn n s) ->
    context (rep ++ o) = context s
    /\ exists D : Kind -> nat,
         (forall k, countSites k s
                    = D k + (if ownDigitOpen k then 1 else 0)
                      + countSites k (skipn n s))%nat
         /\ (forall k, countSites k (rep ++ o) = D k + countSites k o)%nat
         /\ (forall k, ownDigitOpen k = true -> D k = 0%nat).
Proof.
  intros H. destruct s as [|d tl]; [discriminate H|].
  unfold reDigitOpen in H.
  destruct (isDigit d) eqn:Hd; [|discriminate H].
  destruct (dropWs tl) as [|a r] eqn:E; [discriminate H|].
  destruct (a =? lparen) eqn:Ea; [|discriminate H].
  apply N.eqb_eq in Ea. subst a. injection H as <- <-.
  rewrite (skipn_gap d tl lparen r E). intros o Ho.
  destruct (digit_facts d Hd) as (Hd1 & Hd2 & Hd3 & Hd4 & Hd5 & Hd6).
  split.
  - cbn [app]. now rewrite !(context_solid d _ Hd2).
  - exists (fun _ => 0%nat).
    split; [|split; [|reflexivity]].
    + intros k. cbn [countSites].
      rewrite (countSites_gap k tl lparen r E), (context_of_gap tl lparen r E).
      rewrite (headIs_letter_gap tl lparen r E eq_refl).
      rewrite (siteAt_plain k lparen _ eq_refl eq_refl).
      destruct k; cbn [siteAt ownDigitOpen]; rewrite ?Hd, ?Hd4; simpl; lia.
    + intros k. cbn [app countSites].
      rewrite (context_solid star _ eq_refl).
      change (isLetter star, isAlnum star, isOpen star)
        with (false, false, false).
      rewrite siteAt_nothing.
      rewrite (siteAt_plain k star _ eq_refl eq_refl).
      rewrite (siteAt_plain k lparen _ eq_refl eq_refl).
      lia.
Qed.

Lemma reDigitOpen_star (s rep : jsstring) (n : nat) :
  reDigitOpen s = Some (rep, n) ->
  occurrences star rep = S (occurrences star (firstn n s)).
Proof.
  intros H. destruct s as [|d tl]; [discriminate H|].
  unfold reDigitOpen in H.
  destruct (isDigit d) eqn:Hd; [|discriminate H].
  destruct (dropWs tl) as [|a r] eqn:E; [discriminate H|].
  destruct (a =? lparen) eqn:Ea; [|discriminate H].
  apply N.eqb_eq in Ea. subst a. injection H as <- <-.
  destruct (digit_facts d Hd) as (_ & _ & _ & _ & _ & Hd6).
  rewrite (firstn_gap d tl lparen r E).
  change (d :: takeWs tl ++ [lparen]) with ([d] ++ takeWs tl ++ [lparen]).
  change [d; star; lparen] with ([d] ++ [star] ++ [lparen]).
  rewrite !occurrences_app.
  rewrite (occurrences_ws star (takeWs tl) eq_refl (takeWs_all tl)).
  change (occurrences star [star]) with 1%nat. lia.
Qed.

(** ** Line 25 *)

Lemma reCloseOpen_miss (c : char) (tl : jsstring) :
  reCloseOpen (c :: tl) = None ->
  forall k, ownCloseOpen k = true -> siteAt k c (context tl) = false.
Proof.
  intros E [] Hk; try discriminate Hk. unfold context, nextIs. simpl.
  unfold reCloseOpen in E.
  destruct (c =? rparen); [|reflexivity].
  destruct (dropWs tl) as [|a r]; [reflexivity|]. simpl. unfold isOpen.
  now destruct (a =? lparen).
Qed.

Lemma reCloseOpen_hit (s rep : jsstring) (n : nat) :
  reCloseOpen s = Some (rep, n) ->
  forall o, context o = context (skipn n s) ->
    context (rep ++ o) = context s
    /\ exists D : Kind -> nat,
         (forall k, countSites k s
                    = D k + (if ownCloseOpen k then 1 else 0)
                      + countSites k (skipn n s))%nat
         /\ (forall k, countSites k (rep ++ o) = D k + countSites k o)%nat
         /\ (forall k, ownCloseOpen k = true -> D k = 0%nat).
Proof.
  intros H. destruct s as [|c tl]; [discriminate H|].
  unfold reCloseOpen in H.
  destruct (c =? rparen) eqn:Ec; [|discriminate H].
  destruct (dropWs tl) as [|a r] eqn:E; [discriminate H|].
  destruct (a =? lparen) eqn:Ea; [|discriminate H].
  apply N.eqb_eq in Ea. subst a. apply N.eqb_eq in Ec. subst c.
  injection H as <- <-.
  rewrite (skipn_gap rparen tl lparen r E). intros o Ho.
  split.
  - cbn [app]. now rewrite !(context_solid rparen _ eq_refl).
  - exists (fun _ => 0%nat).
    split; [|split; [|reflexivity]].
    + intros k. cbn [countSites].
      rewrite (countSites_gap k tl lparen r E), (context_of_gap tl lparen r E).
      rewrite (headIs_letter_gap tl lparen r E eq_refl).
      rewrite (siteAt_plain k lparen _ eq_refl eq_refl).
      destruct k; cbn [siteAt ownCloseOpen]; simpl; lia.
    + intros k. cbn [app countSites].
      rewrite (context_solid star _ eq_refl).
      change (isLetter star, isAlnum star, isOpen star)
        with (false, false, false).
      rewrite siteAt_nothing.
      rewrite (siteAt_plain k star _ eq_refl eq_refl).
      rewrite (siteAt_plain k lparen _ eq_refl eq_refl).
      lia.
Qed.

Lemma reCloseOpen_star (s rep : jsstring) (n : nat) :
  reCloseOpen s = Some (rep, n) ->
  occurrences star rep = S (occurrences star (firstn n s)).
Proof.
  intros H. destruct s as [|c tl]; [discriminate H|].
  unfold reCloseOpen in H.
  destruct (c =? rparen) eqn:Ec; [|discriminate H].
  destruct (dropWs tl) as [|a r] eqn:E; [discriminate H|].
  destruct (a =? lparen) eqn:Ea; [|discriminate H].
  apply N.eqb_eq in Ea. subst a. apply N.eqb_eq in Ec. subst c.
  injection H as <- <-.
  rewrite (firstn_gap rparen tl lparen r E).
  change (rparen :: takeWs tl ++ [lparen])
    with ([rparen] ++ takeWs tl ++ [lparen]).
  rewrite !occurrences_app.
  rewrite (occurrences_ws star (takeWs tl) eq_refl (takeWs_all tl)).
  reflexivity.
Qed.

End GapSteps.

Section PlainSteps.

Local Open Scope N_scope.

Lemma ownNone_miss (m : matcher) (c : char) (tl : jsstring) :
  m (c :: tl) = None ->
  forall k, ownNone k = true -> siteAt k c (context tl) = false.
Proof. intros _ k Hk. discriminate Hk. Qed.

(** ** Line 21 *)

Lemma reCaret_hit (s rep : jsstring) (n : nat) :
  reCaret s = Some (rep, n) ->
  forall o, context o = context (skipn n s) ->
    context (rep ++ o) = context s
    /\ exists D : Kind -> nat,
         (forall k, countSites k s
                    = D k + (if ownNone k then 1 else 0)
                      + countSites k (skipn n s))%nat
         /\ (forall k, countSites k (rep ++ o) = D k + countSites k o)%nat
         /\ (forall k, ownNone k = true -> D k = 0%nat).
Proof.
  intros H. destruct s as [|c r]; [discriminate H|].
  unfold reCaret in H.
  destruct (c =? caret) eqn:Ec; [|discriminate H].
  apply N.eqb_eq in Ec. subst c. injection H as <- <-.
  cbn [skipn]. intros o Ho. split.
  - cbn [app]. rewrite !context_cons. reflexivity.
  - exists (fun _ => 0%nat).
    split; [|split; [|reflexivity]].
    + intros k. cbn [countSites ownNone].
      rewrite (siteAt_plain k caret _ eq_refl eq_refl). lia.
    + intros k. cbn [app countSites].
      rewrite !(siteAt_plain k star _ eq_refl eq_refl). lia.
Qed.

Lemma replaceAll_reCaret_marks (s : jsstring) :
  occurrences star (replaceAll reCaret s)
  = (occurrences star s + 2 * occurrences caret s)%nat
  /\ occurrences caret (replaceAll reCaret s) = 0%nat.
Proof.
  apply (replaceAll_ind reCaret
           (fun s out =>
              occurrences star out
              = (occurrences star s + 2 * occurrences caret s)%nat
              /\ occurrences caret out = 0%nat) reCaret_consuming).
  - split; reflexivity.
  - intros c tl E [IH1 IH2]. unfold reCaret in E.
    destruct (c =? caret) eqn:Ec; [discriminate E|].
    rewrite !occurrences_cons, IH1, IH2.
    rewrite (eqb_sym caret c), Ec. split; lia.
  - intros t rep n E [IH1 IH2]. destruct t as [|c r]; [discriminate E|].
    unfold reCaret in E.
    destruct (c =? caret) eqn:Ec; [|discriminate E].
    apply N.eqb_eq in Ec. subst c. injection E as <- <-.
    cbn [skipn] in *. rewrite !occurrences_app, IH1, IH2.
    rewrite !occurrences_cons. simpl. split; lia.
Qed.

(** ** Line 26 *)

Lemma reSpaces_hit (s rep : jsstring) (n : nat) :
  reSpaces s = Some (rep, n) ->
  forall o, context o = context (skipn n s) ->
    context (rep ++ o) = context s
    /\ exists D : Kind -> nat,
         (forall k, countSites k s
                    = D k + (if ownNone k then 1 else 0)
                      + countSites k (skipn n s))%nat
         /\ (forall k, countSites k (rep ++ o) = D k + countSites k o)%nat
         /\ (forall k, ownNone k = true -> D k = 0%nat).
Proof.
  intros H. destruct s as [|c tl]; [discriminate H|].
  unfold reSpaces in H.
  destruct (isWs c) eqn:Ec; [|discriminate H].
  injection H as <- <-.
  cbn [skipn]. rewrite skipn_takeWs. intros o Ho.
  destruct (ws_facts c Ec) as (Hc1 & Hc2 & Hc3 & Hc4 & Hc5 & Hc6 & Hc7).
  split.
  - cbn [app]. rewrite !context_cons, Ec, Hc2.
    change (isWs space) with true. change (isLetter space) with false.
    cbv iota.
    unfold context in Ho. injection Ho as _ Ha Hb.
    unfold nextIs in *. rewrite dropWs_idem in Ha, Hb.
    now rewrite Ha, Hb.
  - exists (fun _ => 0%nat).
    split; [|split; [|reflexivity]].
    + intros k. cbn [countSites ownNone].
      rewrite (siteAt_ws k c _ Ec).
      rewrite <- (takeWs_dropWs tl) at 1.
      rewrite (countSites_ws k _ _ (takeWs_all tl)). lia.
    + intros k. cbn [app countSites].
      rewrite (siteAt_ws k space _ eq_refl). lia.
Qed.

(** ** Line 20 *)

Lemma trimEnd_split (s : jsstring) :
  exists w, s = trimEnd s ++ w /\ forallb isWs w = true.
Proof.
  induction s as [|c tl (w & Hs & Hw)]; [exists []; split; reflexivity|].
  cbn [trimEnd]. destruct (trimEnd tl) as [|d r] eqn:E.
  - destruct (isWs c) eqn:Ec.
    + exists (c :: w). simpl in Hs. subst tl. split; [reflexivity|].
      simpl. now rewrite Ec.
    + exists w. simpl in *. now subst tl.
  - exists w. split; [|exact Hw]. simpl. f_equal. exact Hs.
Qed.

Lemma context_ws (w : jsstring) :
  forallb isWs w = true -> context w = context [].
Proof.
  intros H. unfold context, nextIs.
  assert (Hd : dropWs w = []).
  { induction w as [|c w IH]; [reflexivity|]. simpl in *.
    apply andb_true_iff in H as [Hc Hw]. rewrite Hc. now apply IH. }
  rewrite Hd. destruct w as [|c w]; [reflexivity|].
  simpl in *. apply andb_true_iff in H as [Hc _].
  destruct (ws_facts c Hc) as (_ & Hl & _). now rewrite Hl.
Qed.

Lemma countSites_trim (k : Kind) (s : jsstring) :
  countSites k (trim s) = countSites k s.
Proof.
  unfold trim, trimStart.
  transitivity (countSites k (dropWs s)).
  - destruct (trimEnd_split (dropWs s)) as (w & Hs & Hw).
    pose proof (countSites_congr k (trimEnd (dropWs s)) w [] (context_ws w Hw))
      as H.
    rewrite <- Hs, app_nil_r in H.
    pose proof (countSites_ws k w [] Hw) as H0. rewrite app_nil_r in H0.
    cbn [countSites] in H, H0. lia.
  - rewrite <- (takeWs_dropWs s) at 2.
    now rewrite (countSites_ws k _ _ (takeWs_all s)).
Qed.

End PlainSteps.

Section MarksFacts.

Local Open Scope N_scope.

Lemma own_iff_DigitLetter (k : Kind) : ownDigitLetter k = true <-> k = DigitLetter.
Proof. destruct k; simpl; split; congruence. Qed.

Lemma own_iff_CloseAlnum (k : Kind) : ownCloseAlnum k = true <-> k = CloseAlnum.
Proof. destruct k; simpl; split; congruence. Qed.

Lemma own_iff_DigitOpen (k : Kind) : ownDigitOpen k = true <-> k = DigitOpen.
Proof. destruct k; simpl; split; congruence. Qed.

Lemma own_iff_CloseOpen (k : Kind) : ownCloseOpen k = true <-> k = CloseOpen.
Proof. destruct k; simpl; split; congruence. Qed.

(** The sites of each kind, line by line. *)
Lemma sites_reCaret (k : Kind) (s : jsstring) :
  countSites k (replaceAll reCaret s) = countSites k s.
Proof.
  exact (proj2 (replaceAll_sites reCaret ownNone reCaret_consuming
                  (ownNone_miss reCaret) reCaret_hit s) k).
Qed.

Lemma sites_reSpaces (k : Kind) (s : jsstring) :
  countSites k (replaceAll reSpaces s) = countSites k s.
Proof.
  exact (proj2 (replaceAll_sites reSpaces ownNone reSpaces_consuming
                  (ownNone_miss reSpaces) reSpaces_hit s) k).
Qed.

Lemma sites_reDigitLetter (k : Kind) (s : jsstring) :
  countSites k (replaceAll reDigitLetter s)
  = if ownDigitLetter k then 0%nat else countSites k s.
Proof.
  exact (proj2 (replaceAll_sites reDigitLetter ownDigitLetter
                  reDigitLetter_consuming reDigitLetter_miss
                  reDigitLetter_hit s) k).
Qed.

Lemma sites_reCloseAlnum (k : Kind) (s : jsstring) :
  countSites k (replaceAll reCloseAlnum s)
  = if ownCloseAlnum k then 0%nat else countSites k s.
Proof.
  exact (proj2 (replaceAll_sites reCloseAlnum ownCloseAlnum
                  reCloseAlnum_consuming reCloseAlnum_miss
                  reCloseAlnum_hit s) k).
Qed.

Lemma sites_reDigitOpen (k : Kind) (s : jsstring) :
  countSites k (replaceAll reDigitOpen s)
  = if ownDigitOpen k then 0%nat else countSites k s.
Proof.
  exact (proj2 (replaceAll_sites reDigitOpen ownDigitOpen
                  reDigitOpen_consuming reDigitOpen_miss
                  reDigitOpen_hit s) k).
Qed.

Lemma sites_reCloseOpen (k : Kind) (s : jsstring) :
  countSites k (replaceAll reCloseOpen s)
  = if ownCloseOpen k then 0%nat else countSites k s.
Proof.
  exact (proj2 (replaceAll_sites reCloseOpen ownCloseOpen
                  reCloseOpen_consuming reCloseOpen_miss
                  reCloseOpen_hit s) k).
Qed.

(** After lines 20 to 26 no site of any kind is left. *)
Lemma rewriteOperators_no_sites (k : Kind) (s : jsstring) :
  countSites k (rewriteOperators s) = 0%nat.
Proof.
  unfold rewriteOperators.
  rewrite sites_reSpaces, sites_reCloseOpen, sites_reDigitOpen,
    sites_reCloseAlnum, sites_reDigitLetter.
  now destruct k.
Qed.

(** The [*] of each line. *)
Lemma stars_reDigitLetter (s : jsstring) :
  occurrences star (replaceAll reDigitLetter s)
  = (occurrences star s + countSites DigitLetter s)%nat.
Proof.
  exact (replaceAll_stars reDigitLetter ownDigitLetter
           reDigitLetter_consuming reDigitLetter_miss reDigitLetter_hit
           reDigitLetter_star DigitLetter own_iff_DigitLetter s).
Qed.

Lemma stars_reCloseAlnum (s : jsstring) :
  occurrences star (replaceAll reCloseAlnum s)
  = (occurrences star s + countSites CloseAlnum s)%nat.
Proof.
  exact (replaceAll_stars reCloseAlnum ownCloseAlnum
           reCloseAlnum_consuming reCloseAlnum_miss reCloseAlnum_hit
           reCloseAlnum_star CloseAlnum own_iff_CloseAlnum s).
Qed.

Lemma stars_reDigitOpen (s : jsstring) :
  occurrences star (replaceAll reDigitOpen s)
  = (occurrences star s + countSites DigitOpen s)%nat.
Proof.
  exact (replaceAll_stars reDigitOpen ownDigitOpen
           reDigitOpen_consuming reDigitOpen_miss reDigitOpen_hit
           reDigitOpen_star DigitOpen own_iff_DigitOpen s).
Qed.

Lemma stars_reCloseOpen (s : jsstring) :
  occurrences star (replaceAll reCloseOpen s)
  = (occurrences star s + countSites CloseOpen s)%nat.
Proof.
  exact (replaceAll_stars reCloseOpen ownCloseOpen
           reCloseOpen_consuming reCloseOpen_miss reCloseOpen_hit
           reCloseOpen_star CloseOpen own_iff_CloseOpen s).
Qed.

Lemma stars_reSpaces (s : jsstring) :
  occurrences star (replaceAll reSpaces s) = occurrences star s.
Proof.
  unfold occurrences. f_equal.
  apply (replaceAll_filter _ _ reSpaces_consuming).
  apply reSpaces_respects. intros c H. classes.
Qed.

Lemma occurrences_trim (c : char) (s : jsstring) :
  isWs c = false -> occurrences c (trim s) = occurrences c s.
Proof.
  intros Hc. unfold occurrences. f_equal. apply filter_trim.
  intros d Hd. apply N.eqb_neq. intros ->. congruence.
Qed.

(** Lines 20 to 26 put in two [*] for each [^] and one [*] for each site,
    and nothing else. *)
Lemma rewriteOperators_stars (s : jsstring) :
  occurrences star (rewriteOperators s)
  = (occurrences star s + 2 * occurrences caret s + sites s)%nat.
Proof.
  unfold rewriteOperators, sites.
  rewrite stars_reSpaces, stars_reCloseOpen, stars_reDigitOpen,
    stars_reCloseAlnum, stars_reDigitLetter.
  rewrite !sites_reDigitOpen, !sites_reCloseAlnum, !sites_reDigitLetter.
  cbn [ownDigitOpen ownCloseAlnum ownDigitLetter].
  rewrite !sites_reCaret, !countSites_trim.
  rewrite (proj1 (replaceAll_reCaret_marks (trim s))).
  rewrite (occurrences_trim star s eq_refl), (occurrences_trim caret s eq_refl).
  lia.
Qed.

Lemma rewriteOperators_no_caret (s : jsstring) :
  occurrences caret (rewriteOperators s) = 0%nat.
Proof.
  unfold rewriteOperators.
  rewrite <- (proj2 (replaceAll_reCaret_marks (trim s))).
  unfold occurrences. f_equal.
  apply insertMarks_filter; [|reflexivity].
  intros c H. classes.
Qed.

(** Line 27 adds and removes neither [*] nor [^]. *)
Lemma rewriteEquation_occurrences (c : char) (p : jsstring) :
  isWs c = false -> c <> equals -> c <> minus -> c <> lparen -> c <> rparen ->
  occurrences c (rewriteEquation p) = occurrences c p.
Proof.
  intros Hw He Hm Hl Hr. unfold rewriteEquation.
  destruct (includes equals p) eqn:E; [|reflexivity].
  apply includes_In in E.
  destruct (replaceFirst_reEquals p E)
    as (lhs & w1 & w2 & rhs & Hp & _ & Hw1 & Hw2 & _ & _ & Hrep).
  rewrite Hrep, Hp.
  change (equals :: w2 ++ rhs) with ([equals] ++ w2 ++ rhs).
  rewrite !occurrences_app.
  rewrite (occurrences_ws c w1 Hw Hw1), (occurrences_ws c w2 Hw Hw2).
  rewrite !occurrences_cons.
  apply N.eqb_neq in He, Hm, Hl, Hr. rewrite He, Hm, Hl, Hr.
  unfold occurrences. simpl. lia.
Qed.

End MarksFacts.

Lemma normalize_without_equals (s : jsstring) :
  ~ In equals s -> normalize s = rewriteOperators s.
Proof.
  intros H. unfold normalize, rewriteEquation.
  destruct (includes equals (rewriteOperators s)) eqn:E; [|reflexivity].
  exfalso. apply H. apply includes_In in E.
  apply In_occurrences. apply In_occurrences in E.
  destruct equals_blind as (Hs & Hc & Hw).
  unfold occurrences in *.
  now rewrite (rewriteOperators_filter _ Hw Hs Hc) in E.
Qed.

(** C6.  [parseExpression] puts in exactly one [*] for each
    implicit-multiplication site (a digit with a letter right after it; a
    closing parenthesis or a digit with, after optional white space, a
    letter or digit respectively an opening parenthesis) and two for each
    [^], of which none is left; after lines 20 to 26 no site is left; and
    those lines alter nothing besides white space, [*] and [^].  In
    particular ["2x"], ["3(x+1)"] and ["(x+1)(x-1)"], which have one site
    each, become ["2*x"], ["3*(x+1)"] and ["(x+1)*(x-1)"], and ["x^2"]
    becomes ["x**2"]. *)
Theorem C6_multiplication_and_power_markers :
  (forall s : jsstring,
      occurrences star (normalize s)
      = occurrences star s + 2 * occurrences caret s + sites s
      /\ occurrences caret (normalize s) = 0
      /\ sites (rewriteOperators s) = 0
      /\ (forall keep : char -> bool,
            blindToMarks keep ->
            filter keep (rewriteOperators s) = filter keep s))
  /\ (sites (js "2x") = 1 /\ normalize (js "2x") = js "2*x")
  /\ (sites (js "3(x+1)") = 1 /\ normalize (js "3(x+1)") = js "3*(x+1)")
  /\ (sites (js "(x+1)(x-1)") = 1
      /\ normalize (js "(x+1)(x-1)") = js "(x+1)*(x-1)")
  /\ (sites (js "x^2") = 0 /\ normalize (js "x^2") = js "x**2").
Proof.
  split; [|repeat split; reflexivity].
  intros s. split; [|split; [|split]].
  - unfold normalize.
    rewrite (rewriteEquation_occurrences star); try discriminate;
      try reflexivity.
    apply rewriteOperators_stars.
  - unfold normalize.
    rewrite (rewriteEquation_occurrences caret); try discriminate;
      try reflexivity.
    apply rewriteOperators_no_caret.
  - unfold sites. now rewrite !rewriteOperators_no_sites.
  - intros keep (Hs & Hc & Hw). now apply rewriteOperators_filter.
Qed.

Lemma C6_markers_witness :
  filter (fun c => negb (isWs c || N.eqb c star || N.eqb c caret))
    (rewriteOperators (js " 2x^2 (x+1) "))
  = js "2x2(x+1)".
Proof.
  refine (proj2 (proj2 (proj2 (proj1 C6_multiplication_and_power_markers
            (js " 2x^2 (x+1) ")))) _ _).
  split; [reflexivity|]. split; [reflexivity|].
  intros c H. rewrite H. reflexivity.
Defined.

Section FixedPoint.

Local Open Scope N_scope.

Lemma tidy_trimEnd (s : jsstring) : tidy s = true -> trimEnd s = s.
Proof.
  induction s as [|c tl IH]; [reflexivity|].
  cbn [tidy trimEnd]. intros H. apply andb_true_iff in H as [Hc Ht].
  rewrite (IH Ht). destruct tl as [|d r]; [|reflexivity].
  destruct (isWs c); [|reflexivity].
  simpl in Hc. rewrite andb_false_r in Hc. discriminate Hc.
Qed.

Lemma singleSpaced_trim (s : jsstring) : singleSpaced s = true -> trim s = s.
Proof.
  unfold singleSpaced, trim, trimStart. intros H.
  apply andb_true_iff in H as [Hh Ht].
  assert (Hd : dropWs s = s).
  { destruct s as [|c tl]; [reflexivity|]. simpl in *.
    now destruct (isWs c). }
  rewrite Hd. now apply tidy_trimEnd.
Qed.

Lemma replaceAll_reCaret_id (s : jsstring) :
  ~ In caret s -> replaceAll reCaret s = s.
Proof.
  induction s as [|c tl IH]; [reflexivity|]. intros H.
  rewrite replaceAll_miss.
  - f_equal. apply IH. intros Hin. apply H. now right.
  - unfold reCaret. destruct (c =? caret) eqn:E; [|reflexivity].
    apply N.eqb_eq in E. exfalso. apply H. now left.
Qed.

(** A pattern that marks sites of a kind finds nothing where there is no
    such site. *)
Lemma replaceAll_no_site (m : matcher) (k : Kind) :
  (forall c tl, siteAt k c (context tl) = false -> m (c :: tl) = None) ->
  forall s, countSites k s = 0%nat -> replaceAll m s = s.
Proof.
  intros Hm. induction s as [|c tl IH]; [reflexivity|].
  cbn [countSites]. intros H.
  destruct (siteAt k c (context tl)) eqn:E; [discriminate H|].
  rewrite (replaceAll_miss m c tl (Hm c tl E)). f_equal. apply IH.
  simpl in H. exact H.
Qed.

Lemma reDigitLetter_none (c : char) (tl : jsstring) :
  siteAt DigitLetter c (context tl) = false -> reDigitLetter (c :: tl) = None.
Proof.
  unfold context. simpl. destruct tl as [|l r]; [reflexivity|]. simpl.
  intros H. now rewrite H.
Qed.

Lemma reCloseAlnum_none (c : char) (tl : jsstring) :
  siteAt CloseAlnum c (context tl) = false -> reCloseAlnum (c :: tl) = None.
Proof.
  unfold context, nextIs, reCloseAlnum. simpl.
  destruct (c =? rparen); [|reflexivity].
  destruct (dropWs tl) as [|a r]; [reflexivity|]. simpl.
  intros H. now rewrite H.
Qed.

Lemma reDigitOpen_none (c : char) (tl : jsstring) :
  siteAt DigitOpen c (context tl) = false -> reDigitOpen (c :: tl) = None.
Proof.
  unfold context, nextIs, reDigitOpen, isOpen. simpl.
  destruct (isDigit c); [|reflexivity].
  destruct (dropWs tl) as [|a r]; [reflexivity|]. simpl.
  intros H. now rewrite H.
Qed.

Lemma reCloseOpen_none (c : char) (tl : jsstring) :
  siteAt CloseOpen c (context tl) = false -> reCloseOpen (c :: tl) = None.
Proof.
  unfold context, nextIs, reCloseOpen, isOpen. simpl.
  destruct (c =? rparen); [|reflexivity].
  destruct (dropWs tl) as [|a r]; [reflexivity|]. simpl.
  intros H. now rewrite H.
Qed.

Lemma replaceAll_reSpaces_id (s : jsstring) :
  tidy s = true -> replaceAll reSpaces s = s.
Proof.
  induction s as [|c tl IH]; [reflexivity|].
  cbn [tidy]. intros H. apply andb_true_iff in H as [Hc Ht].
  destruct (isWs c) eqn:Ec.
  - apply andb_true_iff in Hc as [Hs Hn].
    apply N.eqb_eq in Hs. subst c.
    assert (Htk : takeWs tl = []).
    { destruct tl as [|d r]; [reflexivity|]. simpl in *.
      now destruct (isWs d). }
    rewrite (replaceAll_hit reSpaces (space :: tl) [space] 1
               reSpaces_consuming).
    + simpl. f_equal. now apply IH.
    + unfold reSpaces. rewrite Ec, Htk. reflexivity.
  - rewrite replaceAll_miss; [f_equal; now apply IH|].
    unfold reSpaces. now rewrite Ec.
Qed.

(** On a string in acceptable form no line of [parseExpression] finds
    anything to do. *)
Lemma normalize_acceptable (s : jsstring) : acceptable s -> normalize s = s.
Proof.
  intros (Hc & He & Hs & Hw).
  rewrite (normalize_without_equals s He).
  unfold rewriteOperators, sites in *.
  apply andb_true_iff in Hw as [Hh Ht].
  rewrite (singleSpaced_trim s) by (unfold singleSpaced; now rewrite Hh, Ht).
  rewrite (replaceAll_reCaret_id s Hc).
  rewrite (replaceAll_no_site reDigitLetter DigitLetter reDigitLetter_none s)
    by lia.
  rewrite (replaceAll_no_site reCloseAlnum CloseAlnum reCloseAlnum_none s)
    by lia.
  rewrite (replaceAll_no_site reDigitOpen DigitOpen reDigitOpen_none s)
    by lia.
  rewrite (replaceAll_no_site reCloseOpen CloseOpen reCloseOpen_none s)
    by lia.
  now apply replaceAll_reSpaces_id.
Qed.

End FixedPoint.

(** C7.  On every string already in engine-acceptable form (no [^], no [=],
    no implicit multiplication, no redundant white space) [parseExpression]
    changes nothing, so applying it twice is the same as applying it
    once. *)
Theorem C7_idempotent_on_acceptable (s : jsstring) :
  acceptable s ->
  normalize (normalize s) = normalize s /\ normalize s = s.
Proof.
  intros H. pose proof (normalize_acceptable s H) as E.
  split; [now rewrite !E|exact E].
Qed.

Lemma C7_idempotent_witness :
  normalize (normalize (js "2*x**2 + (x+1)*(x-1)"))
    = normalize (js "2*x**2 + (x+1)*(x-1)")
  /\ normalize (js "2*x**2 + (x+1)*(x-1)") = js "2*x**2 + (x+1)*(x-1)".
Proof.
  apply (C7_idempotent_on_acceptable (js "2*x**2 + (x+1)*(x-1)")).
  split; [|split; [|split; reflexivity]].
  - intros H. simpl in H.
    repeat (destruct H as [H|H]; [discriminate H|]). exact H.
  - intros H. simpl in H.
    repeat (destruct H as [H|H]; [discriminate H|]). exact H.
Defined.

(* ================================================================== *)
(** * The results of the normaliser are in acceptable form *)
(* ================================================================== *)

Section EndsFacts.

Local Open Scope N_scope.

Lemma endsSolid_cons (c : char) (tl : jsstring) :
  tl <> [] -> endsSolid (c :: tl) = endsSolid tl.
Proof. destruct tl; [congruence|reflexivity]. Qed.

Lemma endsSolid_app (a b : jsstring) :
  endsSolid (a ++ b) = match b with [] => endsSolid a | _ => endsSolid b end.
Proof.
  induction a as [|c a IH]; [now destruct b|].
  destruct b as [|d b]; [now rewrite app_nil_r|].
  cbn [app]. rewrite endsSolid_cons by (destruct a; discriminate).
  exact IH.
Qed.

Lemma endsSolid_trimEnd (s : jsstring) : endsSolid (trimEnd s) = true.
Proof.
  induction s as [|c tl IH]; [reflexivity|]. cbn [trimEnd].
  destruct (trimEnd tl) as [|d r] eqn:E.
  - destruct (isWs c) eqn:Ec; [reflexivity|]. simpl. now rewrite Ec.
  - exact IH.
Qed.

Lemma endsSolid_ws (w : jsstring) :
  forallb isWs w = true -> w <> [] -> endsSolid w = false.
Proof.
  induction w as [|c w IH]; [congruence|]. intros H _.
  simpl in H. apply andb_true_iff in H as [Hc Hw].
  destruct w as [|d w]; [simpl; now rewrite Hc|].
  cbn [endsSolid]. apply IH; [exact Hw|discriminate].
Qed.

Lemma headWs_app (a b : jsstring) : a <> [] -> headWs (a ++ b) = headWs a.
Proof. destruct a; [congruence|reflexivity]. Qed.

Lemma headWs_nil (s : jsstring) : headWs s = None -> s = [].
Proof. destruct s; [reflexivity|discriminate]. Qed.

Variable m : matcher.
Hypothesis Hm : consuming m.

(** The expansion of a match starts and ends as the match does. *)
Hypothesis Hhit :
  forall s rep n, m s = Some (rep, n) ->
    rep <> [] /\ headWs rep = headWs s
    /\ endsSolid rep = endsSolid (firstn n s).

Lemma replaceAll_ends (s : jsstring) :
  headWs (replaceAll m s) = headWs s
  /\ endsSolid (replaceAll m s) = endsSolid s.
Proof.
  apply (replaceAll_ind m
           (fun s out => headWs out = headWs s
                         /\ endsSolid out = endsSolid s) Hm).
  - split; reflexivity.
  - intros c tl _ [Hh He]. split; [reflexivity|].
    change (c :: replaceAll m tl) with ([c] ++ replaceAll m tl).
    change (c :: tl) with ([c] ++ tl).
    rewrite !endsSolid_app, He.
    destruct (replaceAll m tl) as [|d r] eqn:E.
    + symmetry in Hh. apply headWs_nil in Hh. now rewrite Hh.
    + destruct tl; [discriminate Hh|reflexivity].
  - intros t rep n E [Hh He].
    destruct (Hhit t rep n E) as (Hr & Hrh & Hre).
    destruct (Hm t rep n E) as [Hn Hl].
    split; [now rewrite headWs_app|].
    rewrite <- (firstn_skipn n t) at 2.
    rewrite !endsSolid_app, He, Hre.
    destruct (replaceAll m (skipn n t)) as [|d r] eqn:E'.
    + symmetry in Hh. apply headWs_nil in Hh. now rewrite Hh.
    + destruct (skipn n t); [discriminate Hh|reflexivity].
Qed.

End EndsFacts.

Section EndsOfMatches.

Local Open Scope N_scope.

Lemma reCaret_ends (s rep : jsstring) (n : nat) :
  reCaret s = Some (rep, n) ->
  rep <> [] /\ headWs rep = headWs s
  /\ endsSolid rep = endsSolid (firstn n s).
Proof.
  intros H. destruct s as [|c r]; [discriminate H|]. unfold reCaret in H.
  destruct (c =? caret) eqn:Ec; [|discriminate H].
  apply N.eqb_eq in Ec. subst c. injection H as <- <-.
  repeat split. discriminate.
Qed.

Lemma reDigitLetter_ends (s rep : jsstring) (n : nat) :
  reDigitLetter s = Some (rep, n) ->
  rep <> [] /\ headWs rep = headWs s
  /\ endsSolid rep = endsSolid (firstn n s).
Proof.
  intros H. destruct s as [|d [|l r]]; try discriminate H.
  unfold reDigitLetter in H.
  destruct (isDigit d && isLetter l); [|discriminate H].
  injection H as <- <-. repeat split. discriminate.
Qed.

Lemma reCloseAlnum_ends (s rep : jsstring) (n : nat) :
  reCloseAlnum s = Some (rep, n) ->
  rep <> [] /\ headWs rep = headWs s
  /\ endsSolid rep = endsSolid (firstn n s).
Proof.
  intros H. destruct s as [|c tl]; [discriminate H|].
  unfold reCloseAlnum in H.
  destruct (c =? rparen) eqn:Ec; [|discriminate H].
  destruct (dropWs tl) as [|a r] eqn:E; [discriminate H|].
  destruct (isAlnum a) eqn:Ha; [|discriminate H].
  apply N.eqb_eq in Ec. subst c. injection H as <- <-.
  rewrite (firstn_gap rparen tl a r E).
  split; [discriminate|]. split; [reflexivity|].
  change (rparen :: star :: takeWs tl ++ [a])
    with ((rparen :: star :: takeWs tl) ++ [a]).
  change (rparen :: takeWs tl ++ [a]) with ((rparen :: takeWs tl) ++ [a]).
  now rewrite !endsSolid_app.
Qed.

Lemma reDigitOpen_ends (s rep : jsstring) (n : nat) :
  reDigitOpen s = Some (rep, n) ->
  rep <> [] /\ headWs rep = headWs s
  /\ endsSolid rep = endsSolid (firstn n s).
Proof.
  intros H. destruct s as [|d tl]; [discriminate H|].
  unfold reDigitOpen in H.
  destruct (isDigit d) eqn:Hd; [|discriminate H].
  destruct (dropWs tl) as [|a r] eqn:E; [discriminate H|].
  destruct (a =? lparen) eqn:Ea; [|discriminate H].
  apply N.eqb_eq in Ea. subst a. injection H as <- <-.
  rewrite (firstn_gap d tl lparen r E).
  split; [discriminate|]. split; [reflexivity|].
  change (d :: takeWs tl ++ [lparen]) with ((d :: takeWs tl) ++ [lparen]).
  now rewrite endsSolid_app.
Qed.

Lemma reCloseOpen_ends (s rep : jsstring) (n : nat) :
  reCloseOpen s = Some (rep, n) ->
  rep <> [] /\ headWs rep = headWs s
  /\ endsSolid rep = endsSolid (firstn n s).
Proof.
  intros H. destruct s as [|c tl]; [discriminate H|].
  unfold reCloseOpen in H.
  destruct (c =? rparen) eqn:Ec; [|discriminate H].
  destruct (dropWs tl) as [|a r] eqn:E; [discriminate H|].
  destruct (a =? lparen) eqn:Ea; [|discriminate H].
  apply N.eqb_eq in Ea. subst a. apply N.eqb_eq in Ec. subst c.
  injection H as <- <-.
  rewrite (firstn_gap rparen tl lparen r E).
  split; [discriminate|]. split; [reflexivity|].
  change (rparen :: takeWs tl ++ [lparen])
    with ((rparen :: takeWs tl) ++ [lparen]).
  now rewrite endsSolid_app.
Qed.

Lemma reSpaces_ends (s rep : jsstring) (n : nat) :
  reSpaces s = Some (rep, n) ->
  rep <> [] /\ headWs rep = headWs s
  /\ endsSolid rep = endsSolid (firstn n s).
Proof.
  intros H. destruct s as [|c tl]; [discriminate H|].
  unfold reSpaces in H.
  destruct (isWs c) eqn:Ec; [|discriminate H].
  injection H as <- <-.
  split; [discriminate|]. split; [unfold headWs; simpl; now rewrite Ec|].
  cbn [firstn]. rewrite firstn_takeWs.
  symmetry. apply endsSolid_ws; [|discriminate].
  simpl. rewrite Ec. apply takeWs_all.
Qed.

(** Line 26 leaves single spaces, each with text on its right, when the
    string does not end in white space. *)
Lemma replaceAll_reSpaces_tidy (s : jsstring) :
  endsSolid s = true -> tidy (replaceAll reSpaces s) = true.
Proof.
  apply (replaceAll_ind reSpaces
           (fun s out => endsSolid s = true -> tidy out = true)
           reSpaces_consuming).
  - reflexivity.
  - intros c tl E IH Hs. unfold reSpaces in E.
    destruct (isWs c) eqn:Ec; [discriminate E|].
    cbn [tidy]. rewrite Ec. apply IH.
    destruct tl as [|d r]; [reflexivity|].
    now rewrite endsSolid_cons in Hs by discriminate.
  - intros t rep n E IH Hs. destruct t as [|c tl]; [discriminate E|].
    unfold reSpaces in E.
    destruct (isWs c) eqn:Ec; [|discriminate E].
    injection E as <- <-. cbn [skipn] in *. rewrite skipn_takeWs in *.
    assert (Hrun : forallb isWs (c :: takeWs tl) = true)
      by (simpl; rewrite Ec; apply takeWs_all).
    assert (Hsplit : c :: tl = (c :: takeWs tl) ++ dropWs tl)
      by (simpl; now rewrite takeWs_dropWs).
    rewrite Hsplit, endsSolid_app in Hs.
    destruct (dropWs tl) as [|a r] eqn:Ed.
    + rewrite (endsSolid_ws _ Hrun) in Hs by discriminate. discriminate Hs.
    + pose proof (dropWs_head tl a r Ed) as Ha.
      destruct (replaceAll_ends reSpaces reSpaces_consuming reSpaces_ends
                  (a :: r)) as [Hh _].
      cbn [app tidy]. change (isWs space) with true. cbv iota.
      rewrite (IH Hs), N.eqb_refl, andb_true_r. simpl.
      destruct (replaceAll reSpaces (a :: r)) as [|e out]; [discriminate Hh|].
      unfold headWs in Hh. simpl in Hh. injection Hh as Hh.
      simpl. now rewrite Hh, Ha.
Qed.

Lemma headWs_trim (s : jsstring) : headWs (trim s) <> Some true.
Proof.
  unfold trim, trimStart.
  destruct (dropWs s) as [|a r] eqn:E; [discriminate|].
  pose proof (dropWs_head s a r E) as Ha.
  cbn [trimEnd]. destruct (trimEnd r); [rewrite Ha|];
    unfold headWs; simpl; rewrite Ha; discriminate.
Qed.

(** The string after lines 20 to 26 has no redundant white space. *)
Lemma rewriteOperators_singleSpaced (s : jsstring) :
  singleSpaced (rewriteOperators s) = true.
Proof.
  unfold rewriteOperators.
  set (x1 := trim s).
  set (x2 := replaceAll reCaret x1).
  set (x3 := replaceAll reDigitLetter x2).
  set (x4 := replaceAll reCloseAlnum x3).
  set (x5 := replaceAll reDigitOpen x4).
  set (x6 := replaceAll reCloseOpen x5).
  destruct (replaceAll_ends reCaret reCaret_consuming reCaret_ends x1)
    as [H2 E2].
  destruct (replaceAll_ends reDigitLetter reDigitLetter_consuming
              reDigitLetter_ends x2) as [H3 E3].
  destruct (replaceAll_ends reCloseAlnum reCloseAlnum_consuming
              reCloseAlnum_ends x3) as [H4 E4].
  destruct (replaceAll_ends reDigitOpen reDigitOpen_consuming
              reDigitOpen_ends x4) as [H5 E5].
  destruct (replaceAll_ends reCloseOpen reCloseOpen_consuming
              reCloseOpen_ends x5) as [H6 E6].
  destruct (replaceAll_ends reSpaces reSpaces_consuming reSpaces_ends x6)
    as [H7 _].
  fold x2 in H2, E2. fold x3 in H3, E3. fold x4 in H4, E4.
  fold x5 in H5, E5. fold x6 in H6, E6.
  assert (Hend : endsSolid x6 = true).
  { rewrite E6, E5, E4, E3, E2. apply endsSolid_trimEnd. }
  assert (Hhead : headWs (replaceAll reSpaces x6) <> Some true).
  { rewrite H7, H6, H5, H4, H3, H2. apply headWs_trim. }
  unfold singleSpaced.
  rewrite (replaceAll_reSpaces_tidy x6 Hend), andb_true_r.
  destruct (replaceAll reSpaces x6) as [|c r]; [reflexivity|].
  unfold headWs in Hhead. simpl in *.
  destruct (isWs c); [congruence|reflexivity].
Qed.

(** Without [=] in the input, the result of [parseExpression] is in
    acceptable form, so a second application changes nothing. *)
Lemma normalize_result_acceptable (s : jsstring) :
  ~ In equals s -> acceptable (normalize s).
Proof.
  intros He. rewrite (normalize_without_equals s He).
  destruct equals_blind as (Hs & Hc & Hw).
  split; [|split; [|split]].
  - rewrite In_occurrences, rewriteOperators_no_caret. lia.
  - intros H. apply He. apply In_occurrences. apply In_occurrences in H.
    unfold occurrences in *.
    now rewrite (rewriteOperators_filter _ Hw Hs Hc) in H.
  - unfold sites. now rewrite !rewriteOperators_no_sites.
  - apply rewriteOperators_singleSpaced.
Qed.

Lemma normalize_idempotent_without_equals (s : jsstring) :
  ~ In equals s -> normalize (normalize s) = normalize s.
Proof.
  intros He. apply normalize_acceptable. now apply normalize_result_acceptable.
Qed.

End EndsOfMatches.

(** With two [=] in the input a second application consumes the second
    one: the restriction to equation-free (or acceptable) strings is
    needed. *)
Example normalize_twice_two_equals :
  normalize (js "a=b=c") = js "a-(b=c)"
  /\ normalize (normalize (js "a=b=c")) = js "a-(b-(c))".
Proof. split; reflexivity. Qed.

(** The value [doMaths] reads from the page: an empty or missing selection
    stands for [solve]. *)
Example selectedCommand_default :
  selectedCommand None = js "solve"
  /\ selectedCommand (Some []) = js "solve"
  /\ selectedCommand (Some (js "diff")) = js "diff".
Proof. repeat split. Qed.

(* ================================================================== *)
(** * The two sides of an equation are rewritten independently *)
(* ================================================================== *)

Section Locality.

Local Open Scope N_scope.

Lemma skipn_app_le (n : nat) (x z : jsstring) :
  (n <= length x)%nat -> skipn n (x ++ z) = skipn n x ++ z.
Proof.
  intros H. rewrite skipn_app.
  replace (n - length x)%nat with 0%nat by lia. reflexivity.
Qed.

(** A scan does not notice what follows the part it is looking at. *)
Lemma replaceAll_app_inert (m : matcher) (z : jsstring) :
  consuming m ->
  (forall c x, m ((c :: x) ++ z) = m (c :: x)) ->
  forall x, replaceAll m (x ++ z) = replaceAll m x ++ replaceAll m z.
Proof.
  intros Hm Hz.
  apply (replaceAll_ind m
           (fun x out => replaceAll m (x ++ z) = out ++ replaceAll m z) Hm).
  - reflexivity.
  - intros c tl E IH.
    rewrite <- app_comm_cons, replaceAll_miss by (rewrite app_comm_cons, Hz; exact E).
    now rewrite IH.
  - intros t rep n E IH. destruct (Hm t rep n E) as [Hn Hl].
    destruct t as [|c t]; [simpl in Hl; lia|].
    rewrite (replaceAll_hit m ((c :: t) ++ z) rep n Hm)
      by (rewrite Hz; exact E).
    rewrite (skipn_app_le n (c :: t) z Hl), IH. now rewrite app_assoc.
Qed.

Lemma dropWs_app (x z : jsstring) :
  dropWs (x ++ z) = match dropWs x with [] => dropWs z | r => r ++ z end.
Proof.
  induction x as [|c x IH]; simpl; [now destruct (dropWs z)|].
  destruct (isWs c); [exact IH|reflexivity].
Qed.

Lemma takeWs_app (x z : jsstring) :
  takeWs (x ++ z) = match dropWs x with [] => x ++ takeWs z | _ => takeWs x end.
Proof.
  induction x as [|c x IH]; simpl; [reflexivity|].
  destruct (isWs c); [|reflexivity].
  rewrite IH. now destruct (dropWs x).
Qed.

(** What follows is quiet: no letter at once, and after optional white
    space neither a letter or digit nor an opening parenthesis. *)
Variable z : jsstring.
Hypothesis Hz : context z = context [].

Lemma quiet_letter : headIs isLetter z = false.
Proof. unfold context in Hz. now injection Hz. Qed.

Lemma quiet_alnum : headIs isAlnum (dropWs z) = false.
Proof. unfold context, nextIs in Hz. now injection Hz. Qed.

Lemma quiet_open : headIs isOpen (dropWs z) = false.
Proof. unfold context, nextIs in Hz. now injection Hz. Qed.

Lemma reCaret_inert (c : char) (x : jsstring) :
  reCaret ((c :: x) ++ z) = reCaret (c :: x).
Proof. reflexivity. Qed.

Lemma reDigitLetter_inert (c : char) (x : jsstring) :
  reDigitLetter ((c :: x) ++ z) = reDigitLetter (c :: x).
Proof.
  destruct x as [|l x]; [|reflexivity]. cbn [app reDigitLetter].
  pose proof quiet_letter as H. destruct z as [|e y]; [reflexivity|].
  simpl in H. rewrite H. now rewrite andb_false_r.
Qed.

Lemma reCloseAlnum_inert (c : char) (x : jsstring) :
  reCloseAlnum ((c :: x) ++ z) = reCloseAlnum (c :: x).
Proof.
  cbn [app reCloseAlnum]. destruct (c =? rparen); [|reflexivity].
  rewrite dropWs_app, takeWs_app.
  destruct (dropWs x) as [|a r] eqn:E; [|reflexivity].
  pose proof quiet_alnum as H.
  destruct (dropWs z) as [|e y]; [reflexivity|]. simpl in H. now rewrite H.
Qed.

Lemma reDigitOpen_inert (c : char) (x : jsstring) :
  reDigitOpen ((c :: x) ++ z) = reDigitOpen (c :: x).
Proof.
  cbn [app reDigitOpen]. destruct (isDigit c); [|reflexivity].
  rewrite dropWs_app, takeWs_app.
  destruct (dropWs x) as [|a r] eqn:E; [|reflexivity].
  pose proof quiet_open as H.
  destruct (dropWs z) as [|e y]; [reflexivity|].
  unfold isOpen in H. simpl in H. now rewrite H.
Qed.

Lemma reCloseOpen_inert (c : char) (x : jsstring) :
  reCloseOpen ((c :: x) ++ z) = reCloseOpen (c :: x).
Proof.
  cbn [app reCloseOpen]. destruct (c =? rparen); [|reflexivity].
  rewrite dropWs_app, takeWs_app.
  destruct (dropWs x) as [|a r] eqn:E; [|reflexivity].
  pose proof quiet_open as H.
  destruct (dropWs z) as [|e y]; [reflexivity|].
  unfold isOpen in H. simpl in H. now rewrite H.
Qed.

End Locality.

Section Sides.

Local Open Scope N_scope.

Lemma context_reCaret (z : jsstring) :
  context (replaceAll reCaret z) = context z.
Proof.
  exact (proj1 (replaceAll_sites reCaret ownNone reCaret_consuming
                  (ownNone_miss reCaret) reCaret_hit z)).
Qed.

Lemma context_reDigitLetter (z : jsstring) :
  context (replaceAll reDigitLetter z) = context z.
Proof.
  exact (proj1 (replaceAll_sites reDigitLetter ownDigitLetter
                  reDigitLetter_consuming reDigitLetter_miss
                  reDigitLetter_hit z)).
Qed.

Lemma context_reCloseAlnum (z : jsstring) :
  context (replaceAll reCloseAlnum z) = context z.
Proof.
  exact (proj1 (replaceAll_sites reCloseAlnum ownCloseAlnum
                  reCloseAlnum_consuming reCloseAlnum_miss
                  reCloseAlnum_hit z)).
Qed.

Lemma context_reDigitOpen (z : jsstring) :
  context (replaceAll reDigitOpen z) = context z.
Proof.
  exact (proj1 (replaceAll_sites reDigitOpen ownDigitOpen
                  reDigitOpen_consuming reDigitOpen_miss
                  reDigitOpen_hit z)).
Qed.

(** Lines 21 to 25 treat the text before a quiet rest on its own. *)
Lemma insertMarks_app (x z : jsstring) :
  context z = context [] ->
  insertMarks (x ++ z) = insertMarks x ++ insertMarks z.
Proof.
  intros Hz. unfold insertMarks.
  rewrite (replaceAll_app_inert reCaret z reCaret_consuming
             (reCaret_inert z)).
  set (z1 := replaceAll reCaret z).
  assert (H1 : context z1 = context []) by (unfold z1; now rewrite context_reCaret).
  rewrite (replaceAll_app_inert reDigitLetter z1 reDigitLetter_consuming
             (reDigitLetter_inert z1 H1)).
  set (z2 := replaceAll reDigitLetter z1).
  assert (H2 : context z2 = context [])
    by (unfold z2; now rewrite context_reDigitLetter).
  rewrite (replaceAll_app_inert reCloseAlnum z2 reCloseAlnum_consuming
             (reCloseAlnum_inert z2 H2)).
  set (z3 := replaceAll reCloseAlnum z2).
  assert (H3 : context z3 = context [])
    by (unfold z3; now rewrite context_reCloseAlnum).
  rewrite (replaceAll_app_inert reDigitOpen z3 reDigitOpen_consuming
             (reDigitOpen_inert z3 H3)).
  set (z4 := replaceAll reDigitOpen z3).
  assert (H4 : context z4 = context [])
    by (unfold z4; now rewrite context_reDigitOpen).
  now rewrite (replaceAll_app_inert reCloseOpen z4 reCloseOpen_consuming
                 (reCloseOpen_inert z4 H4)).
Qed.

(** None of the five patterns starts at [=] or at white space. *)
Lemma insertMarks_cons_plain (c : char) (y : jsstring) :
  isDigit c = false -> (c =? rparen) = false -> (c =? caret) = false ->
  insertMarks (c :: y) = c :: insertMarks y.
Proof.
  intros Hd Hr Hc. unfold insertMarks.
  rewrite (replaceAll_miss reCaret c y) by (unfold reCaret; now rewrite Hc).
  rewrite (replaceAll_miss reDigitLetter c)
    by (unfold reDigitLetter; rewrite Hd;
        now destruct (replaceAll reCaret y)).
  rewrite (replaceAll_miss reCloseAlnum c)
    by (unfold reCloseAlnum; now rewrite Hr).
  rewrite (replaceAll_miss reDigitOpen c)
    by (unfold reDigitOpen; now rewrite Hd).
  now rewrite (replaceAll_miss reCloseOpen c)
    by (unfold reCloseOpen; now rewrite Hr).
Qed.

Lemma insertMarks_ws (w y : jsstring) :
  forallb isWs w = true -> insertMarks (w ++ y) = w ++ insertMarks y.
Proof.
  induction w as [|c w IH]; [reflexivity|]. intros H.
  simpl in H. apply andb_true_iff in H as [Hc Hw].
  destruct (ws_facts c Hc) as (Hd & _ & _ & Hr & _ & _ & Hk).
  cbn [app]. rewrite (insertMarks_cons_plain c _ Hd Hr Hk).
  now rewrite IH.
Qed.

Lemma insertMarks_nil : insertMarks [] = [].
Proof. reflexivity. Qed.

(** Lines 21 to 25 on the two sides of an [=]. *)
Lemma insertMarks_equation (x y : jsstring) :
  insertMarks (x ++ equals :: y) = insertMarks x ++ equals :: insertMarks y.
Proof.
  rewrite (insertMarks_app x (equals :: y)) by reflexivity.
  now rewrite (insertMarks_cons_plain equals y).
Qed.

(** Lines 21 to 25 leave white space at the end where it is. *)
Lemma insertMarks_trailing (x w : jsstring) :
  forallb isWs w = true -> insertMarks (x ++ w) = insertMarks x ++ w.
Proof.
  intros Hw. rewrite (insertMarks_app x w (context_ws w Hw)).
  f_equal. rewrite <- (app_nil_r w) at 1.
  now rewrite (insertMarks_ws w [] Hw), insertMarks_nil, app_nil_r.
Qed.

End Sides.

Section SpacesAndEnds.

Local Open Scope N_scope.

Lemma rewriteOperators_eq (s : jsstring) :
  rewriteOperators s = replaceAll reSpaces (insertMarks (trim s)).
Proof. reflexivity. Qed.

Lemma takeWs_all_ws (x : jsstring) : dropWs x = [] -> takeWs x = x.
Proof.
  intros H. rewrite <- (takeWs_dropWs x) at 2. now rewrite H, app_nil_r.
Qed.

Lemma takeWs_run (w : jsstring) : forallb isWs w = true -> takeWs w = w.
Proof.
  induction w as [|c w IH]; [reflexivity|]. simpl. intros H.
  apply andb_true_iff in H as [Hc Hw]. now rewrite Hc, IH.
Qed.

Lemma dropWs_ws (w : jsstring) : forallb isWs w = true -> dropWs w = [].
Proof.
  induction w as [|c w IH]; [reflexivity|]. simpl. intros H.
  apply andb_true_iff in H as [Hc Hw]. now rewrite Hc, IH.
Qed.

Lemma dropWs_solid (x : jsstring) : headIs isWs x = false -> dropWs x = x.
Proof. destruct x as [|c x]; [reflexivity|]. simpl. now intros ->. Qed.

(** Line 26 on the left of text that does not start with white space. *)
Lemma reSpaces_inert (z : jsstring) :
  headIs isWs z = false ->
  forall c x, reSpaces ((c :: x) ++ z) = reSpaces (c :: x).
Proof.
  intros Hz c x. cbn [app reSpaces]. destruct (isWs c); [|reflexivity].
  rewrite takeWs_app. destruct (dropWs x) as [|a r] eqn:E; [|reflexivity].
  rewrite (takeWs_all_ws x E).
  destruct z as [|e y]; [now rewrite app_nil_r|].
  simpl in Hz. simpl. now rewrite Hz, app_nil_r.
Qed.

Lemma reSpaces_equation (x y : jsstring) :
  replaceAll reSpaces (x ++ equals :: y)
  = replaceAll reSpaces x ++ equals :: replaceAll reSpaces y.
Proof.
  rewrite (replaceAll_app_inert reSpaces (equals :: y) reSpaces_consuming
             (reSpaces_inert (equals :: y) eq_refl)).
  now rewrite (replaceAll_miss reSpaces equals y eq_refl).
Qed.

(** A run of white space becomes one space. *)
Lemma reSpaces_leading (w y : jsstring) :
  forallb isWs w = true -> w <> [] -> headIs isWs y = false ->
  replaceAll reSpaces (w ++ y) = space :: replaceAll reSpaces y.
Proof.
  intros Hw Hn Hy. destruct w as [|c w]; [congruence|].
  simpl in Hw. apply andb_true_iff in Hw as [Hc Hw].
  rewrite (replaceAll_hit reSpaces ((c :: w) ++ y) [space]
             (S (length w)) reSpaces_consuming).
  - cbn [app skipn]. f_equal. f_equal.
    rewrite skipn_app, skipn_all, Nat.sub_diag. reflexivity.
  - cbn [app reSpaces]. rewrite Hc, takeWs_app, (dropWs_ws w Hw).
    destruct y as [|e y]; [now rewrite app_nil_r|].
    simpl in Hy. simpl. now rewrite Hy, app_nil_r.
Qed.

Lemma endsSolid_parts (w x : jsstring) :
  forallb isWs w = true -> w <> [] -> endsSolid (w ++ x) = true ->
  x <> [] /\ endsSolid x = true.
Proof.
  intros Hw Hn H. rewrite endsSolid_app in H. destruct x as [|a r].
  - rewrite (endsSolid_ws w Hw Hn) in H. discriminate H.
  - split; [discriminate|exact H].
Qed.

Lemma reSpaces_trailing (w : jsstring) :
  forallb isWs w = true -> w <> [] ->
  forall x, endsSolid x = true ->
  replaceAll reSpaces (x ++ w) = replaceAll reSpaces x ++ [space].
Proof.
  intros Hw Hn.
  apply (replaceAll_ind reSpaces
           (fun x out => endsSolid x = true ->
                         replaceAll reSpaces (x ++ w) = out ++ [space])
           reSpaces_consuming).
  - intros _. pose proof (reSpaces_leading w [] Hw Hn eq_refl) as H.
    rewrite app_nil_r in H. exact H.
  - intros c tl E IH Hs. unfold reSpaces in E.
    destruct (isWs c) eqn:Ec; [discriminate E|].
    rewrite <- app_comm_cons, replaceAll_miss
      by (unfold reSpaces; now rewrite Ec).
    rewrite IH; [reflexivity|].
    destruct tl as [|d r]; [reflexivity|].
    now rewrite endsSolid_cons in Hs by discriminate.
  - intros t rep n E IH Hs. destruct t as [|c tl]; [discriminate E|].
    unfold reSpaces in E.
    destruct (isWs c) eqn:Ec; [|discriminate E].
    injection E as <- <-. cbn [skipn] in *. rewrite skipn_takeWs in *.
    assert (Hrun : forallb isWs (c :: takeWs tl) = true)
      by (simpl; rewrite Ec; apply takeWs_all).
    assert (Hsplit : c :: tl = (c :: takeWs tl) ++ dropWs tl)
      by (simpl; now rewrite takeWs_dropWs).
    rewrite Hsplit in Hs.
    destruct (endsSolid_parts _ _ Hrun ltac:(discriminate) Hs) as [Hne Hs'].
    rewrite (replaceAll_hit reSpaces ((c :: tl) ++ w) [space]
               (S (length (takeWs tl))) reSpaces_consuming).
    + cbn [app skipn]. rewrite skipn_app_le by apply length_takeWs.
      rewrite skipn_takeWs, (IH Hs'). reflexivity.
    + cbn [app reSpaces]. rewrite Ec, takeWs_app.
      destruct (dropWs tl); [congruence|reflexivity].
Qed.

(** ** Trimming *)

Lemma trimEnd_app_solid (x : jsstring) (c : char) (b : jsstring) :
  isWs c = false -> trimEnd (x ++ c :: b) = x ++ c :: trimEnd b.
Proof.
  intros Hc. induction x as [|d x IH].
  - cbn [app trimEnd]. destruct (trimEnd b); [now rewrite Hc|reflexivity].
  - cbn [app trimEnd]. rewrite IH.
    destruct (x ++ c :: trimEnd b) eqn:E; [|reflexivity].
    destruct x; discriminate E.
Qed.

Lemma trimEnd_ws (w : jsstring) : forallb isWs w = true -> trimEnd w = [].
Proof.
  induction w as [|c w IH]; [reflexivity|]. simpl. intros H.
  apply andb_true_iff in H as [Hc Hw]. now rewrite (IH Hw), Hc.
Qed.

Lemma trimEnd_app_ws (x w : jsstring) :
  forallb isWs w = true -> trimEnd (x ++ w) = trimEnd x.
Proof.
  intros Hw. induction x as [|c x IH]; [now apply trimEnd_ws|].
  cbn [app trimEnd]. now rewrite IH.
Qed.

Lemma trim_equation (a b : jsstring) :
  trim (a ++ equals :: b) = dropWs a ++ equals :: trimEnd b.
Proof.
  unfold trim, trimStart. rewrite dropWs_app.
  destruct (dropWs a) as [|c r] eqn:E.
  - cbn [dropWs]. change (isWs equals) with false. cbv iota.
    exact (trimEnd_app_solid [] equals b eq_refl).
  - now rewrite (trimEnd_app_solid (c :: r) equals b eq_refl).
Qed.

Lemma trim_comm (b : jsstring) : dropWs (trimEnd b) = trimEnd (dropWs b).
Proof.
  rewrite <- (takeWs_dropWs b) at 1.
  destruct (dropWs b) as [|c r] eqn:E.
  - rewrite app_nil_r, (trimEnd_ws _ (takeWs_all b)). reflexivity.
  - pose proof (dropWs_head b c r E) as Hc.
    rewrite (trimEnd_app_solid (takeWs b) c r Hc).
    rewrite (dropWs_run (takeWs b) c (trimEnd r) (takeWs_all b) Hc).
    symmetry. exact (trimEnd_app_solid [] c r Hc).
Qed.

End SpacesAndEnds.

Section EquationSides.

Local Open Scope N_scope.

Lemma first_occurrence_unique (e : char) (a a' b b' : jsstring) :
  ~ In e a -> ~ In e a' -> a ++ e :: b = a' ++ e :: b' -> a = a' /\ b = b'.
Proof.
  revert a'. induction a as [|c a IH]; intros [|c' a'] Ha Ha' H.
  - injection H as <-. auto.
  - injection H as -> _. exfalso. apply Ha'. now left.
  - injection H as -> _. exfalso. apply Ha. now left.
  - injection H as <- H.
    destruct (IH a') as [<- <-]; auto; intros Hin; [apply Ha|apply Ha'];
      now right.
Qed.

(** Line 27 in terms of the text on the two sides of the leftmost [=]. *)
Lemma replaceFirst_reEquals_sides (x y : jsstring) :
  ~ In equals x ->
  replaceFirst reEquals (x ++ equals :: y)
  = trimEnd x ++ [minus; lparen] ++ dropWs y.
Proof.
  intros Hx.
  destruct (replaceFirst_reEquals (x ++ equals :: y))
    as (lhs & w1 & w2 & rhs & Hp & Hl & Hw1 & Hw2 & Ht & Hd & Hr).
  { apply in_or_app. right. now left. }
  rewrite Hr. rewrite app_assoc in Hp.
  destruct (first_occurrence_unique equals x (lhs ++ w1) y (w2 ++ rhs))
    as [-> ->]; [exact Hx| |exact Hp|].
  - intros H. apply in_app_or in H as [H|H]; [contradiction|].
    rewrite forallb_forall in Hw1. now apply Hw1 in H.
  - rewrite (trimEnd_app_ws lhs w1 Hw1), Ht.
    rewrite dropWs_app, (dropWs_ws w2 Hw2), Hd. reflexivity.
Qed.

Lemma insertMarks_ends (x : jsstring) :
  headWs (insertMarks x) = headWs x
  /\ endsSolid (insertMarks x) = endsSolid x.
Proof.
  unfold insertMarks.
  destruct (replaceAll_ends reCaret reCaret_consuming reCaret_ends x)
    as [H2 E2].
  destruct (replaceAll_ends reDigitLetter reDigitLetter_consuming
              reDigitLetter_ends (replaceAll reCaret x)) as [H3 E3].
  destruct (replaceAll_ends reCloseAlnum reCloseAlnum_consuming
              reCloseAlnum_ends
              (replaceAll reDigitLetter (replaceAll reCaret x))) as [H4 E4].
  destruct (replaceAll_ends reDigitOpen reDigitOpen_consuming
              reDigitOpen_ends
              (replaceAll reCloseAlnum
                 (replaceAll reDigitLetter (replaceAll reCaret x))))
    as [H5 E5].
  destruct (replaceAll_ends reCloseOpen reCloseOpen_consuming
              reCloseOpen_ends
              (replaceAll reDigitOpen
                 (replaceAll reCloseAlnum
                    (replaceAll reDigitLetter (replaceAll reCaret x)))))
    as [H6 E6].
  split; congruence.
Qed.

(** Trimming the end before lines 21 to 26 or after them is the same. *)
Lemma trimEnd_rewritten (y : jsstring) :
  trimEnd (replaceAll reSpaces (insertMarks y))
  = replaceAll reSpaces (insertMarks (trimEnd y)).
Proof.
  destruct (trimEnd_split y) as (w & Hy & Hw).
  rewrite Hy at 1. rewrite (insertMarks_trailing (trimEnd y) w Hw).
  set (x := insertMarks (trimEnd y)).
  assert (Hx : endsSolid x = true).
  { unfold x. rewrite (proj2 (insertMarks_ends (trimEnd y))).
    apply endsSolid_trimEnd. }
  pose proof (tidy_trimEnd _ (replaceAll_reSpaces_tidy x Hx)) as Ht.
  destruct w as [|c w]; [now rewrite app_nil_r|].
  rewrite (reSpaces_trailing (c :: w) Hw ltac:(discriminate) x Hx).
  now rewrite (trimEnd_app_ws _ [space] eq_refl).
Qed.

(** So is trimming the start. *)
Lemma dropWs_rewritten (y : jsstring) :
  dropWs (replaceAll reSpaces (insertMarks y))
  = replaceAll reSpaces (insertMarks (dropWs y)).
Proof.
  rewrite <- (takeWs_dropWs y) at 1.
  rewrite (insertMarks_ws (takeWs y) (dropWs y) (takeWs_all y)).
  set (x := insertMarks (dropWs y)).
  assert (Hx : headIs isWs x = false).
  { pose proof (proj1 (insertMarks_ends (dropWs y))) as H. fold x in H.
    destruct (dropWs y) as [|a r] eqn:E.
    - destruct x; [reflexivity|discriminate H].
    - pose proof (dropWs_head y a r E) as Ha.
      destruct x as [|e x']; [reflexivity|].
      unfold headWs in H. simpl in *. congruence. }
  assert (Hout : headIs isWs (replaceAll reSpaces x) = false).
  { pose proof (proj1 (replaceAll_ends reSpaces reSpaces_consuming
                         reSpaces_ends x)) as H.
    destruct x as [|e x']; [reflexivity|].
    destruct (replaceAll reSpaces (e :: x')) as [|o out]; [reflexivity|].
    unfold headWs in H. simpl in *. congruence. }
  destruct (takeWs y) as [|c w] eqn:Ew; [now apply dropWs_solid|].
  rewrite (reSpaces_leading (c :: w) x) by
    (try discriminate; try exact Hx; rewrite <- Ew; apply takeWs_all).
  cbn [dropWs]. change (isWs space) with true. cbv iota.
  now apply dropWs_solid.
Qed.

(** [parseExpression] on an equation: both sides are rewritten on their
    own, trimmed, and put together as [lhs-(rhs)]. *)
Lemma normalize_equation (a b : jsstring) :
  ~ In equals a ->
  normalize (a ++ equals :: b)
  = rewriteOperators a ++ [minus; lparen] ++ rewriteOperators b ++ [rparen].
Proof.
  intros Ha. unfold normalize.
  rewrite (rewriteOperators_eq (a ++ equals :: b)), trim_equation.
  rewrite insertMarks_equation, reSpaces_equation.
  set (A := replaceAll reSpaces (insertMarks (dropWs a))).
  set (B := replaceAll reSpaces (insertMarks (trimEnd b))).
  assert (HA : ~ In equals A).
  { intros H. apply Ha. apply In_occurrences. apply In_occurrences in H.
    unfold A, occurrences in *.
    rewrite (replaceAll_filter _ _ reSpaces_consuming
               (reSpaces_respects _ (proj2 (proj2 equals_blind)))) in H.
    unfold insertMarks in H.
    rewrite (replaceAll_filter _ _ reCloseOpen_consuming
               (reCloseOpen_respects _ eq_refl (proj2 (proj2 equals_blind))))
      in H.
    rewrite (replaceAll_filter _ _ reDigitOpen_consuming
               (reDigitOpen_respects _ eq_refl (proj2 (proj2 equals_blind))))
      in H.
    rewrite (replaceAll_filter _ _ reCloseAlnum_consuming
               (reCloseAlnum_respects _ eq_refl)) in H.
    rewrite (replaceAll_filter _ _ reDigitLetter_consuming
               (reDigitLetter_respects _ eq_refl)) in H.
    rewrite (replaceAll_filter _ _ reCaret_consuming
               (reCaret_respects _ eq_refl eq_refl)) in H.
    rewrite filter_dropWs in H by apply equals_blind. exact H. }
  unfold rewriteEquation.
  rewrite (proj2 (includes_In equals (A ++ equals :: B)))
    by (apply in_or_app; right; now left).
  rewrite (replaceFirst_reEquals_sides A B HA).
  unfold A, B. rewrite trimEnd_rewritten, dropWs_rewritten, trim_comm.
  rewrite !rewriteOperators_eq. unfold trim, trimStart.
  now rewrite <- !app_assoc.
Qed.

End EquationSides.

(** C5.  Every input that contains [=] splits at its first [=] into the text
    [a] before it and the text [b] after it, and [parseExpression] rewrites
    it to [lhs-(rhs)], where [lhs] and [rhs] are [a] and [b] after lines 20
    to 26 (trimmed, markers inserted, white space collapsed).  Exactly one
    [=] is consumed: [lhs] has none and the result has one less than the
    input, so further occurrences stay in [rhs].  In particular ["x+1=3"]
    becomes ["x+1-(3)"] and ["a=b=c"] becomes ["a-(b=c)"]. *)
Theorem C5_equation_rewrite :
  (forall s : jsstring,
     In equals s ->
     exists a b,
       s = a ++ equals :: b
       /\ ~ In equals a
       /\ normalize s
          = rewriteOperators a ++ js "-(" ++ rewriteOperators b ++ js ")"
       /\ ~ In equals (rewriteOperators a)
       /\ occurrences equals (rewriteOperators b) = occurrences equals b
       /\ S (occurrences equals (normalize s)) = occurrences equals s)
  /\ normalize (js "x+1=3") = js "x+1-(3)"
  /\ normalize (js "a=b=c") = js "a-(b=c)"
  /\ normalize (js " y  =  2x ") = js "y-(2*x)".
Proof.
  split; [|repeat split; reflexivity].
  intros s Hin.
  assert (Hocc : forall t, occurrences equals (rewriteOperators t)
                           = occurrences equals t).
  { intros t. unfold occurrences. f_equal.
    destruct equals_blind as (Hs & Hc & Hw).
    now apply rewriteOperators_filter. }
  assert (Hsplit : exists a b, s = a ++ equals :: b /\ ~ In equals a).
  { clear Hocc. induction s as [|c s IH]; [destruct Hin|].
    destruct (N.eq_dec c equals) as [->|Hc].
    - exists [], s. split; [reflexivity|]. intros [].
    - destruct Hin as [Hin|Hin]; [congruence|].
      destruct (IH Hin) as (a & b & -> & Ha).
      exists (c :: a), b. split; [reflexivity|].
      intros [H|H]; [congruence|contradiction]. }
  destruct Hsplit as (a & b & -> & Ha).
  exists a, b. split; [reflexivity|]. split; [exact Ha|].
  split; [exact (normalize_equation a b Ha)|].
  split; [|split; [apply Hocc|]].
  - rewrite In_occurrences, Hocc, (occurrences_none _ _ Ha). lia.
  - destruct (rewriteEquation_first_equals _ Hin)
      as (l & w1 & w2 & r & _ & _ & _ & _ & _ & _ & _ & _ & H).
    exact H.
Qed.

Lemma C5_equation_rewrite_witness :
  exists a b,
    js "x + 1 = 3" = a ++ equals :: b
    /\ ~ In equals a
    /\ normalize (js "x + 1 = 3")
       = rewriteOperators a ++ js "-(" ++ rewriteOperators b ++ js ")"
    /\ ~ In equals (rewriteOperators a)
    /\ occurrences equals (rewriteOperators b) = occurrences equals b
    /\ S (occurrences equals (normalize (js "x + 1 = 3")))
       = occurrences equals (js "x + 1 = 3").
Proof.
  apply (proj1 C5_equation_rewrite (js "x + 1 = 3")).
  simpl. tauto.
Defined.

(** How the patterns act on some inputs, sites the patterns do not know
    included. *)
Example normalize_examples :
  normalize (js " a  =  b = c ") = js "a-(b = c)"
  /\ normalize (js "(x) 2 (y) (z)3") = js "(x)* 2*(y)*(z)*3"
  /\ normalize (js "sin(x)cos(x)") = js "sin(x)*cos(x)"
  /\ normalize (js "2x3y") = js "2*x3*y"
  /\ normalize (js "1e5") = js "1*e5"
  /\ normalize (js "x2") = js "x2"
  /\ normalize (js "2 x") = js "2 x"
  /\ normalize (js "x(x+1)") = js "x(x+1)".
Proof. repeat split. Qed.

(* ================================================================== *)
(** * Further properties of the normaliser *)
(* ================================================================== *)

Section Shape.

Local Open Scope N_scope.

Lemma split_at_first (e : char) (s : jsstring) :
  In e s -> exists a b, s = a ++ e :: b /\ ~ In e a.
Proof.
  induction s as [|c s IH]; [intros []|].
  intros H. destruct (N.eq_dec c e) as [->|Hne].
  - exists [], s. split; [reflexivity|intros []].
  - destruct H as [H|H]; [contradiction|].
    destruct (IH H) as (a & b & -> & Ha).
    exists (c :: a), b. split; [reflexivity|].
    intros [Hc|Hc]; [contradiction|now apply Ha].
Qed.

Lemma tidy_app (a b : jsstring) :
  tidy a = true -> tidy b = true -> tidy (a ++ b) = true.
Proof.
  induction a as [|c a IH]; intros Ha Hb; [exact Hb|].
  cbn [app tidy] in *. apply andb_true_iff in Ha as [Hc Ha].
  rewrite (IH Ha Hb), andb_true_r.
  destruct (isWs c); [|reflexivity].
  apply andb_true_iff in Hc as [Hsp Hnext]. rewrite Hsp. simpl.
  destruct a as [|d a]; [discriminate|exact Hnext].
Qed.

(** The two sides of an equation put around [-(] and [)] keep their
    spacing. *)
Lemma singleSpaced_equation (A B : jsstring) :
  singleSpaced A = true -> singleSpaced B = true ->
  singleSpaced (A ++ [minus; lparen] ++ B ++ [rparen]) = true.
Proof.
  unfold singleSpaced. intros HA HB.
  apply andb_true_iff in HA as [HA1 HA2].
  apply andb_true_iff in HB as [HB1 HB2].
  apply andb_true_iff. split.
  - destruct A as [|c A]; [reflexivity|exact HA1].
  - apply tidy_app; [exact HA2|].
    change ([minus; lparen] ++ B ++ [rparen])
      with (minus :: lparen :: (B ++ [rparen])).
    cbn [tidy]. change (isWs minus) with false. change (isWs lparen) with false.
    cbn [andb]. apply tidy_app; [exact HB2|reflexivity].
Qed.

Lemma countSites_app_plain (k : Kind) (a z : jsstring) :
  context z = (false, false, false) ->
  countSites k (a ++ z) = (countSites k a + countSites k z)%nat.
Proof.
  intros Hz.
  pose proof (countSites_congr k a z [] Hz) as H.
  rewrite app_nil_r in H. cbn [countSites] in H. lia.
Qed.

Lemma countSites_equation (k : Kind) (A B : jsstring) :
  countSites k A = 0%nat -> countSites k B = 0%nat ->
  countSites k (A ++ [minus; lparen] ++ B ++ [rparen]) = 0%nat.
Proof.
  intros HA HB.
  rewrite countSites_app_plain by reflexivity. rewrite HA.
  change ([minus; lparen] ++ B ++ [rparen])
    with (minus :: lparen :: (B ++ [rparen])).
  cbn [countSites].
  rewrite !siteAt_plain by reflexivity.
  rewrite countSites_app_plain by reflexivity. rewrite HB.
  cbn [countSites]. change (context []) with (false, false, false).
  now rewrite siteAt_nothing.
Qed.

Lemma acceptable_equation (A B : jsstring) :
  acceptable A -> acceptable B ->
  acceptable (A ++ [minus; lparen] ++ B ++ [rparen]).
Proof.
  intros (Ac & Ae & As & Asp) (Bc & Be & Bs & Bsp).
  assert (Hin : forall c, c <> minus -> c <> lparen -> c <> rparen ->
            ~ In c A -> ~ In c B ->
            ~ In c (A ++ [minus; lparen] ++ B ++ [rparen])).
  { intros c H1 H2 H3 HA HB H.
    apply in_app_or in H as [H|H]; [now apply HA|].
    apply in_app_or in H as [H|H].
    - destruct H as [H|[H|[]]]; congruence.
    - apply in_app_or in H as [H|H]; [now apply HB|].
      destruct H as [H|[]]; congruence. }
  split; [|split; [|split]].
  - apply Hin; try discriminate; assumption.
  - apply Hin; try discriminate; assumption.
  - unfold sites in *.
    rewrite !countSites_equation; try lia.
  - now apply singleSpaced_equation.
Qed.

Lemma rewriteOperators_acceptable (s : jsstring) :
  ~ In equals s -> acceptable (rewriteOperators s).
Proof.
  intros He. rewrite <- (normalize_without_equals s He).
  now apply normalize_result_acceptable.
Qed.

(** X1.  A second application of [parseExpression] changes nothing exactly
    when the input has at most one [=]: the result of the first
    application is then free of [^], of [=], of implicit multiplication and
    of redundant white space; with two or more, the second application
    rewrites the next [=]. *)
Theorem normalize_idempotent_iff (s : jsstring) :
  normalize (normalize s) = normalize s <-> (occurrences equals s <= 1)%nat.
Proof.
  split.
  - intros Hfix.
    destruct (le_gt_dec (occurrences equals s) 1) as [Hle|Hgt]; [exact Hle|].
    exfalso.
    assert (Hin : In equals s) by (apply In_occurrences; lia).
    destruct (rewriteEquation_first_equals s Hin)
      as (l1 & u1 & v1 & r1 & _ & _ & _ & _ & _ & _ & _ & _ & Hocc).
    assert (Hin' : In equals (normalize s)) by (apply In_occurrences; lia).
    destruct (rewriteEquation_first_equals (normalize s) Hin')
      as (l2 & u2 & v2 & r2 & _ & _ & _ & _ & _ & _ & _ & _ & Hocc').
    rewrite Hfix in Hocc'. lia.
  - intros Hle.
    destruct (in_dec N.eq_dec equals s) as [Hin|Hnin].
    + destruct (split_at_first equals s Hin) as (a & b & -> & Ha).
      assert (Hb : ~ In equals b).
      { intros Hb. apply In_occurrences in Hb.
        rewrite occurrences_app, occurrences_cons in Hle.
        rewrite N.eqb_refl in Hle. lia. }
      rewrite (normalize_equation a b Ha).
      apply normalize_acceptable.
      apply acceptable_equation; now apply rewriteOperators_acceptable.
    + now apply normalize_idempotent_without_equals.
Qed.

(** X2.  Whatever the input, the result of [parseExpression] has no white
    space at either end, and its white space is single spaces, each
    between two other code units: trimming it changes nothing. *)
Theorem normalize_spacing (s : jsstring) :
  singleSpaced (normalize s) = true
  /\ trim (normalize s) = normalize s
  /\ (forall c, In c (normalize s) -> isWs c = true -> c = space).
Proof.
  assert (H : singleSpaced (normalize s) = true).
  { destruct (in_dec N.eq_dec equals s) as [Hin|Hnin].
    - destruct (split_at_first equals s Hin) as (a & b & -> & Ha).
      rewrite (normalize_equation a b Ha).
      apply singleSpaced_equation; apply rewriteOperators_singleSpaced.
    - rewrite (normalize_without_equals s Hnin).
      apply rewriteOperators_singleSpaced. }
  split; [exact H|]. split; [now apply singleSpaced_trim|].
  unfold singleSpaced in H. apply andb_true_iff in H as [_ H].
  revert H. generalize (normalize s) as l.
  induction l as [|d l IH]; intros Ht c [].
  - subst d. intros Hw. cbn [tidy] in Ht. rewrite Hw in Ht.
    apply andb_true_iff in Ht as [Ht _].
    apply andb_true_iff in Ht as [Ht _]. apply N.eqb_eq in Ht. exact Ht.
  - cbn [tidy] in Ht. apply andb_true_iff in Ht as [_ Ht]. now apply IH.
Qed.

Lemma solid_blind : blindToMarks solid.
Proof.
  split; [reflexivity|]. split; [reflexivity|].
  intros c Hc. unfold solid. now rewrite Hc.
Qed.

(** X3.  The result is the empty string exactly for the inputs that
    consist of white space only (the empty input among them). *)
Theorem normalize_empty_iff (s : jsstring) :
  normalize s = [] <-> forallb isWs s = true.
Proof.
  split.
  - intros Hn.
    destruct (in_dec N.eq_dec equals s) as [Hin|Hnin].
    + destruct (split_at_first equals s Hin) as (a & b & -> & Ha).
      rewrite (normalize_equation a b Ha) in Hn.
      apply app_eq_nil in Hn as [_ Hn]. discriminate.
    + rewrite (normalize_without_equals s Hnin) in Hn.
      destruct solid_blind as (Hs & Hc & Hw).
      pose proof (rewriteOperators_filter solid Hw Hs Hc s) as Hf.
      pose proof (rewriteOperators_stars s) as Hst.
      rewrite Hn in Hf, Hst. cbn in Hf. cbn [occurrences filter length] in Hst.
      apply forallb_forall. intros c Hc'.
      destruct (isWs c) eqn:Ews; [reflexivity|exfalso].
      destruct (c =? star) eqn:Es.
      { apply N.eqb_eq in Es. subst c. apply In_occurrences in Hc'. lia. }
      destruct (c =? caret) eqn:Ec.
      { apply N.eqb_eq in Ec. subst c. apply In_occurrences in Hc'. lia. }
      assert (Hin : In c (filter solid s)).
      { apply filter_In. split; [exact Hc'|].
        unfold solid. now rewrite Ews, Es, Ec. }
      rewrite <- Hf in Hin. exact Hin.
  - intros Hw.
    assert (Hnin : ~ In equals s).
    { intros Hin. rewrite forallb_forall in Hw. now apply Hw in Hin. }
    rewrite (normalize_without_equals s Hnin), rewriteOperators_eq.
    unfold trim, trimStart. rewrite (dropWs_ws s Hw).
    reflexivity.
Qed.

Lemma occurrences_filter (keep : char -> bool) (c : char) (a b : jsstring) :
  keep c = true -> filter keep a = filter keep b ->
  occurrences c a = occurrences c b.
Proof.
  intros Hk Hf. unfold occurrences.
  assert (H : forall l, filter (N.eqb c) l = filter (N.eqb c) (filter keep l)).
  { induction l as [|d l IH]; [reflexivity|]. cbn [filter].
    destruct (keep d) eqn:Ed; cbn [filter].
    - destruct (c =? d); now rewrite IH.
    - destruct (c =? d) eqn:Ecd; [|exact IH].
      apply N.eqb_eq in Ecd. congruence. }
  now rewrite (H a), (H b), Hf.
Qed.

(** X4.  Parentheses: [parseExpression] keeps every parenthesis of the
    input, and adds one pair exactly when the input has an [=]. *)
Theorem normalize_parentheses (s : jsstring) :
  let added := if includes equals s then 1%nat else 0%nat in
  occurrences lparen (normalize s) = (occurrences lparen s + added)%nat
  /\ occurrences rparen (normalize s) = (occurrences rparen s + added)%nat.
Proof.
  assert (Hop : forall t c, solid c = true ->
            occurrences c (rewriteOperators t) = occurrences c t).
  { intros t c Hc. apply (occurrences_filter solid c _ _ Hc).
    destruct solid_blind as (Hs & Hca & Hw).
    apply (rewriteOperators_filter solid Hw Hs Hca). }
  cbv zeta.
  destruct (includes equals s) eqn:Ei.
  - apply includes_In in Ei.
    destruct (split_at_first equals s Ei) as (a & b & -> & Ha).
    rewrite (normalize_equation a b Ha).
    rewrite !occurrences_app, !occurrences_cons, !Hop by reflexivity.
    cbn. lia.
  - assert (Hnin : ~ In equals s).
    { intros H. apply includes_In in H. congruence. }
    rewrite (normalize_without_equals s Hnin), !Hop by reflexivity. lia.
Qed.

End Shape.

Section Nesting.

Local Open Scope N_scope.

Import Stub.

Lemma parenDepth_solid (s : jsstring) (d : nat) :
  parenDepth (filter solid s) d = parenDepth s d.
Proof.
  revert d. induction s as [|c tl IH]; intros d; [reflexivity|].
  cbn [filter]. destruct (solid c) eqn:Ec.
  - cbn [parenDepth]. destruct (c =? lparen); [apply IH|].
    destruct (c =? rparen); [destruct d; [reflexivity|apply IH]|apply IH].
  - rewrite IH. cbn [parenDepth].
    assert (Hl : (c =? lparen) = false).
    { destruct (c =? lparen) eqn:E; [|reflexivity].
      apply N.eqb_eq in E. subst c. discriminate Ec. }
    assert (Hr : (c =? rparen) = false).
    { destruct (c =? rparen) eqn:E; [|reflexivity].
      apply N.eqb_eq in E. subst c. discriminate Ec. }
    now rewrite Hl, Hr.
Qed.

Lemma parenDepth_app (a b : jsstring) (d : nat) :
  parenDepth (a ++ b) d
  = match parenDepth a d with
    | Some d' => parenDepth b d'
    | None => None
    end.
Proof.
  revert d. induction a as [|c a IH]; intros d; [reflexivity|].
  cbn [app parenDepth]. destruct (c =? lparen); [apply IH|].
  destruct (c =? rparen); [destruct d; [reflexivity|apply IH]|apply IH].
Qed.

Lemma parenDepth_deeper (s : jsstring) (d d' : nat) :
  parenDepth s d = Some d' -> parenDepth s (S d) = Some (S d').
Proof.
  revert d. induction s as [|c tl IH]; intros d; cbn [parenDepth].
  - congruence.
  - destruct (c =? lparen); [apply IH|].
    destruct (c =? rparen); [|apply IH].
    destruct d as [|k]; [discriminate|]. apply IH.
Qed.

Lemma parenDepth_rewriteOperators (s : jsstring) (d : nat) :
  parenDepth (rewriteOperators s) d = parenDepth s d.
Proof.
  rewrite <- parenDepth_solid, <- (parenDepth_solid s).
  destruct solid_blind as (Hs & Hc & Hw).
  now rewrite (rewriteOperators_filter solid Hw Hs Hc).
Qed.

(** X5.  [parseExpression] keeps parentheses in balance: when every
    closing parenthesis of the input has its partner before it and none is
    left open, the same holds of the result, the pair added for an
    equation included. *)
Theorem normalize_keeps_balance (s : jsstring) :
  balanced s = true -> balanced (normalize s) = true.
Proof.
  unfold balanced. intros H.
  destruct (in_dec N.eq_dec equals s) as [Hin|Hnin].
  - destruct (split_at_first equals s Hin) as (a & b & -> & Ha).
    rewrite (normalize_equation a b Ha).
    rewrite parenDepth_app in H. rewrite parenDepth_app, parenDepth_rewriteOperators.
    destruct (parenDepth a 0) as [d|]; [|discriminate].
    change (parenDepth (equals :: b) d) with (parenDepth b d) in H.
    change ([minus; lparen] ++ rewriteOperators b ++ [rparen])
      with (minus :: lparen :: (rewriteOperators b ++ [rparen])).
    change (parenDepth (minus :: lparen :: (rewriteOperators b ++ [rparen])) d)
      with (parenDepth (rewriteOperators b ++ [rparen]) (S d)).
    rewrite parenDepth_app, parenDepth_rewriteOperators.
    destruct (parenDepth b d) as [[|k]|] eqn:Eb; try discriminate.
    now rewrite (parenDepth_deeper b d 0 Eb).
  - now rewrite (normalize_without_equals s Hnin), parenDepth_rewriteOperators.
Qed.

End Nesting.

(* ================================================================== *)
(** * Further properties of the bridge and of the sampler *)
(* ================================================================== *)

Section EngineCalls.

Variable eng : Engine.
Variable splicedRaw : jsstring -> jsstring -> PyResult (jsstring * Revised.RawValue (Raw eng)).


(** X7.  The two revisions agree: for a command with a [case], or a plain
    unknown one, the text the later revision returns is what the earlier
    one returns, and the promise is rejected in the one exactly when it is
    in the other, provided the engine can give the raw value of every
    result it can typeset. *)
Theorem revisions_agree (st : State) (u c : jsstring) :
  (forall a x s, actionLatex eng a x = PyOk s ->
     exists r, actionRaw eng a x = PyOk r) ->
  In c switch_cases \/ plainLiteral c = true ->
  textOf (fst (Revised.runSympyCommand eng splicedRaw st u c))
    = fst (runSympyCommand eng st u c)
  /\ snd (Revised.runSympyCommand eng splicedRaw st u c)
    = snd (runSympyCommand eng st u c).
Proof.
  intros Hraw Hc.
  unfold runSympyCommand, Revised.runSympyCommand.
  destruct (pyodideReady st); cbn [negb fst snd]; [|split; reflexivity].
  split; [|reflexivity].
  assert (Hp : forall b,
            textOf match runPythonAsync (Revised.pyCode eng b (globalsSet u st)) with
                   | Return (s, r) => Return (Revised.mkResult s r)
                   | Throw e => Throw e
                   end
            = runPythonAsync (Bridge.pyCode eng b (globalsSet u st))).
  { intros b. unfold Bridge.pyCode, Revised.pyCode. cbn [globalsSet user_expr].
    destruct (sympify eng u) as [x|e]; [|reflexivity].
    destruct b as [a| |c']; cbn [Bridge.runBody Revised.runBody]; try reflexivity.
    destruct (actionLatex eng a x) as [s|e] eqn:Ea.
    - destruct (Hraw a x s Ea) as [r ->]. reflexivity.
    - cbn [Bridge.tryExcept Revised.tryExcept].
      destruct (isException e); reflexivity. }
  unfold runCode, Revised.runCode.
  destruct (switchBody c) as [a| |c'] eqn:Eb; try apply Hp.
  apply switchBody_unknown_inv in Eb as [-> Hn].
  destruct Hc as [Hc|Hc]; [contradiction|].
  rewrite Hc. apply Hp.
Qed.

End EngineCalls.

Section SamplerContract.

Local Open Scope Z_scope.

Variable eng : Engine.

(** X8.  What the comment above [computeXYWithPyodide] promises: when the
    promise is fulfilled every entry of [xs] is a finite number and every
    entry of [ys] is a finite number or [null]; the entries of [ys] are the
    values the engine computed, the ones that are not real replaced by
    [null]. *)
Theorem sample_contract
    (st : State) (u : jsstring) (xMin xMax : float) (points : Z) (obj : XY) :
  fst (computeXYWithPyodide eng st u xMin xMax points) = Return obj ->
  forallb isFinite (xs obj) = true
  /\ forallb finiteOrNull (ys obj) = true
  /\ length (xs obj) = Z.to_nat points
  /\ exists (x : Expr eng) (raw : list PyVal),
       sympify eng u = PyOk x
       /\ applyLambdified (lambdify eng x) (xs obj) = PyOk raw
       /\ ys obj = List.map floatOrNone raw.
Proof.
  intros H.
  destruct (@computeXY_returns eng st u xMin xMax points obj H)
    as (x & lo & hi & raw & _ & Hx & _ & _ & Hl & Hraw & Hys & Hfx & Hfy).
  split; [exact Hfx|]. split; [exact Hfy|].
  split; [exact (proj2 (@linspace_length _ _ _ _ Hl))|].
  exists x, raw. auto.
Qed.


End SamplerContract.

(* ================================================================== *)
(** * Properties of the page *)
(* ================================================================== *)

Section PlotlyWait.

Local Open Scope Z_scope.

Lemma poll_quiet (T : Z) (pre l : list Tick) :
  Forall (quiet T) pre -> poll T (pre ++ l) = poll T l.
Proof.
  induction 1 as [|t pre [Hp He] _ IH]; [reflexivity|].
  cbn [app poll]. rewrite Hp.
  apply Z.ltb_ge in He. now rewrite He.
Qed.

Lemma poll_spec (T : Z) (tks : list Tick) :
  match poll T tks with
  | Rejected =>
      exists pre t post, tks = pre ++ t :: post /\ Forall (quiet T) pre
        /\ plotlyPresent t = false /\ T < elapsed t
  | Resolved =>
      exists pre t post, tks = pre ++ t :: post /\ Forall (quiet T) pre
        /\ plotlyPresent t = true
  | Pending => Forall (quiet T) tks
  end.
Proof.
  induction tks as [|t tl IH]; [constructor|].
  cbn [poll]. destruct (plotlyPresent t) eqn:Ep.
  - exists [], t, tl. auto.
  - destruct (T <? elapsed t) eqn:Et.
    + apply Z.ltb_lt in Et. exists [], t, tl. auto.
    + apply Z.ltb_ge in Et.
      assert (Hq : quiet T t) by (split; assumption).
      destruct (poll T tl).
      * destruct IH as (pre & t1 & post & -> & Hpre & Hp).
        exists (t :: pre), t1, post. auto.
      * destruct IH as (pre & t1 & post & -> & Hpre & Hp).
        exists (t :: pre), t1, post. auto.
      * now constructor.
Qed.

(** X10.  [ensurePlotlyLoaded] rejects exactly when Plotly was missing at
    the call and at every tick up to the first one later than the
    timeout after the start; it resolves exactly when Plotly was there at
    the call, or turns up at a tick before which no tick was later than
    the timeout.  At a tick that is late and has Plotly, it resolves. *)
Theorem ensurePlotlyLoaded_settles (T : Z) (present : bool) (tks : list Tick) :
  (ensurePlotlyLoaded T present tks = Rejected <->
     present = false
     /\ exists pre t post, tks = pre ++ t :: post /\ Forall (quiet T) pre
          /\ plotlyPresent t = false /\ T < elapsed t)
  /\ (ensurePlotlyLoaded T present tks = Resolved <->
     present = true
     \/ exists pre t post, tks = pre ++ t :: post /\ Forall (quiet T) pre
          /\ plotlyPresent t = true).
Proof.
  unfold ensurePlotlyLoaded. pose proof (poll_spec T tks) as Hs.
  split; split.
  - destruct present; [discriminate|]. intros H. rewrite H in Hs. auto.
  - intros (-> & pre & t & post & -> & Hpre & Hp & Ht).
    rewrite (poll_quiet T pre _ Hpre). cbn [poll]. rewrite Hp.
    apply Z.ltb_lt in Ht. now rewrite Ht.
  - destruct present; [auto|]. intros H. rewrite H in Hs. auto.
  - intros [->|(pre & t & post & -> & Hpre & Hp)]; [reflexivity|].
    destruct present; [reflexivity|].
    rewrite (poll_quiet T pre _ Hpre). cbn [poll]. now rewrite Hp.
Qed.

End PlotlyWait.

Section GridFacts.

Local Open Scope Z_scope.

Lemma linspace_plotGrid : linspace plotMin plotMax plotPoints = PyOk plotGrid.
Proof.
  unfold plotGrid.
  destruct (linspace plotMin plotMax plotPoints) as [l|e] eqn:E; [reflexivity|].
  unfold linspace in E. change (plotPoints <? 0) with false in E. discriminate.
Qed.

Lemma plotGrid_finite : forallb isFinite plotGrid = true.
Proof. vm_compute. reflexivity. Qed.

Lemma pyNumber_plotMin : pyNumber plotMin = PyOk plotMin.
Proof. reflexivity. Qed.

Lemma pyNumber_plotMax : pyNumber plotMax = PyOk plotMax.
Proof. reflexivity. Qed.

Lemma existsb_nonFinite (g : float -> PyVal) (l : list float) :
  existsb (fun v => nonFinite (g v)) l = true ->
  forallb finiteOrNull (List.map floatOrNone (List.map g l)) = false.
Proof.
  induction l as [|v l IH]; [discriminate|].
  cbn [existsb List.map forallb]. unfold nonFinite at 1.
  destruct (finiteOrNull (floatOrNone (g v))); [|reflexivity].
  cbn [negb orb andb]. exact IH.
Qed.

Lemma all_nonreal (g : float -> PyVal) (l : list float) :
  (forall v, In v l -> g v = PyNonReal) ->
  forallb finiteOrNull (List.map floatOrNone (List.map g l)) = true
  /\ existsb notNull (List.map floatOrNone (List.map g l)) = false.
Proof.
  induction l as [|v l IH]; intros H; [split; reflexivity|].
  cbn [List.map forallb existsb].
  rewrite (H v (or_introl eq_refl)). cbn [floatOrNone finiteOrNull notNull andb orb].
  apply IH. intros w Hw. apply H. now right.
Qed.

End GridFacts.

Lemma Return_inj {A : Type} (a b : A) : Return a = Return b -> a = b.
Proof. intros H. now injection H. Qed.

Section PlotFacts.

Variable eng : Engine.
Variable br : Browser.

Lemma outputDiv_setOutput (c : Content) (d : Dom) :
  outputDiv (setOutput c d) = match outputDiv d with Some _ => Some c | None => None end.
Proof. unfold setOutput. now destruct (outputDiv d) eqn:E. Qed.

Lemma graphDiv_setOutput (c : Content) (d : Dom) :
  graphDiv (setOutput c d) = graphDiv d.
Proof. unfold setOutput. now destruct (outputDiv d). Qed.

Lemma timers_setOutput (c : Content) (d : Dom) :
  timers (setOutput c d) = timers d.
Proof. unfold setOutput. now destruct (outputDiv d). Qed.

(** X11.  [plotExpression] is fulfilled with [true] only when it has drawn:
    the sample has 600 finite points, every value is a finite number or
    [null] and at least one is a number; the figure in [#graph] has this
    sample as its trace, the message is the one of success, and the
    callback that expands the graph to 400px is scheduled. *)
Theorem plot_true_has_drawn (st : State) (d : Dom) (u : jsstring) :
  fst (fst (plotExpression eng br st d u)) = Some true ->
  exists obj,
    fst (computeXYWithPyodide eng st u plotMin plotMax plotPoints) = Return obj
    /\ length (xs obj) = 600%nat
    /\ forallb isFinite (xs obj) = true
    /\ forallb finiteOrNull (ys obj) = true
    /\ existsb notNull (ys obj) = true
    /\ graphDiv (snd (plotExpression eng br st d u))
       = Some (mkGraphDiv (js "1px") (Some (figureOf u obj)))
    /\ In (NextFrame, ExpandGraph (figureOf u obj))
          (timers (snd (plotExpression eng br st d u)))
    /\ (outputDiv d <> None ->
        outputDiv (snd (plotExpression eng br st d u))
        = Some (InnerText msgGraphDone))
    /\ graphDiv (fire br (ExpandGraph (figureOf u obj))
                   (snd (plotExpression eng br st d u)))
       = Some (mkGraphDiv (js "400px") (Some (figureOf u obj))).
Proof.
  unfold plotExpression.
  destruct (graphDiv d) as [g|] eqn:Eg; [|discriminate].
  destruct (ensurePlotlyLoaded defaultTimeoutMs (plotlyAtCall br) (ticks br));
    try discriminate.
  destruct (computeXYWithPyodide eng st u plotMin plotMax plotPoints)
    as [[obj|e] st'] eqn:Exy; [|discriminate].
  destruct (existsb notNull (ys obj)) eqn:En; [|discriminate].
  cbn [negb]. destruct (newPlot br Toolbar (figureOf u obj)); [|discriminate].
  intros _. exists obj.
  assert (Hret : fst (computeXYWithPyodide eng st u plotMin plotMax plotPoints)
                 = Return obj) by now rewrite Exy.
  destruct (@computeXY_returns eng st u plotMin plotMax plotPoints obj Hret)
    as (x & lo & hi & raw & _ & _ & _ & _ & Hl & _ & _ & Hfx & Hfy).
  split; [reflexivity|].
  split; [exact (proj2 (@linspace_length _ _ _ _ Hl))|].
  split; [exact Hfx|]. split; [exact Hfy|]. split; [exact En|].
  cbn [snd].
  split; [now rewrite graphDiv_setOutput|].
  split.
  { rewrite timers_setOutput. cbn [setGraph schedule timers].
    apply in_or_app. right. now left. }
  split.
  { intros Ho. rewrite outputDiv_setOutput. cbn [setGraph schedule outputDiv].
    rewrite outputDiv_setOutput. now destruct (outputDiv d). }
  unfold fire. rewrite graphDiv_setOutput. cbn [setGraph graphDiv].
  reflexivity.
Qed.

Lemma plot_sampler_throws
    (st : State) (d : Dom) (u : jsstring) (g0 : GraphDiv) (o : Content) (e : JsError) :
  graphDiv d = Some g0 ->
  outputDiv d = Some o ->
  ensurePlotlyLoaded defaultTimeoutMs (plotlyAtCall br) (ticks br) = Resolved ->
  fst (computeXYWithPyodide eng st u plotMin plotMax plotPoints) = Throw e ->
  fst (fst (plotExpression eng br st d u)) = Some false
  /\ graphDiv (snd (plotExpression eng br st d u)) = Some collapsed
  /\ outputDiv (snd (plotExpression eng br st d u))
     = Some (InnerText msgCouldNotGraph).
Proof.
  intros Hg Ho Hp Hxy. unfold plotExpression. rewrite Hg, Hp.
  destruct (computeXYWithPyodide eng st u plotMin plotMax plotPoints)
    as [[obj|e'] st'] eqn:Exy; [discriminate|].
  cbn [fst snd]. split; [reflexivity|]. split; [reflexivity|].
  cbn [setGraph outputDiv]. rewrite outputDiv_setOutput.
  cbn [consoleError outputDiv]. rewrite outputDiv_setOutput. now rewrite Ho.
Qed.

Lemma plot_sampler_all_null
    (st : State) (d : Dom) (u : jsstring) (g0 : GraphDiv) (o : Content) (obj : XY) :
  graphDiv d = Some g0 ->
  outputDiv d = Some o ->
  ensurePlotlyLoaded defaultTimeoutMs (plotlyAtCall br) (ticks br) = Resolved ->
  fst (computeXYWithPyodide eng st u plotMin plotMax plotPoints) = Return obj ->
  existsb notNull (ys obj) = false ->
  fst (fst (plotExpression eng br st d u)) = Some false
  /\ graphDiv (snd (plotExpression eng br st d u)) = Some collapsed
  /\ outputDiv (snd (plotExpression eng br st d u))
     = Some (InnerText msgNonReal).
Proof.
  intros Hg Ho Hp Hxy Hnull. unfold plotExpression. rewrite Hg, Hp.
  destruct (computeXYWithPyodide eng st u plotMin plotMax plotPoints)
    as [[obj'|e'] st'] eqn:Exy; [|discriminate].
  cbn [fst] in Hxy. apply Return_inj in Hxy. subst obj'.
  rewrite Hnull. cbn [negb fst snd].
  split; [reflexivity|]. split; [reflexivity|].
  cbn [setGraph outputDiv]. rewrite !outputDiv_setOutput. now rewrite Ho.
Qed.

(** X12.  A single value that is an infinity or a NaN, at any of the 600
    sample points, makes the graph command fail as a whole: nothing is
    drawn, the graph is collapsed and the page shows the message about
    variables other than x. *)
Theorem plot_fails_on_nonfinite_value
    (st : State) (d : Dom) (u : jsstring) (g0 : GraphDiv) (o : Content)
    (x : Expr eng) (g : float -> PyVal) :
  pyodideReady st = true ->
  graphDiv d = Some g0 ->
  outputDiv d = Some o ->
  ensurePlotlyLoaded defaultTimeoutMs (plotlyAtCall br) (ticks br) = Resolved ->
  sympify eng u = PyOk x ->
  lambdify eng x = Elementwise g ->
  existsb (fun v => nonFinite (g v)) plotGrid = true ->
  fst (fst (plotExpression eng br st d u)) = Some false
  /\ graphDiv (snd (plotExpression eng br st d u)) = Some collapsed
  /\ outputDiv (snd (plotExpression eng br st d u))
     = Some (InnerText msgCouldNotGraph).
Proof.
  intros Hr Hg Ho Hp Hx Hl Hbad.
  apply (plot_sampler_throws st d u g0 o SyntaxError Hg Ho Hp).
  apply (@computeXY_nonfinite_throws eng st u plotMin plotMax plotMin plotMax
           plotPoints x plotGrid (List.map g plotGrid)).
  - exact Hr.
  - exact Hx.
  - exact pyNumber_plotMin.
  - exact pyNumber_plotMax.
  - exact linspace_plotGrid.
  - rewrite Hl. reflexivity.
  - apply existsb_nonFinite. exact Hbad.
Qed.

(** X13.  When [float()] refuses the value of the expression at every
    sample point the sample itself succeeds, with [null] everywhere, and
    the graph command reports that the function is not real on the range
    and draws nothing. *)
Theorem plot_reports_nonreal_function
    (st : State) (d : Dom) (u : jsstring) (g0 : GraphDiv) (o : Content)
    (x : Expr eng) (g : float -> PyVal) :
  pyodideReady st = true ->
  graphDiv d = Some g0 ->
  outputDiv d = Some o ->
  ensurePlotlyLoaded defaultTimeoutMs (plotlyAtCall br) (ticks br) = Resolved ->
  sympify eng u = PyOk x ->
  lambdify eng x = Elementwise g ->
  (forall v, In v plotGrid -> g v = PyNonReal) ->
  fst (fst (plotExpression eng br st d u)) = Some false
  /\ graphDiv (snd (plotExpression eng br st d u)) = Some collapsed
  /\ outputDiv (snd (plotExpression eng br st d u))
     = Some (InnerText msgNonReal).
Proof.
  intros Hr Hg Ho Hp Hx Hl Hnr.
  destruct (all_nonreal g plotGrid Hnr) as [Hfin Hnull].
  apply (plot_sampler_all_null st d u g0 o
           (mkXY plotGrid (List.map floatOrNone (List.map g plotGrid))) Hg Ho Hp).
  - apply (@computeXY_nonreal_is_null eng st u plotMin plotMax plotMin plotMax
             plotPoints x plotGrid (List.map g plotGrid)).
    + exact Hr.
    + exact Hx.
    + exact pyNumber_plotMin.
    + exact pyNumber_plotMax.
    + exact linspace_plotGrid.
    + exact plotGrid_finite.
    + rewrite Hl. reflexivity.
    + exact Hfin.
  - exact Hnull.
Qed.

End PlotFacts.

Section TrimFacts.

Lemma trimEnd_solid (x : jsstring) : endsSolid x = true -> trimEnd x = x.
Proof.
  induction x as [|c tl IH]; [reflexivity|].
  destruct tl as [|d t].
  - cbn. intros H. now destruct (isWs c).
  - intros H. change (endsSolid (c :: d :: t)) with (endsSolid (d :: t)) in H.
    cbn [trimEnd]. cbn [trimEnd] in IH. now rewrite (IH H).
Qed.

Lemma trim_idem (s : jsstring) : trim (trim s) = trim s.
Proof.
  unfold trim, trimStart.
  rewrite trim_comm, dropWs_idem.
  apply trimEnd_solid, endsSolid_trimEnd.
Qed.

Lemma normalize_trim (s : jsstring) : normalize (trim s) = normalize s.
Proof. unfold normalize, rewriteOperators. now rewrite trim_idem. Qed.

Lemma trim_blank (v : jsstring) : forallb isWs v = true -> trim v = [].
Proof. intros H. unfold trim, trimStart. now rewrite (dropWs_ws v H). Qed.

End TrimFacts.

Section DoMathsFacts.

Variable eng : Engine.
Variable br : Browser.

Lemma outputDiv_collapseIfOpen (d : Dom) :
  outputDiv (collapseIfOpen d) = outputDiv d.
Proof.
  unfold collapseIfOpen. destruct (graphDiv d) as [g|]; [|reflexivity].
  now destruct (streq (height g) (js "1px")).
Qed.

Lemma consoleErrors_setOutput (c : Content) (d : Dom) :
  consoleErrors (setOutput c d) = consoleErrors d.
Proof. unfold setOutput. now destruct (outputDiv d). Qed.

(** What [doMaths] writes on the bridge path, read off the outcome of
    [runSympyCommand]. *)
Lemma doMaths_bridge
    (st : State) (d : Dom) (v : jsstring) (o : Content) (c : jsstring) :
  pyodideReady st = true ->
  boxValue d = Some v -> trim v <> [] ->
  outputDiv d = Some o ->
  selectedCommand (commandValue d) = c ->
  c <> js "graph" ->
  outputDiv (snd (doMaths eng br st d))
  = Some match fst (runSympyCommand eng st (normalize v) c) with
         | Throw _ => InnerText msgError
         | Return result =>
             if startsWith (js "Error:") result then InnerText result
             else InnerHTML (js "$$" ++ result ++ js "$$")
         end
  /\ fst (doMaths eng br st d) = snd (runSympyCommand eng st (normalize v) c).
Proof.
  intros Hr Hv Ht Ho Hc Hg. unfold doMaths. rewrite Hr, Hv. cbn [negb].
  destruct (trim v) as [|t0 t] eqn:Et; [congruence|]. rewrite <- Et.
  rewrite normalize_trim, Hc. unfold route. rewrite (@streq_neq c (js "graph") Hg).
  destruct (runSympyCommand eng st (normalize v) c) as [[result|e] st'].
  - cbn [fst snd]. destruct (startsWith (js "Error:") result); cbn [fst snd];
      rewrite !outputDiv_setOutput, outputDiv_collapseIfOpen, Ho; auto.
  - cbn [fst snd]. rewrite outputDiv_setOutput. cbn [consoleError outputDiv].
    rewrite outputDiv_setOutput, outputDiv_collapseIfOpen, Ho. auto.
Qed.

(** X14.  An expression the engine cannot parse: [doMaths] does not show
    the engine's message; the exception reaches its [catch], and the page
    shows the general error text. *)
Theorem doMaths_hides_parse_failure
    (st : State) (d : Dom) (v : jsstring) (o : Content) (c : jsstring) (e : PyExc) :
  pyodideReady st = true ->
  boxValue d = Some v -> trim v <> [] ->
  outputDiv d = Some o ->
  selectedCommand (commandValue d) = c ->
  c <> js "graph" ->
  In c switch_cases \/ plainLiteral c = true ->
  sympify eng (normalize v) = PyRaise e ->
  outputDiv (snd (doMaths eng br st d)) = Some (InnerText msgError).
Proof.
  intros Hr Hv Ht Ho Hc Hg Hcase He.
  rewrite (proj1 (doMaths_bridge st d v o c Hr Hv Ht Ho Hc Hg)).
  now rewrite (@runSympyCommand_sympify_raises eng st (normalize v) c e Hr He Hcase).
Qed.

(** X15.  What the page shows for one of the eight actions on an expression
    the engine parses: the LaTeX between [$$] marks, set as HTML; a fault
    of the action that is an instance of [Exception] as the plain text
    [Error: ] and its message; any other fault as the general error text.
    A LaTeX result that itself starts with [Error:] is shown as plain
    text. *)
Theorem doMaths_shows_action
    (st : State) (d : Dom) (v : jsstring) (o : Content) (c : jsstring)
    (a : Action) (x : Expr eng) :
  pyodideReady st = true ->
  boxValue d = Some v -> trim v <> [] ->
  outputDiv d = Some o ->
  selectedCommand (commandValue d) = c ->
  switchBody c = BAction a ->
  sympify eng (normalize v) = PyOk x ->
  outputDiv (snd (doMaths eng br st d))
  = Some match actionLatex eng a x with
         | PyOk s =>
             if startsWith (js "Error:") s then InnerText s
             else InnerHTML (js "$$" ++ s ++ js "$$")
         | PyRaise e =>
             if isException e then InnerText (js "Error: " ++ excStr e)
             else InnerText msgError
         end.
Proof.
  intros Hr Hv Ht Ho Hc Hb Hx.
  assert (Hg : c <> js "graph").
  { intros ->. vm_compute in Hb. discriminate. }
  rewrite (proj1 (doMaths_bridge st d v o c Hr Hv Ht Ho Hc Hg)).
  unfold runSympyCommand. rewrite Hr. cbn [negb fst].
  unfold runCode. rewrite Hb. unfold Bridge.pyCode. cbn [globalsSet user_expr].
  rewrite Hx. cbn [Bridge.runBody].
  destruct (actionLatex eng a x) as [s|e]; cbn [Bridge.tryExcept runPythonAsync].
  - reflexivity.
  - destruct (isException e); cbn [runPythonAsync]; reflexivity.
Qed.

Lemma startsWith_unknown (c : jsstring) :
  startsWith (js "Error:") (js "Unknown command: " ++ c) = false.
Proof. reflexivity. Qed.

(** X16.  A command without a [case] is not rejected: for an expression
    the engine parses, the page typesets the sentence
    [Unknown command: ] and the command as if it were a formula. *)
Theorem doMaths_typesets_unknown_command
    (st : State) (d : Dom) (v : jsstring) (o : Content) (c : jsstring)
    (x : Expr eng) :
  pyodideReady st = true ->
  boxValue d = Some v -> trim v <> [] ->
  outputDiv d = Some o ->
  selectedCommand (commandValue d) = c ->
  ~ In c switch_cases -> plainLiteral c = true ->
  sympify eng (normalize v) = PyOk x ->
  outputDiv (snd (doMaths eng br st d))
  = Some (InnerHTML (js "$$" ++ (js "Unknown command: " ++ c) ++ js "$$")).
Proof.
  intros Hr Hv Ht Ho Hc Hn Hp Hx.
  assert (Hg : c <> js "graph").
  { intros ->. apply Hn. unfold switch_cases. simpl. tauto. }
  rewrite (proj1 (doMaths_bridge st d v o c Hr Hv Ht Ho Hc Hg)).
  unfold runSympyCommand. rewrite Hr. cbn [negb fst].
  unfold runCode. rewrite (@switchBody_default c Hn), Hp.
  unfold Bridge.pyCode. cbn [globalsSet user_expr].
  rewrite Hx. cbn [Bridge.runBody Bridge.tryExcept runPythonAsync].
  now rewrite startsWith_unknown.
Qed.

(** X17.  With nothing but white space in the box, or no box at all,
    [doMaths] asks for an equation and does nothing else: the engine is
    not called and nothing is scheduled. *)
Theorem doMaths_blank_input (st : State) (d : Dom) :
  pyodideReady st = true ->
  blank d = true ->
  doMaths eng br st d = (st, setOutput (InnerText msgEnter) d).
Proof.
  intros Hr Hb. unfold doMaths. rewrite Hr. cbn [negb].
  unfold blank in Hb. destruct (boxValue d) as [v|].
  - now rewrite (trim_blank v Hb).
  - reflexivity.
Qed.

End DoMathsFacts.

Section EngineState.

Variable eng : Engine.

(** X18.  A call does not see what an earlier call bound: two states with
    the same readiness give the same outcome, for the bridge and for the
    sampler.  And the clean-up after the call removes nothing: with the
    engine ready the expression is still bound when the promise
    settles. *)
Theorem calls_rebind_the_expression
    (st st' : State) (u c : jsstring) (xMin xMax : float) (points : Z) :
  pyodideReady st = pyodideReady st' ->
  fst (runSympyCommand eng st u c) = fst (runSympyCommand eng st' u c)
  /\ fst (computeXYWithPyodide eng st u xMin xMax points)
     = fst (computeXYWithPyodide eng st' u xMin xMax points)
  /\ (pyodideReady st = true ->
      snd (runSympyCommand eng st u c) = mkState true (Some u)
      /\ snd (computeXYWithPyodide eng st u xMin xMax points)
         = mkState true (Some u)).
Proof.
  intros H. unfold runSympyCommand, computeXYWithPyodide.
  destruct st as [r b], st' as [r' b']. cbn [pyodideReady] in *. subst r'.
  destruct r; cbn [negb fst snd pyodideReady globalsSet globalsDel].
  - split; [reflexivity|]. split; [reflexivity|]. intros _. split; reflexivity.
  - split; [reflexivity|]. split; [reflexivity|]. discriminate.
Qed.

End EngineState.

Section ThemeFacts.

Import Theme.

Lemma map_const_const {A B C : Type} (x : B) (y : C) (l : list A) :
  List.map (fun _ => y) (List.map (fun _ => x) l) = List.map (fun _ => y) l.
Proof. now rewrite List.map_map. Qed.

(** X19.  With the four elements in place [changeColour] never throws and
    flips [dark]; and from the first click on the page alternates between
    two states: two further clicks bring back exactly the page the first
    click made. *)
Theorem changeColour_alternates (p : ThemePage) :
  complete p = true ->
  fst (changeColour p) = None
  /\ dark (snd (changeColour p)) = negb (dark p)
  /\ complete (snd (changeColour p)) = true
  /\ length (paragraphs (snd (changeColour p))) = length (paragraphs p)
  /\ clicks 3 p = clicks 1 p.
Proof.
  unfold complete. destruct p as [dk bg ps ls [t|] [e|] [o|] [b|]];
    cbn [themeButton equationbox outputColor bannerSrc]; try discriminate.
  intros _. destruct dk; cbn; rewrite ?length_map, ?List.map_map; auto.
Qed.

(** X20.  With one of the four elements missing [changeColour] throws
    before it assigns [dark]: whatever the number of clicks, the flag
    keeps its value and every click throws again. *)
Theorem changeColour_stuck (p : ThemePage) (n : nat) :
  complete p = false ->
  fst (changeColour (clicks n p)) <> None
  /\ dark (clicks n p) = dark p
  /\ complete (clicks n p) = false.
Proof.
  intros Hp.
  assert (Hstep : forall r, complete r = false ->
            fst (changeColour r) <> None
            /\ dark (snd (changeColour r)) = dark r
            /\ complete (snd (changeColour r)) = false).
  { intros [dk bg ps ls [t|] [e|] [o|] [b|]]; unfold complete;
      cbn [themeButton equationbox outputColor bannerSrc]; try discriminate;
      intros _; destruct dk; cbn; repeat split; discriminate. }
  revert p Hp. induction n as [|n IH]; intros p Hp.
  - cbn [clicks]. destruct (Hstep p Hp) as (H1 & _). auto.
  - cbn [clicks]. destruct (Hstep p Hp) as (_ & H2 & H3).
    destruct (IH _ H3) as (I1 & I2 & I3). rewrite I2, H2. auto.
Qed.

End ThemeFacts.

(* ================================================================== *)
(** * The properties above on concrete pages and expressions *)
(* ================================================================== *)

Section Runs.

Local Open Scope Z_scope.

(** X5 at an equation with nested parentheses. *)
Lemma normalize_keeps_balance_witness :
  Stub.balanced (normalize (js "2(x+(1)) = (3)x")) = true.
Proof. apply (normalize_keeps_balance (js "2(x+(1)) = (3)x")). reflexivity. Defined.


(** X7 at [solve] on the stub, whose raw values never fail. *)
Lemma revisions_agree_witness :
  textOf (fst (Revised.runSympyCommand Stub.engine Stub.splicedRaw Stub.ready
                 (js "x+1") (js "solve")))
    = fst (runSympyCommand Stub.engine Stub.ready (js "x+1") (js "solve"))
  /\ snd (Revised.runSympyCommand Stub.engine Stub.splicedRaw Stub.ready
            (js "x+1") (js "solve"))
    = snd (runSympyCommand Stub.engine Stub.ready (js "x+1") (js "solve")).
Proof.
  apply (revisions_agree Stub.engine Stub.splicedRaw Stub.ready (js "x+1") (js "solve")).
  - intros a x s _. exists x. reflexivity.
  - left. simpl. tauto.
Defined.

(** X8 at five samples of the identity. *)
Lemma sample_contract_witness :
  exists obj,
    fst (computeXYWithPyodide Stub.engine Stub.ready (js "x") plotMin plotMax 5)
      = Return obj
    /\ forallb isFinite (xs obj) = true
    /\ forallb finiteOrNull (ys obj) = true
    /\ length (xs obj) = 5%nat.
Proof.
  eexists. split; [vm_compute; reflexivity|].
  match goal with
  | |- context [xs ?o] =>
      pose proof (sample_contract Stub.engine Stub.ready (js "x")
                    plotMin plotMax 5 o) as H
  end.
  match type of H with
  | ?P -> _ => assert (HP : P) by (vm_compute; reflexivity)
  end.
  destruct (H HP) as (H1 & H2 & H3 & _).
  split; [exact H1|]. split; [exact H2|exact H3].
Defined.


(** X11: the identity is drawn. *)
Lemma plot_true_has_drawn_witness :
  exists obj,
    fst (computeXYWithPyodide Stub.engine Stub.ready (js "x")
           plotMin plotMax plotPoints) = Return obj
    /\ length (xs obj) = 600%nat
    /\ existsb notNull (ys obj) = true
    /\ graphDiv (snd (plotExpression Stub.engine Demo.browser Stub.ready
                        (Demo.page (js "x") (js "graph")) (js "x")))
       = Some (mkGraphDiv (js "1px") (Some (figureOf (js "x") obj))).
Proof.
  destruct (plot_true_has_drawn Stub.engine Demo.browser Stub.ready
              (Demo.page (js "x") (js "graph")) (js "x"))
    as (obj & H1 & H2 & _ & _ & H3 & H4 & _).
  - vm_compute. reflexivity.
  - exists obj. split; [exact H1|]. split; [exact H2|]. split; [exact H3|exact H4].
Defined.

(** X12: [1/(x-10)] has a pole at the right end of the range. *)
Lemma plot_fails_on_nonfinite_value_witness :
  fst (fst (plotExpression Demo.engine Demo.browser Stub.ready
              (Demo.page (js "1/(x-10)") (js "graph")) (js "1/(x-10)")))
    = Some false
  /\ graphDiv (snd (plotExpression Demo.engine Demo.browser Stub.ready
                      (Demo.page (js "1/(x-10)") (js "graph")) (js "1/(x-10)")))
    = Some collapsed
  /\ outputDiv (snd (plotExpression Demo.engine Demo.browser Stub.ready
                       (Demo.page (js "1/(x-10)") (js "graph")) (js "1/(x-10)")))
    = Some (InnerText msgCouldNotGraph).
Proof.
  apply (plot_fails_on_nonfinite_value Demo.engine Demo.browser Stub.ready
           (Demo.page (js "1/(x-10)") (js "graph")) (js "1/(x-10)")
           (mkGraphDiv (js "1px") None) (InnerText []) (js "1/(x-10)") Demo.pole);
    [reflexivity|reflexivity|reflexivity|reflexivity|reflexivity|reflexivity|].
  vm_compute. reflexivity.
Defined.

(** X13: no value of [opaque(x)] is one [float()] accepts. *)
Lemma plot_reports_nonreal_function_witness :
  fst (fst (plotExpression Demo.engine Demo.browser Stub.ready
              (Demo.page (js "opaque(x)") (js "graph")) (js "opaque(x)")))
    = Some false
  /\ graphDiv (snd (plotExpression Demo.engine Demo.browser Stub.ready
                      (Demo.page (js "opaque(x)") (js "graph")) (js "opaque(x)")))
    = Some collapsed
  /\ outputDiv (snd (plotExpression Demo.engine Demo.browser Stub.ready
                       (Demo.page (js "opaque(x)") (js "graph")) (js "opaque(x)")))
    = Some (InnerText msgNonReal).
Proof.
  apply (plot_reports_nonreal_function Demo.engine Demo.browser Stub.ready
           (Demo.page (js "opaque(x)") (js "graph")) (js "opaque(x)")
           (mkGraphDiv (js "1px") None) (InnerText []) (js "opaque(x)")
           (fun _ => PyNonReal));
    [reflexivity|reflexivity|reflexivity|reflexivity|reflexivity|reflexivity|].
  intros v _. reflexivity.
Defined.

(** X14: an unbalanced expression. *)
Lemma doMaths_hides_parse_failure_witness :
  outputDiv (snd (doMaths Stub.engine Demo.browser Stub.ready
                    (Demo.page (js "(x+1") (js "solve"))))
  = Some (InnerText msgError).
Proof.
  apply (doMaths_hides_parse_failure Stub.engine Demo.browser Stub.ready
           (Demo.page (js "(x+1") (js "solve")) (js "(x+1") (InnerText [])
           (js "solve") Stub.sympifyError); try reflexivity.
  - discriminate.
  - discriminate.
  - left. simpl. tauto.
Defined.

(** X15: an action that answers, and one that raises. *)
Lemma doMaths_shows_action_witness :
  outputDiv (snd (doMaths Demo.engine Demo.browser Stub.ready
                    (Demo.page (js " 2x ") (js "expand"))))
    = Some (InnerHTML (js "$$2*x$$"))
  /\ outputDiv (snd (doMaths Demo.engine Demo.browser Stub.ready
                       (Demo.page (js "x^2") (js "integrate"))))
    = Some (InnerText (js "Error: cannot integrate")).
Proof.
  split.
  - apply (doMaths_shows_action Demo.engine Demo.browser Stub.ready
             (Demo.page (js " 2x ") (js "expand")) (js " 2x ") (InnerText [])
             (js "expand") Expand (js "2*x")); try reflexivity.
    discriminate.
  - apply (doMaths_shows_action Demo.engine Demo.browser Stub.ready
             (Demo.page (js "x^2") (js "integrate")) (js "x^2") (InnerText [])
             (js "integrate") Integrate (js "x**2")); try reflexivity.
    discriminate.
Defined.

(** X16: a command the [switch] does not know. *)
Lemma doMaths_typesets_unknown_command_witness :
  outputDiv (snd (doMaths Stub.engine Demo.browser Stub.ready
                    (Demo.page (js "x") (js "plot"))))
  = Some (InnerHTML (js "$$Unknown command: plot$$")).
Proof.
  apply (doMaths_typesets_unknown_command Stub.engine Demo.browser Stub.ready
           (Demo.page (js "x") (js "plot")) (js "x") (InnerText [])
           (js "plot") (js "x")); try reflexivity.
  - discriminate.
  - unfold switch_cases. simpl.
    intros [H|[H|[H|[H|[H|[H|[H|[H|[H|[]]]]]]]]]]; discriminate H.
Defined.

(** X17: a box of spaces and a tab, once the engine has loaded. *)
Lemma doMaths_blank_input_witness :
  doMaths Stub.engine Demo.browser (loadPyodideAndPackages true true initial)
    (Demo.page [space; 9%N; space] (js "solve"))
  = (loadPyodideAndPackages true true initial,
     setOutput (InnerText msgEnter) (Demo.page [space; 9%N; space] (js "solve"))).
Proof.
  apply (doMaths_blank_input Stub.engine Demo.browser
           (loadPyodideAndPackages true true initial)
           (Demo.page [space; 9%N; space] (js "solve"))); reflexivity.
Defined.

(** X18: a stale binding changes nothing. *)
Lemma calls_rebind_the_expression_witness :
  fst (runSympyCommand Stub.engine Stub.ready (js "x") (js "solve"))
    = fst (runSympyCommand Stub.engine (mkState true (Some (js "y"))) (js "x") (js "solve"))
  /\ fst (computeXYWithPyodide Stub.engine Stub.ready (js "x") plotMin plotMax 5)
     = fst (computeXYWithPyodide Stub.engine (mkState true (Some (js "y")))
              (js "x") plotMin plotMax 5)
  /\ (pyodideReady Stub.ready = true ->
      snd (runSympyCommand Stub.engine Stub.ready (js "x") (js "solve"))
        = mkState true (Some (js "x"))
      /\ snd (computeXYWithPyodide Stub.engine Stub.ready (js "x") plotMin plotMax 5)
         = mkState true (Some (js "x"))).
Proof.
  apply (calls_rebind_the_expression Stub.engine Stub.ready
           (mkState true (Some (js "y"))) (js "x") (js "solve") plotMin plotMax 5).
  reflexivity.
Defined.

(** X19 on the page in its light theme. *)
Lemma changeColour_alternates_witness :
  fst (Theme.changeColour Demo.light) = None
  /\ Theme.dark (snd (Theme.changeColour Demo.light)) = true
  /\ Theme.clicks 3 Demo.light = Theme.clicks 1 Demo.light
  /\ Theme.clicks 2 Demo.light = Demo.light.
Proof.
  destruct (changeColour_alternates Demo.light eq_refl) as (H1 & H2 & _ & _ & H3).
  split; [exact H1|]. split; [exact H2|]. split; [exact H3|reflexivity].
Defined.

(** X20 on a page without its banner. *)
Lemma changeColour_stuck_witness :
  fst (Theme.changeColour (Theme.clicks 3 Demo.noBanner)) <> None
  /\ Theme.dark (Theme.clicks 3 Demo.noBanner) = false
  /\ Theme.complete (Theme.clicks 3 Demo.noBanner) = false.
Proof. apply (changeColour_stuck Demo.noBanner 3). reflexivity. Defined.

End Runs.
